(** * pres-sort: resumable ranking drivers of [app.js]

    A shallow embedding of the ranking core of the Presidential Preference
    Sorter ([src/app.js]): the seeded shuffle, the comparison cache, the
    undo/snapshot manager, the resumable merge sort driver, the ELO
    initialisation, the tier cut-off wizard and the elimination picker.

    Conventions of the embedding:
    - a candidate is a record with the [id] and [name] it has in
      [data/presidents.json]; ids are strings;
    - JavaScript objects used as dictionaries ([cache], [ties], [ratings],
      [chosen]) are [gmap string _]; arrays are lists; array cursors and
      lengths are [nat]; other JavaScript numbers are [Z] (or [Q] where a
      fraction occurs);
    - the module-level [state] object is threaded explicitly;
    - DOM rendering, toasts, logging and [saveState] (persistence) have no
      effect on the values modelled here and are left out. *)

From Stdlib Require Import ZArith QArith Qround Lia Ascii.
From stdpp Require Import base tactics option list gmap strings fin_maps.

Local Open Scope Z_scope.

(** ** Candidates *)

Record person := Person { id : string; name : string }.

Global Instance person_eq_dec : EqDecision person.
Proof. solve_decision. Defined.

(** JavaScript truthiness of a string: the empty string is falsy. *)
Definition truthy (s : string) : bool := bool_decide (s ≠ "").

(** ** 32-bit conversions of JavaScript's bit operators *)

Definition two32 : Z := 4294967296.

(** [x >>> 0] *)
Definition to_uint32 (x : Z) : Z := x mod two32.

(** [x | 0], also the conversion applied to the operands of [^], [<<], [>>], [&] *)
Definition to_int32 (x : Z) : Z := (x + 2147483648) mod two32 - 2147483648.

(** ** seededRandom: xorshift32 *)

(** The [seed] argument as JavaScript sees it: [None] is [undefined]. *)
Definition seed_state (seed : option Z) : Z :=
  let s := match seed with None => 0 | Some z => to_uint32 z end in
  if s =? 0 then 1 else s.

(** One call of the closure returned by [seededRandom]: the new generator state
    and the numerator of the returned number, which is [num / 2^32].  The
    numerator is [state & 0xffffffff], a signed 32-bit value. *)
Definition rand_next (state : Z) : Z * Z :=
  let x := state in
  let x := to_uint32 (to_int32 (Z.lxor (to_int32 x) (to_int32 (Z.shiftl (to_int32 x) 13)))) in
  let x := to_uint32 (Z.lxor (to_int32 x) (Z.shiftr (to_int32 x) 17)) in
  let x := to_uint32 (to_int32 (Z.lxor (to_int32 x) (to_int32 (Z.shiftl (to_int32 x) 5)))) in
  let state' := to_uint32 x in
  (state', Z.land (to_int32 state') (to_int32 4294967295)).

(** [Math.floor(rand() * k)] for the numerator [num] of [rand()]; the product
    is exact in double precision for every array length below 2^21. *)
Definition floor_scaled (num k : Z) : Z := (num * k) / two32.

(** ** seededShuffle *)

(** [[a[i], a[j]] = [a[j], a[i]]] guarded by [if (a[i] && a[j])]: every element
    of [a] is an object, so the guard fails exactly when an index is outside
    the array (a negative [j]). *)
Definition swap_guarded {A} (a : list A) (i : nat) (j : Z) : list A :=
  if (0 <=? j) then
    match a !! i, a !! Z.to_nat j with
    | Some x, Some y => <[Z.to_nat j := x]> (<[i := y]> a)
    | _, _ => a
    end
  else a.

(** The inner loop [for (let i = a.length - 1; i > 0; i--)], entered at [i]. *)
Fixpoint shuffle_pass {A} (i : nat) (state : Z) (a : list A) : Z * list A :=
  match i with
  | O => (state, a)
  | S i' =>
      let '(state', r) := rand_next state in
      let j := floor_scaled r (Z.of_nat i + 1) in
      shuffle_pass i' state' (swap_guarded a i j)
  end.

(** The outer loop [for (let n = 0; n < 2 + Math.floor(rand() * 3); n++)]: the
    bound is drawn afresh at every test.  [k] bounds the number of tests. *)
Fixpoint shuffle_rounds {A} (k : nat) (n : Z) (state : Z) (a : list A) : list A :=
  match k with
  | O => a
  | S k' =>
      let '(state', r) := rand_next state in
      if n <? 2 + floor_scaled r 3 then
        let '(state'', a') := shuffle_pass (length a - 1) state' a in
        shuffle_rounds k' (n + 1) state'' a'
      else a
  end.

(** [seededShuffle(array, seed)].  The generator is created by
    [seededRandom()] without an argument. *)
Definition seededShuffle (array : list person) (seed : Z) : list person :=
  let state := seed_state None in
  let a := filter (λ v, truthy (id v) = true) array in
  shuffle_rounds 4 0 state a.

(** ** Sorter state *)

(** Outcomes the comparator can give: the values [1], [0], [-1], [null] and
    ['BACK'] passed to [finish] by the buttons and keys. *)
Inductive outcome := Left | Tie | Right | Skip | Back.

Global Instance outcome_eq_dec : EqDecision outcome.
Proof. solve_decision. Defined.

(** What [prefer] resolves to: a number (fresh or cached), [null] or ['BACK']. *)
Inductive pref := PNum (v : Z) | PNull | PBack.

Definition outcome_val (o : outcome) : pref :=
  match o with
  | Left => PNum 1 | Tie => PNum 0 | Right => PNum (-1)
  | Skip => PNull | Back => PBack
  end.

(** [state.sorter.stack]: the frame of the resumable merge sort. *)
Record frame := Frame {
  st_width : nat; st_i : nat;
  st_arr : list string;
  st_L : list string; st_R : list string; st_out : list string;
  st_li : nat; st_rj : nat }.

(** [state.sorter.elo] *)
Record elo_state := Elo {
  ratings : gmap string Q; kFactor : Z;
  pairsDone : Z; totalPairs : Z;
  queue : list (string * string);
  history : gmap string (list Z) }.

(** One entry of [state.sorter.undo], as built by [pushUndoSnapshot]. *)
Record snapshot := Snapshot {
  snap_mode : string; snap_active : bool; snap_totalComparisons : Z;
  snap_stack : option frame;
  snap_cache : gmap string Z; snap_ties : gmap string bool;
  snap_elo : option elo_state }.

(** [state.sorter].  [totalComparisons] is read through [?? 0] wherever it may
    be undefined, so it is a number here.

    The last two fields record object identity.  [restoreFromUndo] installs
    the objects of a snapshot that stays on the undo stack: [shared_maps] is
    the index in [undo] of the snapshot whose [cache] and [ties] objects are
    the live ones, [shared_arrays] the index of the snapshot whose [L], [R]
    and [out] arrays are the live ones.  In-place updates of the live objects
    are written through to that snapshot. *)
Record sorter := Sorter {
  mode : string; active : bool;
  cache : gmap string Z; ties : gmap string bool;
  stack : option frame;
  result : option (list person);
  undo : list snapshot;
  totalComparisons : Z;
  elo : option elo_state;
  eloIntensity : string;
  shared_maps : option nat; shared_arrays : option nat }.

Definition default_elo : elo_state :=
  Elo ∅ 32 0 0 [] ∅.

(** [defaultState().sorter] *)
Definition defaultSorter : sorter :=
  Sorter "merge" false ∅ ∅ None None [] 0 (Some default_elo) "balanced" None None.

Definition set_stack (st : option frame) (s : sorter) : sorter :=
  Sorter (mode s) (active s) (cache s) (ties s) st (result s) (undo s)
    (totalComparisons s) (elo s) (eloIntensity s) (shared_maps s) (shared_arrays s).

Definition set_undo (u : list snapshot) (s : sorter) : sorter :=
  Sorter (mode s) (active s) (cache s) (ties s) (stack s) (result s) u
    (totalComparisons s) (elo s) (eloIntensity s) (shared_maps s) (shared_arrays s).

Definition set_maps (c : gmap string Z) (t : gmap string bool) (s : sorter) : sorter :=
  Sorter (mode s) (active s) c t (stack s) (result s) (undo s)
    (totalComparisons s) (elo s) (eloIntensity s) (shared_maps s) (shared_arrays s).

Definition set_shared (m a : option nat) (s : sorter) : sorter :=
  Sorter (mode s) (active s) (cache s) (ties s) (stack s) (result s) (undo s)
    (totalComparisons s) (elo s) (eloIntensity s) m a.

(** The live frame after its [L], [R] and [out] fields were assigned fresh
    arrays: they are no longer the arrays of a snapshot. *)
Definition set_fresh_frame (st : frame) (s : sorter) : sorter :=
  set_shared (shared_maps s) None (set_stack (Some st) s).

(** ** Comparison cache *)

Definition keyFor (a b : person) : string := id a +:+ "|" +:+ id b.

(** [val === 1 ? -1 : val === -1 ? 1 : 0] *)
Definition invert (val : Z) : Z :=
  if val =? 1 then -1 else if val =? -1 then 1 else 0.

(** Writes of the live [cache], [ties], [L], [R], [out] objects reach the
    snapshot that holds the same objects. *)
Definition snap_set_maps (c : gmap string Z) (t : gmap string bool) (sn : snapshot) : snapshot :=
  Snapshot (snap_mode sn) (snap_active sn) (snap_totalComparisons sn) (snap_stack sn)
    c t (snap_elo sn).

Definition frame_set_arrays (l r o : list string) (f : frame) : frame :=
  Frame (st_width f) (st_i f) (st_arr f) l r o (st_li f) (st_rj f).

Definition snap_set_arrays (l r o : list string) (sn : snapshot) : snapshot :=
  Snapshot (snap_mode sn) (snap_active sn) (snap_totalComparisons sn)
    (frame_set_arrays l r o <$> snap_stack sn)
    (snap_cache sn) (snap_ties sn) (snap_elo sn).

Definition write_through (s : sorter) : sorter :=
  let u1 := match shared_maps s with
            | Some k => alter (snap_set_maps (cache s) (ties s)) k (undo s)
            | None => undo s
            end in
  let u2 := match shared_arrays s, stack s with
            | Some k, Some f => alter (snap_set_arrays (st_L f) (st_R f) (st_out f)) k u1
            | _, _ => u1
            end in
  set_undo u2 s.

(** The body of [finish] in [makePrefer] that records a judgment: nothing is
    recorded for [null] and ['BACK']. *)
Definition finish (a b : person) (val : pref) (s : sorter) : sorter :=
  match val with
  | PNum v =>
      let c := <[keyFor b a := invert v]> (<[keyFor a b := v]> (cache s)) in
      let t := if v =? 0
               then <[keyFor b a := true]> (<[keyFor a b := true]> (ties s))
               else ties s in
      write_through (set_maps c t s)
  | _ => s
  end.

(** [prefer(a, b)]: a cached pair is answered from the cache without asking;
    otherwise the next outcome of the comparator is taken.  [None] when the
    comparator has not answered yet (the promise is pending). *)
Definition prefer (a b : person) (s : sorter) (os : list outcome)
  : option (pref * sorter * list outcome) :=
  match cache s !! keyFor a b with
  | Some v => Some (PNum v, s, os)
  | None =>
      match os with
      | [] => None
      | o :: os' => Some (outcome_val o, finish a b (outcome_val o) s, os')
      end
  end.

(** ** Snapshot/undo manager *)

Definition MAX_UNDO : nat := 2000.

Definition take_snapshot (s : sorter) : snapshot :=
  Snapshot (mode s) (active s) (totalComparisons s) (stack s) (cache s) (ties s) (elo s).

(** Index of a snapshot after [splice(0, k)] removed the [k] oldest. *)
Definition shift_index (k : nat) (ix : option nat) : option nat :=
  match ix with
  | Some j => if (j <? k)%nat then None else Some (j - k)%nat
  | None => None
  end.

Definition pushUndoSnapshot (s : sorter) : sorter :=
  let u := undo s ++ [take_snapshot s] in
  if (MAX_UNDO <? length u)%nat then
    let k := (length u - MAX_UNDO)%nat in
    set_shared (shift_index k (shared_maps s)) (shift_index k (shared_arrays s))
      (set_undo (drop k u) s)
  else set_undo u s.

(** Index of a snapshot after [pop()] left [n] entries: the popped snapshot is
    no longer on the stack. *)
Definition clip_index (n : nat) (ix : option nat) : option nat :=
  match ix with
  | Some j => if (j <? n)%nat then Some j else None
  | None => None
  end.

(** [restoreFromUndo()]: the new state and the returned boolean.  The restored
    [stack], [cache] and [ties] are the snapshot's own objects. *)
Definition restoreFromUndo (s : sorter) : sorter * bool :=
  if (length (undo s) <? 2)%nat then (s, false)
  else
    let u := removelast (undo s) in
    let n := length u in
    match last u with
    | None =>
        (set_shared (clip_index n (shared_maps s)) (clip_index n (shared_arrays s))
           (set_undo u s), false)
    | Some prev =>
        let ix := Some (n - 1)%nat in
        (Sorter (if truthy (snap_mode prev) then snap_mode prev else mode s)
           (snap_active prev) (snap_cache prev) (snap_ties prev)
           (snap_stack prev) (result s) u (snap_totalComparisons prev)
           (snap_elo prev) (eloIntensity s)
           ix (if snap_stack prev is Some _ then ix else clip_index n (shared_arrays s)),
         true)
    end.

(** ** Progress estimation *)

(** [Math.ceil(Math.log2(n))] for an integer [n >= 1]. *)
Definition ceil_log2 (n : Z) : Z := Z.log2_up n.

Definition totalComparisonUpperBound (n : Z) : Z :=
  if n <=? 1 then 0
  else
    let h := ceil_log2 (Z.max 1 n) in
    n * h - (2 ^ h - 1).

(** [k.split('|')] *)
Fixpoint split_bar (cur : string) (k : string) : list string :=
  match k with
  | EmptyString => [String.rev cur]
  | String c k' =>
      if Ascii.eqb c "|"%char then String.rev cur :: split_bar "" k'
      else split_bar (String c cur) k'
  end.

(** [countUniqueCachePairs(cache)]: the number of unordered pairs among the
    keys of the cache; keys that do not split in two at ['|'] are ignored. *)
Definition canonical_pair (k : string) : option string :=
  match split_bar "" k with
  | [a; b] => Some (if String.ltb a b then a +:+ "|" +:+ b else b +:+ "|" +:+ a)
  | _ => None
  end.

Definition countUniqueCachePairs (cache : gmap string Z) : nat :=
  let seen : gset string :=
    list_to_set (omap canonical_pair (elements (dom cache))) in
  size seen.

(** ** Resumable merge sort *)

(** [new Map(state.data.map(p => [p.id, p]))]: a later entry replaces an
    earlier one with the same id. *)
Definition idMapOf (data : list person) : gmap string person :=
  foldl (λ m p, <[id p := p]> m) ∅ data.

(** [idsOf(list)] on an array of candidates: every entry is an object with an
    id, so nothing is dropped. *)
Definition idsOf (items : list person) : list string := id <$> items.

(** [.filter(Boolean)] on an array of ids *)
Definition filter_truthy (ids : list string) : list string :=
  filter (λ x, truthy x = true) ids.

(** [objsOf(ids, idMap)] *)
Definition objsOf (ids : list string) (idMap : gmap string person) : list person :=
  omap (λ x, idMap !! x) ids.

(** [arr.slice(a, b)] for [0 <= a]. *)
Definition slice {A} (a b : nat) (l : list A) : list A :=
  take (b - a)%nat (drop a l).

(** [initSort(items)]; [None] is the thrown ['No items to sort']. *)
Definition initSort (items : list person) (s : sorter) : option sorter :=
  if bool_decide (items = []) then None
  else
    let st := Frame 1 0 (filter_truthy (idsOf items)) [] [] [] 0 0 in
    let n := Z.of_nat (length (st_arr st)) in
    let s1 := Sorter (mode s) true (cache s) (ties s) (Some st) None []
                (totalComparisonUpperBound n) (elo s) (eloIntensity s)
                (clip_index 0 (shared_maps s)) None in
    Some (pushUndoSnapshot s1).

(** Where the coroutine [continueSort] stands between two steps: at the head
    of the outer [while (st.width < N)] or of the inner
    [while (st.li < st.L.length && st.rj < st.R.length)]. *)
Inductive pc := AtOuter | AtInner.

Inductive step_result :=
| Continue (p : pc) (s : sorter) (os : list outcome)
| Finished (s : sorter)
| Waiting (s : sorter) (a b : person)
| Threw (s : sorter)
| Returned (s : sorter).

Definition frame_set_cursor (i : nat) (f : frame) : frame :=
  Frame (st_width f) i (st_arr f) (st_L f) (st_R f) (st_out f) (st_li f) (st_rj f).

(** The tail of one merge: ["Append remaining"], the splice of [out] into
    [arr], the reset of the frame and [st.i += 2 * st.width]. *)
Definition finish_block (st : frame) (s : sorter) : sorter :=
  let out1 := st_out st ++ drop (st_li st) (st_L st) in
  let li1 := Nat.max (st_li st) (length (st_L st)) in
  let out2 := out1 ++ drop (st_rj st) (st_R st) in
  let rj1 := Nat.max (st_rj st) (length (st_R st)) in
  (* the pushes went to the array [out], which a snapshot may hold too *)
  let s1 := write_through
              (set_stack (Some (Frame (st_width st) (st_i st) (st_arr st)
                                  (st_L st) (st_R st) out2 li1 rj1)) s) in
  let segLen := (length out2 + (length (st_L st) - li1) + (length (st_R st) - rj1))%nat in
  let before := slice 0 (st_i st) (st_arr st) in
  let after := drop (st_i st + segLen) (st_arr st) in
  set_fresh_frame
    (Frame (st_width st) (st_i st + 2 * st_width st) (before ++ out2 ++ after)
       [] [] [] 0 0) s1.

(** One iteration of the outer loop, up to the head of the inner loop. *)
Definition outer_step (N : nat) (idMap : gmap string person)
    (st : frame) (s : sorter) (os : list outcome) : step_result :=
  if negb (st_width st <? N)%nat then
    (* Done *)
    Finished (Sorter (mode s) false (cache s) (ties s) None
                (Some (objsOf (st_arr st) idMap)) (undo s) (totalComparisons s)
                (elo s) (eloIntensity s) (shared_maps s) (shared_arrays s))
  else if (length (st_arr st) <=? st_i st)%nat then
    Continue AtOuter
      (set_stack (Some (Frame (st_width st * 2) 0 (st_arr st) (st_L st) (st_R st)
                          (st_out st) (st_li st) (st_rj st))) s) os
  else
    (* Prepare L,R if empty *)
    let '(st1, s1) :=
      if bool_decide (st_L st = [] ∧ st_R st = []) then
        let arrObjs := objsOf (st_arr st) idMap in
        let l := slice (st_i st) (st_i st + st_width st) arrObjs in
        let r := slice (st_i st + st_width st) (st_i st + 2 * st_width st) arrObjs in
        let st1 := Frame (st_width st) (st_i st) (st_arr st)
                     (filter_truthy (idsOf l)) (filter_truthy (idsOf r)) [] 0 0 in
        (st1, set_fresh_frame st1 s)
      else (st, s) in
    if bool_decide (st_R st1 = []) then
      (* odd tail: fast-forward this block *)
      let merged := st_L st1 in
      let before := slice 0 (st_i st1) (st_arr st1) in
      let after := drop (st_i st1 + length (st_L st1)) (st_arr st1) in
      Continue AtOuter
        (set_fresh_frame
           (Frame (st_width st1) (st_i st1 + 2 * st_width st1)
              (before ++ merged ++ after) [] [] [] 0 0) s1) os
    else Continue AtInner s1 os.

(** The rotation of a skipped pair: [L.splice(li, 1)] followed by [L.push]. *)
Definition rotate {A} (ix : nat) (l : list A) : list A :=
  match l !! ix with
  | Some x => delete ix l ++ [x]
  | None => l
  end.

(** What follows [await prefer(a, b)] in the inner loop. *)
Definition after_prefer (st : frame) (res : pref) (s : sorter) (os : list outcome)
  : step_result :=
  match res with
  | PBack =>
      let '(s1, ok) := restoreFromUndo s in
      if ok then
        (* Object.assign(st, state.sorter.stack); state.sorter.stack = st *)
        let st1 := match stack s1 with Some f => f | None => st end in
        Continue AtInner (set_stack (Some st1) s1) os
      else Continue AtInner s1 os
  | PNull =>
      let lRem := (length (st_L st) - st_li st)%nat in
      let rRem := (length (st_R st) - st_rj st)%nat in
      if bool_decide (lRem = 1%nat ∧ rRem = 1%nat) then
        Continue AtInner
          (write_through
             (set_stack (Some (Frame (st_width st) (st_i st) (st_arr st) (st_L st) (st_R st)
                                 (st_out st ++ option_list (st_L st !! st_li st))
                                 (S (st_li st)) (st_rj st))) s)) os
      else
        Continue AtInner
          (write_through
             (set_stack (Some (Frame (st_width st) (st_i st) (st_arr st)
                                 (rotate (st_li st) (st_L st)) (rotate (st_rj st) (st_R st))
                                 (st_out st) (st_li st) (st_rj st))) s)) os
  | PNum v =>
      if 0 <=? v then
        Continue AtInner
          (write_through
             (set_stack (Some (Frame (st_width st) (st_i st) (st_arr st) (st_L st) (st_R st)
                                 (st_out st ++ option_list (st_L st !! st_li st))
                                 (S (st_li st)) (st_rj st))) s)) os
      else
        Continue AtInner
          (write_through
             (set_stack (Some (Frame (st_width st) (st_i st) (st_arr st) (st_L st) (st_R st)
                                 (st_out st ++ option_list (st_R st !! st_rj st))
                                 (st_li st) (S (st_rj st)))) s)) os
  end.

(** [estimate(); pushUndoSnapshot(); let res = await prefer(a, b); ...].  The
    snapshot is taken of the frame as it stands, before the pair is shown. *)
Definition ask (st : frame) (a b : person) (s : sorter) (os : list outcome) : step_result :=
  let s1 := pushUndoSnapshot (set_stack (Some st) s) in
  match prefer a b s1 os with
  | None => Waiting s1 a b
  | Some (res, s2, os') => after_prefer st res s2 os'
  end.

Definition frame_set_li (k : nat) (f : frame) : frame :=
  Frame (st_width f) (st_i f) (st_arr f) (st_L f) (st_R f) (st_out f) k (st_rj f).

Definition frame_set_rj (k : nat) (f : frame) : frame :=
  Frame (st_width f) (st_i f) (st_arr f) (st_L f) (st_R f) (st_out f) (st_li f) k.

(** One iteration of the inner loop, or its exit into the tail of the merge. *)
Definition inner_step (idMap : gmap string person)
    (st : frame) (s : sorter) (os : list outcome) : step_result :=
  if (st_li st <? length (st_L st))%nat && (st_rj st <? length (st_R st))%nat then
    match (st_L st !! st_li st) ≫= (λ x, idMap !! x) with
    | None => Continue AtInner (set_stack (Some (frame_set_li (S (st_li st)) st)) s) os
    | Some a =>
        match (st_R st !! st_rj st) ≫= (λ x, idMap !! x) with
        | None => Continue AtInner (set_stack (Some (frame_set_rj (S (st_rj st)) st)) s) os
        | Some b =>
            if bool_decide (id a = id b) then
              (* self-match: advance the right index *)
              let st1 := frame_set_rj (S (st_rj st)) st in
              if (length (st_R st1) <=? st_rj st1)%nat then
                Continue AtOuter (finish_block st1 (set_stack (Some st1) s)) os
              else
                match (st_R st1 !! st_rj st1) ≫= (λ x, idMap !! x) with
                | Some b' => ask st1 a b' s os
                | None => Threw (pushUndoSnapshot (set_stack (Some st1) s))
                end
            else ask st a b s os
        end
    end
  else Continue AtOuter (finish_block st s) os.

Definition step (N : nat) (idMap : gmap string person)
    (p : pc) (s : sorter) (os : list outcome) : step_result :=
  match stack s with
  | None => Returned s
  | Some st =>
      match p with
      | AtOuter => outer_step N idMap st s os
      | AtInner => inner_step idMap st s os
      end
  end.

(** The loop of [continueSort], for at most [fuel] iterations: [Continue] is
    returned when the fuel is used up before the driver stops. *)
Fixpoint run (fuel : nat) (N : nat) (idMap : gmap string person)
    (p : pc) (s : sorter) (os : list outcome) : step_result :=
  match fuel with
  | O => Continue p s os
  | S fuel' =>
      match step N idMap p s os with
      | Continue p' s' os' => run fuel' N idMap p' s' os'
      | r => r
      end
  end.

(** [continueSort()] on the candidates [data] (the array [state.data]). *)
Definition continueSort (fuel : nat) (data : list person) (s : sorter)
    (os : list outcome) : step_result :=
  match stack s with
  | None => Returned s
  | Some st => run fuel (length (st_arr st)) (idMapOf data) AtOuter s os
  end.

(** [computeProvisionalRanking()]: the ranking shown while the sort runs,
    read off the frame; the result of the sort once the frame is gone. *)
Definition computeProvisionalRanking (data : list person) (s : sorter) : list person :=
  match stack s with
  | None => default [] (result s)
  | Some st =>
      let N := length (st_arr st) in
      let blockEnd := Nat.min N (st_i st + 2 * st_width st) in
      let before := slice 0 (st_i st) (st_arr st) in
      let after := drop blockEnd (st_arr st) in
      let inBlock := st_out st ++ drop (st_li st) (st_L st) ++ drop (st_rj st) (st_R st) in
      objsOf (before ++ inBlock ++ after) (idMapOf data)
  end.

(** ** ELO mode: initialisation *)

(** [Math.round(q)]: the nearest integer, halves rounded up. *)
Definition js_round (q : Q) : Z := Qfloor (q + (1 # 2))%Q.

Definition estimateEloPairTarget (n : Z) : Z :=
  if n <=? 1 then 0
  else
    let h := ceil_log2 n in
    Z.max (n - 1) (js_round ((3 # 2) * inject_Z n * inject_Z h)%Q).

(** The [multiplier] and [kFactor] chosen for an intensity.  The decimal
    constants 0.6, 1.0 and 1.5 are the rationals they denote. *)
Definition intensity_settings (intensity : string) : Q * Z :=
  if bool_decide (intensity = "fast") then ((6 # 10)%Q, 40)
  else if bool_decide (intensity = "balanced") then (1%Q, 32)
  else if bool_decide (intensity = "accurate") then ((3 # 2)%Q, 24)
  else (1%Q, 32).

(** [Math.max(0, Math.round((multiplier - 1) * basePairs))] *)
Definition extraPairs (multiplier : Q) (basePairs : Z) : Z :=
  Z.max 0 (js_round ((multiplier - 1) * inject_Z basePairs)%Q).

(** The budget as the specification words it: the base value scaled by the
    multiplier of the intensity. *)
Definition scaledPairTarget (multiplier : Q) (basePairs : Z) : Z :=
  js_round (multiplier * inject_Z basePairs)%Q.

(** The pairs [[shuffled[i], shuffled[i + 1]]] of one seeding cycle. *)
Fixpoint adjacent_pairs (l : list string) : list (string * string) :=
  match l with
  | x :: (y :: _) as t => (x, y) :: adjacent_pairs t
  | _ => []
  end.

(** [initElo(items)] with [data = state.data] and [seed = state.seed];
    [None] is the thrown ['No items to sort']. *)
Definition initElo (data : list person) (seed : Z) (items : list person) (s : sorter)
  : option sorter :=
  if bool_decide (items = []) then None
  else
    let ids := idsOf items in
    let basePairs := estimateEloPairTarget (Z.of_nat (length ids)) in
    let intensity := if truthy (eloIntensity s) then eloIntensity s else "balanced" in
    let '(multiplier, k) := intensity_settings intensity in
    let extra := extraPairs multiplier basePairs in
    let rs : gmap string Q := foldl (λ m x, <[x := inject_Z 1000]> m) ∅ ids in
    let hs : gmap string (list Z) := foldl (λ m x, <[x := [1000]]> m) ∅ ids in
    let cycles := Z.max 2 (ceil_log2 (Z.max 2 (Z.of_nat (length ids)))) in
    let q := flat_map
               (λ c, adjacent_pairs
                       (filter (λ x, is_Some (rs !! x))
                          (id <$> seededShuffle data (seed + Z.of_nat c))))
               (seq 0 (Z.to_nat cycles)) in
    let e := Elo rs k 0 (basePairs + extra) q hs in
    Some (pushUndoSnapshot
            (Sorter "elo" true ∅ ∅ None None [] (basePairs + extra) (Some e)
               (eloIntensity s) None None)).

(** ** Tier cut-off wizard *)

Definition CUTOFF_TIERS : list string := ["SS"; "S"; "A"; "B"; "C"; "D"; "F"].

(** [cutState] *)
Record cut_state := CutState {
  rankIds : list string; pos : nat; chosen : gmap string Z; cursor : Z }.

(** [startCutoffs()] on the ids of [state.sorter.result]; [None] when there is
    no ranking. *)
Definition startCutoffs (ranking : list string) : option cut_state :=
  if bool_decide (ranking = []) then None
  else Some (CutState ranking 0 ∅ 0).

(** [CUTOFF_TIERS[pos]]; a position outside the array reads [undefined], which
    as a property name is the string ["undefined"]. *)
Definition tier_at (p : nat) : string := default "undefined" (CUTOFF_TIERS !! p).

(** [cutState.chosen[t] || 0] *)
Definition chosen_or_0 (c : gmap string Z) (t : string) : Z := default 0 (c !! t).

(** [applyCut(value)]: [value] is the number [Number(value || 0)] truncated to
    an integer (0 when it is not a number), which [| 0] wraps to 32 bits. *)
Definition applyCut (value : Z) (cs : cut_state) : cut_state :=
  let tier := tier_at (pos cs) in
  let remaining := Z.of_nat (length (rankIds cs)) - cursor cs in
  let count := Z.max 0 (Z.min remaining (to_int32 value)) in
  CutState (rankIds cs) (pos cs) (<[tier := count]> (chosen cs)) (cursor cs).

Definition nextCut (value : Z) (cs : cut_state) : cut_state :=
  let cs1 := applyCut value cs in
  let tier := tier_at (pos cs1) in
  let cur := cursor cs1 + chosen_or_0 (chosen cs1) tier in
  CutState (rankIds cs1)
    (if (pos cs1 <? length CUTOFF_TIERS - 1)%nat then S (pos cs1) else pos cs1)
    (chosen cs1) cur.

Definition prevCut (cs : cut_state) : cut_state :=
  if bool_decide (pos cs = 0%nat) then cs
  else
    let prevTier := tier_at (pos cs - 1) in
    CutState (rankIds cs) (pos cs - 1) (chosen cs)
      (cursor cs - chosen_or_0 (chosen cs) prevTier).

(** The [forEach] of [applyCutoffsToTiers] over the tiers [ts], from the local
    [cursor]: the tiers filled so far and the final cursor. *)
Fixpoint fill_tiers (ids : list string) (c : gmap string Z) (ts : list string)
    (cur : nat) (tiers : gmap string (list string)) : gmap string (list string) * nat :=
  match ts with
  | [] => (tiers, cur)
  | t :: ts' =>
      let n := Z.to_nat (Z.max 0 (Z.min (Z.of_nat (length ids) - Z.of_nat cur) (chosen_or_0 c t))) in
      fill_tiers ids c ts' (cur + n) (<[t := slice cur (cur + n) ids]> tiers)
  end.

Definition empty_tiers : gmap string (list string) :=
  list_to_map ((λ t, (t, [])) <$> (CUTOFF_TIERS ++ ["Unplaced"])).

(** [applyCutoffsToTiers()]: the new [state.tiers]. *)
Definition applyCutoffsToTiers (cs : cut_state) : gmap string (list string) :=
  let ids := rankIds cs in
  let '(tiers, cur) := fill_tiers ids (chosen cs) CUTOFF_TIERS 0 empty_tiers in
  <["Unplaced" := drop cur ids]> tiers.

(** The moves of the wizard: the Next and Previous buttons. *)
Inductive cut_move := Next (value : Z) | Prev.

Definition cut_step (cs : cut_state) (m : cut_move) : cut_state :=
  match m with
  | Next v => nextCut v cs
  | Prev => prevCut cs
  end.

(** The Apply button: [applyCut(value); applyCutoffsToTiers()] *)
Definition applyButton (value : Z) (cs : cut_state) : gmap string (list string) :=
  applyCutoffsToTiers (applyCut value cs).

(** ** Elimination picker ([class PresidentialPicker]) *)

Module PresidentialPicker.

(** [PICKER_CONFIG] *)
Definition MAX_BATCH_SIZE : nat := 6.
Definition MIN_BATCH_SIZE : nat := 2.
Definition WHITTLE_DIVISOR : nat := 2.

(** The cap of [pushHistory]. *)
Definition HISTORY_LIMIT : nat := 50.

(** An entry of [this.eliminated]: [{ id, eliminatedBy }] *)
Record entry := Entry { e_id : string; eliminatedBy : list string }.

(** What [getStateSnapshot] serialises and [restoreSnapshot] reads back. *)
Record state_snapshot := StateSnapshot {
  s_eliminated : list entry; s_survived : list string; s_current : list string;
  s_evaluating : list string; s_favorites : list string;
  s_batchSize : nat; s_pickCount : nat }.

(** The fields of a picker.  [calls] counts the calls of [Math.random] made so
    far; it belongs to the runtime, not to the object, and no snapshot
    restores it. *)
Record picker := Picker {
  allItems : list person;
  eliminated : list entry; survived : list string; current : list string;
  evaluating : list string; favorites : list string;
  history : list state_snapshot; historyIndex : Z;
  batchSize : nat; pickCount : nat;
  calls : nat }.

Definition set_lists (el : list entry) (sv cu ev fa : list string) (p : picker) : picker :=
  Picker (allItems p) el sv cu ev fa (history p) (historyIndex p)
    (batchSize p) (pickCount p) (calls p).

Section WithRandom.

(** [Math.random]: the [k]-th call returns a number [r] with
    [Math.floor(r * m) = random k mod m] for the [m] it is scaled by. *)
Variable random : nat → nat.

(** [new PresidentialPicker(items)] *)
Definition create (items : list person) : picker :=
  Picker items [] [] [] [] [] [] (-1) MAX_BATCH_SIZE 0 0.

(** [[arr[i], arr[j]] = [arr[j], arr[i]]] for indices inside the array. *)
Definition swap (arr : list string) (i j : nat) : list string :=
  match arr !! i, arr !! j with
  | Some x, Some y => <[j := x]> (<[i := y]> arr)
  | _, _ => arr
  end.

(** The loop of [shuffle], entered at [i], after [k] calls of [Math.random]. *)
Fixpoint shuffle_from (i : nat) (k : nat) (arr : list string) : list string * nat :=
  match i with
  | O => (arr, k)
  | S i' => shuffle_from i' (S k) (swap arr i (random k mod (i + 1))%nat)
  end.

Definition shuffle (k : nat) (arr : list string) : list string * nat :=
  shuffle_from (length arr - 1) k arr.

(** [Math.ceil(remaining / 2)] clamped to the batch sizes. *)
Definition calculateBatchSize (remaining : nat) : nat :=
  let ideal := ((remaining + WHITTLE_DIVISOR - 1) / WHITTLE_DIVISOR)%nat in
  Nat.max MIN_BATCH_SIZE (Nat.min MAX_BATCH_SIZE ideal).

(** [entry.eliminatedBy.splice(idx, 1)] at the first occurrence of [x]. *)
Fixpoint remove_first (x : string) (l : list string) : list string :=
  match l with
  | [] => []
  | y :: l' => if bool_decide (x = y) then l' else y :: remove_first x l'
  end.

(** The loop of [removeFromEliminated], which runs from the last entry to the
    first: the entries kept and the ids restored, in the order they are
    pushed to [survived]. *)
Definition unlock_entry (favoriteId : string) (e : entry)
    (acc : list entry * list string) : list entry * list string :=
  if bool_decide (favoriteId ∈ eliminatedBy e) then
    let by' := remove_first favoriteId (eliminatedBy e) in
    if bool_decide (by' = []) then (acc.1, acc.2 ++ [e_id e])
    else (Entry (e_id e) by' :: acc.1, acc.2)
  else (e :: acc.1, acc.2).

Definition removeFromEliminated (favoriteId : string) (p : picker) : picker :=
  let '(kept, restored) := foldr (unlock_entry favoriteId) ([], []) (eliminated p) in
  let sv := survived p ++ restored in
  if bool_decide (restored = [] ∧ kept ≠ [] ∧ current p = [] ∧ sv = []) then
    (* nothing restored naturally: restore all *)
    set_lists [] (sv ++ (e_id <$> kept)) (current p) (evaluating p) (favorites p) p
  else set_lists kept sv (current p) (evaluating p) (favorites p) p.

Definition addToFavorites (x : string) (p : picker) : picker :=
  let p1 := if bool_decide (x ∈ favorites p) then p
            else set_lists (eliminated p) (survived p) (current p) (evaluating p)
                   (favorites p ++ [x]) p in
  removeFromEliminated x p1.

(** [nextRound] up to its final call of [nextBatch]. *)
Definition nextRound_prepare (p : picker) : picker :=
  let p1 := match current p, survived p with
            | [], [newFavorite] =>
                addToFavorites newFavorite
                  (set_lists (eliminated p) [] (current p) (evaluating p) (favorites p) p)
            | _, _ => p
            end in
  let '(sv, k) := shuffle (calls p1) (survived p1) in
  let cu := current p1 ++ sv in
  Picker (allItems p1) (eliminated p1) [] cu (evaluating p1) (favorites p1)
    (history p1) (historyIndex p1) (calculateBatchSize (length cu)) (pickCount p1) k.

(** [nextBatch], which calls [nextRound], which calls [nextBatch] again:
    [fuel] bounds the depth of the calls, [None] when it is not enough. *)
Fixpoint nextBatch (fuel : nat) (p : picker) : option picker :=
  match fuel with
  | O => None
  | S fuel' =>
      let p1 := if bool_decide (current p = [] ∧ survived p = [] ∧ eliminated p ≠ [])
                then set_lists [] (survived p ++ (e_id <$> eliminated p)) (current p)
                       (evaluating p) (favorites p) p
                else p in
      if (length (current p1) <? batchSize p1)%nat && (0 <? length (survived p1))%nat
      then nextBatch fuel' (nextRound_prepare p1)
      else Some (set_lists (eliminated p1) (survived p1)
                   (drop (batchSize p1) (current p1))
                   (take (batchSize p1) (current p1)) (favorites p1) p1)
  end.

Definition nextRound (fuel : nat) (p : picker) : option picker :=
  nextBatch fuel (nextRound_prepare p).

(** The call depth that always suffices (see [nextBatch_total]). *)
Definition DEPTH : nat := 2.

(** [initialize()] *)
Definition initialize (p : picker) : option picker :=
  let '(ids, k) := shuffle (calls p) (id <$> allItems p) in
  let n := calculateBatchSize (length ids) in
  nextBatch DEPTH (Picker (allItems p) [] [] ids [] [] [] (-1) n 0 k).

Definition getStateSnapshot (p : picker) : state_snapshot :=
  StateSnapshot (eliminated p) (survived p) (current p) (evaluating p) (favorites p)
    (batchSize p) (pickCount p).

Definition restoreSnapshot (s : state_snapshot) (p : picker) : picker :=
  Picker (allItems p) (s_eliminated s) (s_survived s) (s_current s) (s_evaluating s)
    (s_favorites s) (history p) (historyIndex p) (s_batchSize s) (s_pickCount s) (calls p).

Definition set_history (h : list state_snapshot) (ix : Z) (p : picker) : picker :=
  Picker (allItems p) (eliminated p) (survived p) (current p) (evaluating p)
    (favorites p) h ix (batchSize p) (pickCount p) (calls p).

Definition pushHistory (p : picker) : picker :=
  (* truncate any redo history *)
  let h0 := if historyIndex p <? Z.of_nat (length (history p)) - 1
            then slice 0 (Z.to_nat (historyIndex p + 1)) (history p)
            else history p in
  let h1 := h0 ++ [getStateSnapshot p] in
  let ix := Z.of_nat (length h1) - 1 in
  if (HISTORY_LIMIT <? length h1)%nat then set_history (drop 1 h1) (ix - 1) p
  else set_history h1 ix p.

(** [pick(pickedIds)] *)
Definition pick (pickedIds : list string) (p : picker) : option picker :=
  let p1 := pushHistory p in
  let p2 := Picker (allItems p1) (eliminated p1) (survived p1) (current p1)
              (evaluating p1) (favorites p1) (history p1) (historyIndex p1)
              (batchSize p1) (S (pickCount p1)) (calls p1) in
  let notPicked := filter (λ x, x ∉ pickedIds) (evaluating p2) in
  let totalRemaining := (length (current p2) + length (survived p2)
                         + length (evaluating p2) + length (eliminated p2))%nat in
  if bool_decide (totalRemaining = 2%nat ∧ length (evaluating p2) = 2%nat
                  ∧ length pickedIds = 1%nat) then
    (* final choice: both go to the favorites, the picked one first *)
    Some (set_lists (eliminated p2) (survived p2) (current p2) []
            (favorites p2 ++ option_list (head pickedIds) ++ option_list (head notPicked)) p2)
  else
    nextBatch DEPTH
      (set_lists (eliminated p2 ++ ((λ x, Entry x pickedIds) <$> notPicked))
         (survived p2 ++ pickedIds) (current p2) [] (favorites p2) p2).

(** [pass()] *)
Definition pass (p : picker) : option picker :=
  let p1 := pushHistory p in
  nextBatch DEPTH
    (set_lists (eliminated p1) (survived p1 ++ evaluating p1) (current p1) []
       (favorites p1) p1).

(** [undo()]: [None] is the exception of [JSON.parse] on a missing entry. *)
Definition undo (p : picker) : option picker :=
  if negb (0 <=? historyIndex p) then Some p
  else
    let h := if historyIndex p =? Z.of_nat (length (history p)) - 1
             then history p ++ [getStateSnapshot p] else history p in
    match h !! Z.to_nat (historyIndex p) with
    | Some s => Some (set_history h (historyIndex p - 1) (restoreSnapshot s p))
    | None => None
    end.

(** [canUndo()] and [canRedo()] *)
Definition canUndo (p : picker) : bool := 0 <=? historyIndex p.

Definition canRedo (p : picker) : bool :=
  historyIndex p <? Z.of_nat (length (history p)) - 1.

(** [redo()]: the index is advanced, then the entry after the new index is
    restored.  [None] is the exception of [JSON.parse] on a missing entry. *)
Definition redo (p : picker) : option picker :=
  if negb (canRedo p) then Some p
  else
    let ix := historyIndex p + 1 in
    match (if 0 <=? ix + 1 then history p !! Z.to_nat (ix + 1) else None) with
    | Some s => Some (set_history (history p) ix (restoreSnapshot s p))
    | None => None
    end.

(** [getRemainingCount()] *)
Definition getRemainingCount (p : picker) : nat :=
  length (current p) + length (survived p) + length (evaluating p)
  + length (eliminated p).


(** [reorderFavorites(newOrder)] *)
Definition reorderFavorites (newOrder : list string) (p : picker) : picker :=
  set_lists (eliminated p) (survived p) (current p) (evaluating p)
    (filter (λ x, x ∈ favorites p) newOrder) p.

(** The five collections of a picker, one after the other. *)
Definition pool (p : picker) : list string :=
  current p ++ survived p ++ evaluating p ++ (e_id <$> eliminated p) ++ favorites p.

Definition snapshot_pool (s : state_snapshot) : list string :=
  s_current s ++ s_survived s ++ s_evaluating s ++ (e_id <$> s_eliminated s)
  ++ s_favorites s.

(** Every id of the candidates is in exactly one collection, once. *)
Definition partitioned (items : list person) (p : picker) : Prop :=
  pool p ≡ₚ id <$> items.

(** The same for every snapshot kept in the history. *)
Definition history_partitioned (items : list person) (p : picker) : Prop :=
  Forall (λ s, snapshot_pool s ≡ₚ id <$> items) (history p).

(** The history index points into the history, below the cap. *)
Definition history_ok (p : picker) : Prop :=
  -1 <= historyIndex p < Z.of_nat (length (history p))
  ∧ historyIndex p < Z.of_nat HISTORY_LIMIT
  ∧ (length (history p) <= HISTORY_LIMIT + 1)%nat.

(** What a run on the candidates [items] keeps true. *)
Definition picker_inv (items : list person) (p : picker) : Prop :=
  partitioned items p ∧ history_partitioned items p ∧ history_ok p.

(** The states of a run: [initialize] followed by picks (of ids of the batch
    shown, each once), passes and undos. *)
Inductive reachable (items : list person) : picker → Prop :=
| reach_initialize p :
    initialize (create items) = Some p → reachable items p
| reach_pick p pickedIds p' :
    reachable items p → NoDup pickedIds → pickedIds ⊆ evaluating p →
    pick pickedIds p = Some p' → reachable items p'
| reach_pass p p' :
    reachable items p → pass p = Some p' → reachable items p'
| reach_undo p p' :
    reachable items p → undo p = Some p' → reachable items p'.

(** The same as a program: the operations the user can trigger, a pick being
    accepted only for ids of the batch shown, each taken once. *)
Inductive operation := Pick (pickedIds : list string) | Pass | Undo.

Definition apply_operation (o : operation) (p : picker) : option picker :=
  match o with
  | Pick pickedIds =>
      if bool_decide (NoDup pickedIds ∧ pickedIds ⊆ evaluating p)
      then pick pickedIds p else None
  | Pass => pass p
  | Undo => undo p
  end.

Fixpoint run_operations (ops : list operation) (p : picker) : option picker :=
  match ops with
  | [] => Some p
  | o :: ops' => p' ← apply_operation o p; run_operations ops' p'
  end.

(** A picker on [items], initialised, then operated by [ops]. *)
Definition play (items : list person) (ops : list operation) : option picker :=
  initialize (create items) ≫= run_operations ops.

End WithRandom.

End PresidentialPicker.

(** ** The driver from a fresh start, and the scenarios of the specification *)

(** A fresh run as [startSorting] makes it on the candidates [items]:
    [state = defaultState(); state.data = items; initSort(items);
    continueSort()], with the comparator answering [os] in order. *)
Definition mergeSortDriver (fuel : nat) (items : list person) (os : list outcome)
  : option step_result :=
  s ← initSort items defaultSorter;
  Some (continueSort fuel items s os).

(** [startSorting()] on the loaded data [fresh]: the entries with an id are
    kept as [state.data], shuffled, and sorted from a fresh state.  [None] is
    a thrown error ('No valid candidates available'). *)
Definition startSorting (fuel : nat) (fresh : list person) (seed : Z)
    (os : list outcome) : option step_result :=
  let source := filter (λ p, truthy (id p) = true) fresh in
  if bool_decide (source = []) then None
  else
    s ← initSort (seededShuffle source seed) defaultSorter;
    Some (continueSort fuel source s os).

(** The ids of the final ranking [state.sorter.result]. *)
Definition ranking (s : sorter) : list string := id <$> default [] (result s).

(** What the undo round trip compares: the frame, the cache and the ties. *)
Definition driver_state (s : sorter) : option frame * gmap string Z * gmap string bool :=
  (stack s, cache s, ties s).

(** What a run shows from outside: the ranking and the number of judged pairs
    when the driver has finished, the pair asked for and the driver state
    when it waits for a judgment. *)
Definition finished_ranking (r : option step_result) : option (list string) :=
  match r with
  | Some (Finished s) => Some (ranking s)
  | _ => None
  end.

Definition finished_pairs (r : option step_result) : option nat :=
  match r with
  | Some (Finished s) => Some (countUniqueCachePairs (cache s))
  | _ => None
  end.

Definition awaited_pair (r : option step_result) : option (string * string) :=
  match r with
  | Some (Waiting s a b) => Some (id a, id b)
  | _ => None
  end.

Definition awaiting_state (r : option step_result)
  : option (option frame * gmap string Z * gmap string bool) :=
  match r with
  | Some (Waiting s a b) => Some (driver_state s)
  | _ => None
  end.

Definition pA : person := Person "A" "Candidate A".
Definition pB : person := Person "B" "Candidate B".
Definition pC : person := Person "C" "Candidate C".
Definition pD : person := Person "D" "Candidate D".
Definition pE : person := Person "E" "Candidate E".

Definition abcd : list person := [pA; pB; pC; pD].
Definition abcde : list person := [pA; pB; pC; pD; pE].

(** [state.sorter] with the intensity selected in the welcome screen. *)
Definition with_intensity (intensity : string) (s : sorter) : sorter :=
  Sorter (mode s) (active s) (cache s) (ties s) (stack s) (result s) (undo s)
    (totalComparisons s) (elo s) intensity (shared_maps s) (shared_arrays s).

(** ** Vocabulary of the tier wizard properties *)

(** The sum of the counts chosen for the tiers [ts]. *)
Fixpoint chosen_sum (c : gmap string Z) (ts : list string) : Z :=
  match ts with
  | [] => 0
  | t :: ts' => chosen_or_0 c t + chosen_sum c ts'
  end.

(** What the wizard keeps true: the position is a tier, no count is
    negative, and the cursor lies between the counts of the tiers already
    passed and the length of the ranking. *)
Definition cut_inv (cs : cut_state) : Prop :=
  (pos cs < length CUTOFF_TIERS)%nat
  ∧ (∀ t, 0 <= chosen_or_0 (chosen cs) t)
  ∧ chosen_sum (chosen cs) (take (pos cs) CUTOFF_TIERS) <= cursor cs
  ∧ cursor cs <= Z.of_nat (length (rankIds cs)).

(** The ids of a tier of [state.tiers]. *)
Definition tier_ids (tiers : gmap string (list string)) (t : string) : list string :=
  default [] (tiers !! t).

Definition TIER_ORDER : list string := CUTOFF_TIERS ++ ["Unplaced"].

(** ** Vocabulary of the undo properties *)

(** A stack bounded at [cap] entries that discards its oldest entries first:
    what pushing [x] on [old] leaves. *)
Definition bounded_push {A} (cap : nat) (old : list A) (x : A) : list A :=
  drop (length (old ++ [x]) - cap) (old ++ [x]).

(** The sorter state a run stopped in. *)
Definition result_state (r : step_result) : sorter :=
  match r with
  | Continue _ s _ | Finished s | Waiting s _ _ | Threw s | Returned s => s
  end.

(** ** A run of the picker used as an example *)

(** A stand-in for [Math.random]. *)
Definition demo_random (k : nat) : nat := (k * 7 + 3)%nat.

Definition demo_items : list person :=
  [Person "a" "A"; Person "b" "B"; Person "c" "C"; Person "d" "D"; Person "e" "E"].

(** Fifty-one passes in a row on two candidates. *)
Definition two_items : list person := [Person "a" "A"; Person "b" "B"].

Definition after_passes (n : nat) : option PresidentialPicker.picker :=
  PresidentialPicker.play demo_random two_items (replicate n PresidentialPicker.Pass).

(** ** Vocabulary of the cache properties *)

(** Whether a string contains the separator ['|'] of the cache keys. *)
Fixpoint has_bar (s : string) : bool :=
  match s with
  | EmptyString => false
  | String c s' => Ascii.eqb c "|"%char || has_bar s'
  end.

Definition bar_free (s : string) : Prop := has_bar s = false.

(** The key of the ids [x] and [y], as [keyFor] builds it. *)
Definition key (x y : string) : string := x +:+ "|" +:+ y.

(** The cache and the ties store every judged pair in both directions: the
    values are 1, 0 or -1, the two directions are inverses of each other, and
    a tie is in the tie set under both keys. *)
Definition symmetric_cache (c : gmap string Z) (t : gmap string bool) : Prop :=
  ∀ x y v, bar_free x → bar_free y →
    c !! key x y = Some v →
    (v = 1 ∨ v = 0 ∨ v = -1)
    ∧ c !! key y x = Some (invert v)
    ∧ (v = 0 → t !! key x y = Some true ∧ t !! key y x = Some true).

(** The live maps and those of every snapshot are symmetric. *)
Definition cache_inv (s : sorter) : Prop :=
  symmetric_cache (cache s) (ties s)
  ∧ Forall (λ sn, symmetric_cache (snap_cache sn) (snap_ties sn)) (undo s).

(** What the drivers do to the cache: ask for a judgment on a pair, push a
    snapshot, restore one. *)
Inductive cache_event :=
| Judge (a b : person) (o : outcome)
| PushSnapshot
| Restore.

Definition cache_step (s : sorter) (e : cache_event) : sorter :=
  match e with
  | Judge a b o =>
      match prefer a b s [o] with
      | Some (_, s', _) => s'
      | None => s
      end
  | PushSnapshot => pushUndoSnapshot s
  | Restore => (restoreFromUndo s).1
  end.

(** A judgment is asked on two candidates with distinct ids without ['|']. *)
Definition proper_event (e : cache_event) : Prop :=
  match e with
  | Judge a b _ => bar_free (id a) ∧ bar_free (id b) ∧ id a ≠ id b
  | _ => True
  end.

(** ** Vocabulary of the merge sort properties *)

(** What the frame satisfies at the two loop heads, for the candidate ids
    [ids]: [arr] is a permutation of the ids and the width is positive; at
    the outer head no merge is open; at the inner head [arr] is
    [pre ++ blk ++ post] with [pre] of length [i] and [blk] the block of
    [2 * width] entries (fewer at the end of [arr]), and the output so far
    with what remains of [L] and [R] is a permutation of the block [blk]. *)
Definition frame_inv (ids : list string) (p : pc) (st : frame) : Prop :=
  st_arr st ≡ₚ ids ∧ (1 <= st_width st)%nat
  ∧ match p with
    | AtOuter =>
        st_L st = [] ∧ st_R st = [] ∧ st_out st = []
    | AtInner =>
        (st_li st <= length (st_L st))%nat ∧ (st_rj st <= length (st_R st))%nat
        ∧ ∃ pre blk post,
            st_arr st = pre ++ blk ++ post ∧ length pre = st_i st
            ∧ length blk = Nat.min (2 * st_width st) (length ids - st_i st)
            ∧ st_out st ++ drop (st_li st) (st_L st) ++ drop (st_rj st) (st_R st) ≡ₚ blk
    end.

(** A bound on the number of loop iterations left, for [N] candidates. *)
Definition iterations_left (N : nat) (p : pc) (st : frame) : nat :=
  ((N - st_width st) * (3 * N + 2)
   + match p with
     | AtOuter => 3 * (N - st_i st) + 1
     | AtInner =>
         3 * (N - (st_i st + 2 * st_width st)) + 2
         + ((length (st_L st) - st_li st) + (length (st_R st) - st_rj st))
     end)%nat.

(** Judgments that always suffice for [n] candidates. *)
Definition enough_judgments (n : nat) : nat := (3 * n * n + 2 * n)%nat.

(** The outcomes that are judgments: everything but a skip. *)
Definition judgments (os : list outcome) : list outcome :=
  filter (λ o, o ≠ Skip) os.

(** ** Loading a saved state *)

(** [s.sorter.stack] as [JSON.parse] delivers it from storage: arrays of
    strings and integer cursors that nothing constrains yet. *)
Record saved_frame := SavedFrame {
  sv_width : Z; sv_i : Z; sv_arr : list string;
  sv_L : list string; sv_R : list string; sv_out : list string;
  sv_li : Z; sv_rj : Z }.

(** The part of [sanitizeState] that repairs the frame, for the candidates
    [data] (a non-empty array, cleaned by [cleanArrayLike] before):
    [fixIdList] keeps the known ids, the cursors are clamped, and a width
    that is 0 after [| 0] becomes 1. *)
Definition sanitizeStack (data : list person) (f : saved_frame) : frame :=
  let fixIdList := filter (λ x, x ∈ id <$> data) in
  let arr := fixIdList (sv_arr f) in
  let l := fixIdList (sv_L f) in
  let r := fixIdList (sv_R f) in
  let clamp v n := Z.to_nat (Z.max 0 (Z.min (to_int32 v) (Z.of_nat n))) in
  let w := to_int32 (sv_width f) in
  Frame (Z.to_nat (Z.max 1 (if w =? 0 then 1 else w)))
    (clamp (sv_i f) (length arr)) arr l r (fixIdList (sv_out f))
    (clamp (sv_li f) (length l)) (clamp (sv_rj f) (length r)).

(** The frame as [saveState] writes it with [JSON.stringify]. *)
Definition saved (st : frame) : saved_frame :=
  SavedFrame (Z.of_nat (st_width st)) (Z.of_nat (st_i st)) (st_arr st)
    (st_L st) (st_R st) (st_out st) (Z.of_nat (st_li st)) (Z.of_nat (st_rj st)).

(** ** The rank numbers of a displayed ranking *)

(** [!!(state.sorter.ties[prev|p] || state.sorter.ties[p|prev])] *)
Definition isTie (ties : gmap string bool) (prev p : person) : bool :=
  default false (ties !! keyFor prev p) || default false (ties !! keyFor p prev).

(** The loop of [renderResults] and [renderLiveRanking] from index [i] on,
    [prev] being the entry before and [rank] its number: the numbers
    printed. *)
Fixpoint rank_from (ties : gmap string bool) (prev : person) (rank i : nat)
    (l : list person) : list nat :=
  match l with
  | [] => []
  | p :: l' =>
      let rank' := if isTie ties prev p then rank else (i + 1)%nat in
      rank' :: rank_from ties p rank' (S i) l'
  end.

Definition rankNumbers (ties : gmap string bool) (l : list person) : list nat :=
  match l with
  | [] => []
  | p :: l' => 1%nat :: rank_from ties p 1 1 l'
  end.

(** ** Vocabulary of the further tier wizard properties *)

(** The moves the buttons allow: Next is hidden on the last tier (Previous
    on the first tier is disabled, and [prevCut] does nothing there). *)
Fixpoint moves_enabled (cs : cut_state) (ms : list cut_move) : bool :=
  match ms with
  | [] => true
  | m :: ms' =>
      match m with
      | Next _ => (pos cs <? length CUTOFF_TIERS - 1)%nat
      | Prev => true
      end && moves_enabled (cut_step cs m) ms'
  end.

(** The cursor is exactly the sum of the counts of the tiers passed. *)
Definition cut_exact (cs : cut_state) : Prop :=
  cursor cs = chosen_sum (chosen cs) (take (pos cs) CUTOFF_TIERS).

(** * Verification *)

(** ** The seeded shuffle *)

Lemma to_int32_range x : -2147483648 <= to_int32 x < 2147483648.
Proof.
  unfold to_int32, two32.
  pose proof (Z.mod_pos_bound (x + 2147483648) 4294967296 ltac:(lia)). lia.
Qed.

Lemma rand_next_range state : -2147483648 <= (rand_next state).2 < 2147483648.
Proof.
  unfold rand_next. cbn [snd].
  change (to_int32 4294967295) with (-1). rewrite Z.land_m1_r.
  apply to_int32_range.
Qed.

(** The bound [2 + Math.floor(rand() * 3)] never exceeds 3. *)
Lemma round_bound_le_3 state : 2 + floor_scaled (rand_next state).2 3 <= 3.
Proof.
  pose proof (rand_next_range state) as Hr. unfold floor_scaled, two32.
  assert ((rand_next state).2 * 3 / 4294967296 < 2) by (apply Z.div_lt_upper_bound; lia).
  assert ((rand_next state).2 * 3 / 4294967296 <= 1) by lia. lia.
Qed.

(** The outer loop of the shuffle stops within four tests of its condition:
    any larger bound on the number of tests gives the same array. *)
Lemma shuffle_rounds_fuel {A} (d k1 k2 : nat) (n state : Z) (a : list A) :
  3 - n < Z.of_nat d → (d <= k1)%nat → (d <= k2)%nat →
  shuffle_rounds k1 n state a = shuffle_rounds k2 n state a.
Proof.
  revert k1 k2 n state a. induction d as [|d IH]; intros k1 k2 n state a Hn H1 H2.
  - pose proof (round_bound_le_3 state) as Hb.
    destruct k1 as [|k1], k2 as [|k2]; cbn [shuffle_rounds]; try reflexivity;
      destruct (rand_next state) as [st' r]; cbn [snd] in Hb;
      destruct (Z.ltb_spec n (2 + floor_scaled r 3)); try lia; reflexivity.
  - destruct k1 as [|k1]; [lia|]. destruct k2 as [|k2]; [lia|].
    cbn [shuffle_rounds]. destruct (rand_next state) as [st' r].
    destruct (n <? 2 + floor_scaled r 3); [|reflexivity].
    destruct (shuffle_pass (length a - 1) st' a) as [st'' a'].
    apply IH; lia.
Qed.

Lemma seededShuffle_enough_tests (k : nat) (array : list person) (seed : Z) :
  (4 <= k)%nat →
  shuffle_rounds k 0 (seed_state None) (filter (λ v, truthy (id v) = true) array)
  = seededShuffle array seed.
Proof. intros Hk. unfold seededShuffle. apply (shuffle_rounds_fuel 4); lia. Qed.

(** [seededRandom(seed)] started without an argument is in state 1. *)
Lemma seededRandom_undefined : seed_state None = 1.
Proof. reflexivity. Qed.

(** C10. [seededShuffle(array, seed)] does not depend on [seed]: the generator
    is created by [seededRandom()] with no argument, hence always in the same
    state 1, so two calls on the same array with seeds [s1] and [s2] return
    the same array, the one the generator started in state 1 produces. *)
Theorem seededShuffle_ignores_seed (array : list person) (s1 s2 : Z) :
  seededShuffle array s1 = seededShuffle array s2
  ∧ seededShuffle array s1
    = shuffle_rounds 4 0 1 (filter (λ v, truthy (id v) = true) array).
Proof. split; reflexivity. Qed.

(** The seeds 1337 and 7 on five candidates. *)
Example seededShuffle_five :
  let ps := [Person "a" "A"; Person "b" "B"; Person "c" "C"; Person "d" "D"; Person "e" "E"] in
  id <$> seededShuffle ps 1337 = ["b"; "c"; "a"; "e"; "d"]
  ∧ id <$> seededShuffle ps 7 = ["b"; "c"; "a"; "e"; "d"].
Proof. split; vm_compute; reflexivity. Qed.

(** ** ELO initialisation: the pair budget *)

(** Equations between the fractions met here, by cross-multiplication. *)
Ltac solve_qeq :=
  unfold Qeq, Qminus, Qplus, Qmult, Qopp, inject_Z; cbn [Qnum Qden];
  rewrite ?Pos2Z.inj_mul; first [ring | lia].

Lemma js_round_frac (q : Q) (n : Z) (d : positive) :
  (q == n # d)%Q → js_round q = (2 * n + Zpos d) / (2 * Zpos d).
Proof.
  intros Hq. unfold js_round.
  assert (Heq : (q + (1 # 2) == (2 * n + Zpos d) # (2 * d))%Q).
  { rewrite Hq. unfold Qeq, Qplus. cbn [Qnum Qden]. lia. }
  rewrite (Qfloor_comp _ _ Heq). reflexivity.
Qed.

Lemma extraPairs_fast (b : Z) : 0 <= b → extraPairs (6 # 10) b = 0.
Proof.
  intros Hb. unfold extraPairs.
  rewrite (js_round_frac _ (-4 * b) 10).
  - assert ((2 * (-4 * b) + 10) / (2 * 10) <= 0); [|lia].
    apply Z.lt_succ_r, Z.div_lt_upper_bound; lia.
  - solve_qeq.
Qed.

Lemma extraPairs_balanced (b : Z) : extraPairs 1 b = 0.
Proof.
  unfold extraPairs. rewrite (js_round_frac _ 0 1); [reflexivity|].
  solve_qeq.
Qed.

Lemma extraPairs_accurate (b : Z) :
  0 <= b → b + extraPairs (3 # 2) b = scaledPairTarget (3 # 2) b.
Proof.
  intros Hb. unfold extraPairs, scaledPairTarget.
  rewrite (js_round_frac (((3 # 2) - 1) * inject_Z b)%Q b 2),
          (js_round_frac ((3 # 2) * inject_Z b)%Q (3 * b) 2).
  - change (2 * 2)%Z with 4.
    assert (0 <= (2 * b + 2) / 4) by (apply Z.div_pos; lia).
    rewrite Z.max_r by lia.
    replace (2 * (3 * b) + 2) with ((2 * b + 2) + b * 4) by lia.
    rewrite Z.div_add by lia. lia.
  - solve_qeq.
  - solve_qeq.
Qed.

Lemma scaledPairTarget_fast_lt (b : Z) : 2 <= b → scaledPairTarget (6 # 10) b < b.
Proof.
  intros Hb. unfold scaledPairTarget.
  rewrite (js_round_frac _ (6 * b) 10).
  - apply Z.div_lt_upper_bound; lia.
  - solve_qeq.
Qed.

Lemma estimateEloPairTarget_ge_3 (n : Z) : 2 <= n → 3 <= estimateEloPairTarget n.
Proof.
  intros Hn. unfold estimateEloPairTarget.
  destruct (Z.leb_spec n 1); [lia|].
  assert (Hh : 1 <= ceil_log2 n).
  { unfold ceil_log2. pose proof (Z.log2_up_pos n ltac:(lia)). lia. }
  rewrite (js_round_frac _ (3 * n * ceil_log2 n) 2).
  - assert (3 <= (2 * (3 * n * ceil_log2 n) + 2) / (2 * 2)); [|lia].
    apply Z.div_le_lower_bound; nia.
  - solve_qeq.
Qed.

Lemma pushUndoSnapshot_elo s : elo (pushUndoSnapshot s) = elo s.
Proof. unfold pushUndoSnapshot. destruct (_ <? _)%nat; reflexivity. Qed.

(** What [initElo] stores: the [kFactor] of the intensity and
    [basePairs + extra]. *)
Lemma initElo_elo data seed items s s' :
  initElo data seed items s = Some s' →
  ∃ e, elo s' = Some e
    ∧ let intensity := if truthy (eloIntensity s) then eloIntensity s else "balanced" in
      let base := estimateEloPairTarget (Z.of_nat (length items)) in
      kFactor e = (intensity_settings intensity).2
      ∧ totalPairs e = base + extraPairs (intensity_settings intensity).1 base.
Proof.
  unfold initElo. case_bool_decide; [discriminate|].
  destruct (intensity_settings _) as [m k] eqn:Hset.
  intros [= <-]. rewrite pushUndoSnapshot_elo. cbn [elo].
  eexists; split; [reflexivity|]. cbn [kFactor totalPairs fst snd].
  unfold idsOf. rewrite length_fmap. done.
Qed.

(** C2. For [n >= 2] candidates [initElo] computes the base value
    [max(n - 1, round(1.5 * n * ceil(log2 n)))] and stores
    [basePairs + max(0, round((multiplier - 1) * basePairs))]: for 'balanced'
    that is the base value with K = 32, for 'accurate' the base value scaled
    by 1.5 with K = 24, but for 'fast' (K = 40) it is the base value itself,
    which is larger than the base value scaled by 0.6. *)
Theorem initElo_totalPairs data seed items s s' e :
  (2 <= length items)%nat →
  initElo data seed items s = Some s' → elo s' = Some e →
  let n := Z.of_nat (length items) in
  let base := estimateEloPairTarget n in
  base = Z.max (n - 1) (js_round ((3 # 2) * inject_Z n * inject_Z (ceil_log2 n))%Q)
  ∧ (eloIntensity s = "balanced" → kFactor e = 32 ∧ totalPairs e = scaledPairTarget 1 base)
  ∧ (eloIntensity s = "accurate" →
       kFactor e = 24 ∧ totalPairs e = scaledPairTarget (3 # 2) base)
  ∧ (eloIntensity s = "fast" →
       kFactor e = 40 ∧ totalPairs e = base ∧ scaledPairTarget (6 # 10) base < totalPairs e).
Proof.
  intros Hn Hinit He n base.
  destruct (initElo_elo _ _ _ _ _ Hinit) as (e' & He' & Hk & Ht).
  rewrite He in He'. injection He' as <-.
  pose proof (estimateEloPairTarget_ge_3 n ltac:(lia)) as Hb.
  cbn zeta in Hk, Ht. fold n in Ht. fold base in Ht, Hb.
  assert (Hbase : base = estimateEloPairTarget n) by reflexivity.
  assert (Hn2 : 2 <= n) by lia.
  clearbody base. clearbody n.
  split; [|split; [|split]].
  - rewrite Hbase. unfold estimateEloPairTarget. destruct (Z.leb_spec n 1); [lia|reflexivity].
  - intros Hi. rewrite Hi in Hk, Ht. cbn in Hk. split; [exact Hk|].
    rewrite Ht. change (intensity_settings _).1 with 1%Q.
    rewrite extraPairs_balanced. unfold scaledPairTarget.
    rewrite (js_round_frac _ base 1); [|solve_qeq].
    rewrite Z.add_0_r. apply (Z.div_unique _ _ _ 1); lia.
  - intros Hi. rewrite Hi in Hk, Ht. cbn in Hk. split; [exact Hk|].
    rewrite Ht. change (intensity_settings _).1 with (3 # 2)%Q.
    apply extraPairs_accurate. lia.
  - intros Hi. rewrite Hi in Hk, Ht. cbn in Hk. split; [exact Hk|].
    change (intensity_settings _).1 with (6 # 10)%Q in Ht.
    rewrite extraPairs_fast in Ht by lia.
    split; [lia|]. rewrite Ht, Z.add_0_r. apply scaledPairTarget_fast_lt. lia.
Qed.

Lemma initElo_totalPairs_witness :
  ∃ s' e,
    initElo abcd 1337 abcd (with_intensity "fast" defaultSorter) = Some s'
    ∧ elo s' = Some e ∧ kFactor e = 40 ∧ totalPairs e = 12
    ∧ scaledPairTarget (6 # 10) 12 = 7.
Proof.
  destruct (initElo abcd 1337 abcd (with_intensity "fast" defaultSorter)) as [s'|] eqn:Hs;
    [|vm_compute in Hs; discriminate].
  destruct (initElo_elo _ _ _ _ _ Hs) as (e & He & _).
  exists s', e.
  destruct (initElo_totalPairs abcd 1337 abcd _ s' e ltac:(simpl; lia) Hs He)
    as (_ & _ & _ & Hfast).
  destruct (Hfast eq_refl) as (Hk & Ht & _).
  split; [reflexivity|]. split; [exact He|]. split; [exact Hk|].
  split; [exact Ht|]. vm_compute; reflexivity.
Defined.

(** ** The merge sort driver on the scenarios *)

(** C3. Five candidates, the judgments A>B, C>D, then A>C, C>B, B>D, then A>E,
    C>E, B>E, D>E: the sort completes after nine distinct pairs were judged,
    while [totalComparisonUpperBound(5)] is eight. *)
Theorem mergesort_exceeds_bound :
  let run := mergeSortDriver 60 abcde
               [Left; Left; Left; Right; Left; Left; Left; Left; Left] in
  finished_ranking run = Some ["A"; "C"; "B"; "D"; "E"]
  ∧ finished_pairs run = Some 9%nat
  ∧ totalComparisonUpperBound 5 = 8.
Proof. split; [|split]; vm_compute; reflexivity. Qed.

(** C8 as the specification states it fails: after A>B, C>D and A>C the
    driver asks for B against C, and when B wins the ranking is [A,B,C,D]
    without B having been compared to D. *)
Lemma merge_scenario_counterexample :
  ¬ (∀ fuel os r,
       finished_ranking (mergeSortDriver fuel abcd ([Left; Left; Left] ++ os)) = Some r →
       r = ["A"; "C"; "B"; "D"] ∨ r = ["A"; "C"; "D"; "B"]).
Proof.
  intros H.
  destruct (H 40%nat [Left] ["A"; "B"; "C"; "D"] ltac:(vm_compute; reflexivity)) as [E|E];
    discriminate.
Qed.

(** C8, amended. On [A,B,C,D] with A>B, C>D and A>C the driver next asks for
    B against C.  If C wins, B is compared to D and the ranking is [A,C,D,B]
    when D wins and [A,C,B,D] otherwise (B wins, a tie, or a skip, which on a
    one-against-one pair counts as a tie); if B wins or ties against C the
    ranking is [A,B,C,D]. *)
Theorem merge_scenario (o : outcome) :
  o ≠ Back →
  awaited_pair (mergeSortDriver 40 abcd [Left; Left; Left]) = Some ("B", "C")
  ∧ awaited_pair (mergeSortDriver 40 abcd [Left; Left; Left; Right]) = Some ("B", "D")
  ∧ finished_ranking (mergeSortDriver 40 abcd [Left; Left; Left; Right; o])
    = Some (if decide (o = Right) then ["A"; "C"; "D"; "B"] else ["A"; "C"; "B"; "D"])
  ∧ finished_ranking (mergeSortDriver 40 abcd [Left; Left; Left; Left])
    = Some ["A"; "B"; "C"; "D"]
  ∧ finished_ranking (mergeSortDriver 40 abcd [Left; Left; Left; Tie])
    = Some ["A"; "B"; "C"; "D"].
Proof.
  intros Ho.
  split; [vm_compute; reflexivity|].
  split; [vm_compute; reflexivity|].
  split; [|split; vm_compute; reflexivity].
  destruct o; try done; vm_compute; reflexivity.
Qed.

Lemma merge_scenario_witness :
  Right ≠ Back
  ∧ finished_ranking (mergeSortDriver 40 abcd [Left; Left; Left; Right; Right])
    = Some ["A"; "C"; "D"; "B"].
Proof.
  split; [discriminate|].
  destruct (merge_scenario Right ltac:(discriminate)) as (_ & _ & H & _).
  exact H.
Defined.

(** C4. Three judgments on [A,B,C,D] followed by two Backs leave the driver
    in the state it had before the third judgment, not before the first: the
    loop of [continueSort] pushes a snapshot of the restored state before it
    asks again, so a second Back pops that copy and restores the same
    snapshot.  The same holds when the third judgment is still pending. *)
Theorem undo_goes_back_one_judgment_only :
  let before1 := awaiting_state (mergeSortDriver 40 abcd []) in
  let before2 := awaiting_state (mergeSortDriver 40 abcd [Left]) in
  let before3 := awaiting_state (mergeSortDriver 40 abcd [Left; Left]) in
  awaited_pair (mergeSortDriver 40 abcd []) = Some ("A", "B")
  ∧ awaited_pair (mergeSortDriver 40 abcd [Left]) = Some ("C", "D")
  ∧ awaited_pair (mergeSortDriver 40 abcd [Left; Left]) = Some ("A", "C")
  ∧ awaiting_state (mergeSortDriver 40 abcd [Left; Left; Left; Back; Back]) = before3
  ∧ before3 ≠ before1
  ∧ awaiting_state (mergeSortDriver 40 abcd [Left; Left; Back; Back]) = before2
  ∧ before2 ≠ before1.
Proof.
  cbv zeta.
  split; [vm_compute; reflexivity|].
  split; [vm_compute; reflexivity|].
  split; [vm_compute; reflexivity|].
  split; [vm_compute; reflexivity|].
  split.
  { intros H. apply (f_equal (fmap (λ x, x.1.1))) in H. vm_compute in H. discriminate. }
  split; [vm_compute; reflexivity|].
  intros H. apply (f_equal (fmap (λ x, x.1.1))) in H. vm_compute in H. discriminate.
Qed.

(** ** The tier cut-off wizard *)

Lemma chosen_or_0_insert c t t' v :
  chosen_or_0 (<[t := v]> c) t' = if decide (t = t') then v else chosen_or_0 c t'.
Proof. unfold chosen_or_0. rewrite lookup_insert. by destruct (decide (t = t')). Qed.

Lemma applyCut_count v cs :
  0 <= Z.of_nat (length (rankIds cs)) - cursor cs →
  0 <= chosen_or_0 (chosen (applyCut v cs)) (tier_at (pos cs))
     <= Z.of_nat (length (rankIds cs)) - cursor cs.
Proof.
  intros Hrem. unfold applyCut. cbn [chosen].
  rewrite chosen_or_0_insert, decide_True by done. lia.
Qed.

Lemma cut_inv_start ranking cs : startCutoffs ranking = Some cs → cut_inv cs ∧ rankIds cs = ranking.
Proof.
  unfold startCutoffs. case_bool_decide; [done|]. intros [= <-].
  split; [|done]. unfold cut_inv; cbn. repeat split; try lia.
  intros t. unfold chosen_or_0. by rewrite lookup_empty.
Qed.

(** Positions below 7, one by one. *)
Ltac each_pos p :=
  destruct p as [|[|[|[|[|[|[|p]]]]]]]; [..|cbn in *; lia].

Lemma cut_inv_applyCut v cs : cut_inv cs → cut_inv (applyCut v cs).
Proof.
  intros (Hp & Hc & Hs & Hl). unfold cut_inv, applyCut. cbn [pos chosen cursor rankIds].
  split; [done|]. split; [|split; [|done]].
  - intros t. rewrite chosen_or_0_insert. case_decide; [lia|done].
  - revert Hs. remember (pos cs) as p. clear Heqp.
    each_pos p; cbn; rewrite ?chosen_or_0_insert; repeat case_decide; try done; lia.
Qed.

Lemma cut_inv_nextCut v cs : cut_inv cs → cut_inv (nextCut v cs).
Proof.
  intros (Hp & Hc & Hs & Hl). unfold cut_inv, nextCut, applyCut.
  cbn [pos chosen cursor rankIds].
  rewrite chosen_or_0_insert, decide_True by done.
  split; [|split; [|split]].
  - destruct (_ <? _)%nat eqn:E; [|done]. apply Nat.ltb_lt in E. lia.
  - intros t. rewrite chosen_or_0_insert. case_decide; [lia|done].
  - revert Hs. remember (pos cs) as p. clear Heqp.
    each_pos p; cbn; rewrite ?chosen_or_0_insert; repeat case_decide; try done; lia.
  - lia.
Qed.

Lemma cut_inv_prevCut cs : cut_inv cs → cut_inv (prevCut cs).
Proof.
  intros (Hp & Hc & Hs & Hl). unfold prevCut. case_bool_decide; [done|].
  unfold cut_inv. cbn [pos chosen cursor rankIds].
  split; [lia|]. split; [done|].
  pose proof (Hc (tier_at (pos cs - 1))).
  split; [|lia].
  revert Hs. remember (pos cs) as p. clear Heqp.
  each_pos p; cbn; try done; unfold tier_at in *; cbn in *; lia.
Qed.

Lemma cut_inv_moves ms cs : cut_inv cs → cut_inv (foldl cut_step cs ms).
Proof.
  revert cs. induction ms as [|m ms IH]; intros cs Hcs; [done|].
  cbn [foldl]. apply IH. destruct m; [by apply cut_inv_nextCut|by apply cut_inv_prevCut].
Qed.

Lemma rankIds_moves ms cs : rankIds (foldl cut_step cs ms) = rankIds cs.
Proof.
  revert cs. induction ms as [|m ms IH]; intros cs; [done|].
  cbn [foldl]. rewrite IH. destruct m; cbn; [done|].
  unfold prevCut. by case_bool_decide.
Qed.

(** The loop of [applyCutoffsToTiers] hands out consecutive segments. *)
Lemma fill_tiers_spec ids c ts cur tiers tiers' cur' :
  NoDup ts → (cur <= length ids)%nat →
  fill_tiers ids c ts cur tiers = (tiers', cur') →
  (cur <= cur' <= length ids)%nat
  ∧ concat (tier_ids tiers' <$> ts) = slice cur cur' ids
  ∧ (∀ t, t ∉ ts → tiers' !! t = tiers !! t).
Proof.
  revert cur tiers. induction ts as [|t ts IH]; intros cur tiers Hnd Hcur Hfill.
  - cbn in Hfill. injection Hfill as <- <-. unfold slice.
    rewrite Nat.sub_diag. cbn. split; [lia|done].
  - cbn [fill_tiers] in Hfill.
    set (n := Z.to_nat (Z.max 0 (Z.min (Z.of_nat (length ids) - Z.of_nat cur)
                                   (chosen_or_0 c t)))) in *.
    assert (Hn : (cur + n <= length ids)%nat) by lia.
    apply NoDup_cons in Hnd as [Hnin Hnd].
    destruct (IH _ _ Hnd Hn Hfill) as (Hle & Hcat & Hout).
    split; [lia|]. split.
    + cbn [fmap list_fmap concat]. fold (fmap (M:=list) (tier_ids tiers') ts).
      rewrite Hcat. unfold tier_ids at 1. rewrite (Hout t Hnin), lookup_insert_eq.
      cbn [default]. unfold slice.
      replace (cur + n - cur)%nat with n by lia.
      replace (cur' - cur)%nat with (n + (cur' - (cur + n)))%nat by lia.
      rewrite <- take_take_drop, drop_drop. reflexivity.
    + intros t' Ht'. apply not_elem_of_cons in Ht' as [Hne Ht'].
      rewrite (Hout t' Ht'). by rewrite lookup_insert_ne.
Qed.

Lemma applyCutoffsToTiers_concat cs :
  concat (tier_ids (applyCutoffsToTiers cs) <$> TIER_ORDER) = rankIds cs.
Proof.
  unfold applyCutoffsToTiers, TIER_ORDER.
  destruct (fill_tiers _ _ _ _ _) as [tiers cur] eqn:Hfill.
  assert (Hnd : NoDup CUTOFF_TIERS) by (apply (bool_decide_unpack _); by vm_compute).
  destruct (fill_tiers_spec _ _ _ _ _ _ _ Hnd (Nat.le_0_l _) Hfill) as (Hle & Hcat & _).
  rewrite fmap_app, concat_app.
  assert (Hsame : tier_ids (<["Unplaced" := drop cur (rankIds cs)]> tiers) <$> CUTOFF_TIERS
                  = tier_ids tiers <$> CUTOFF_TIERS).
  { apply list_fmap_ext. intros k t Ht. unfold tier_ids.
    rewrite lookup_insert_ne; [done|].
    intros <-. apply list_elem_of_lookup_2 in Ht. revert Ht.
    apply (bool_decide_unpack _). by vm_compute. }
  rewrite Hsame, Hcat. cbn. unfold tier_ids. rewrite lookup_insert_eq. cbn.
  unfold slice. rewrite drop_0, Nat.sub_0_r, app_nil_r. apply take_drop.
Qed.

(** C7. From [startCutoffs] on any ranking, after any sequence of Next and
    Previous moves with any numbers typed in: the count [applyCut] stores for
    the current tier lies in [0, remaining], where [remaining] is the number
    of ids after the cursor (itself never negative); and applying the
    cut-offs gives tiers SS, S, A, B, C, D, F and Unplaced whose
    concatenation is the ranking, so their sizes add up to its length and,
    the ranking having no duplicate, no id is in two tiers. *)
Theorem tier_cutoffs_partition (ranking : list string) (cs0 : cut_state)
    (ms : list cut_move) (v : Z) :
  startCutoffs ranking = Some cs0 →
  let cs := foldl cut_step cs0 ms in
  let remaining := Z.of_nat (length ranking) - cursor cs in
  let tiers := applyButton v cs in
  0 <= remaining
  ∧ 0 <= chosen_or_0 (chosen (applyCut v cs)) (tier_at (pos cs)) <= remaining
  ∧ concat (tier_ids tiers <$> TIER_ORDER) = ranking
  ∧ sum_list (length ∘ tier_ids tiers <$> TIER_ORDER) = length ranking
  ∧ (NoDup ranking → NoDup (concat (tier_ids tiers <$> TIER_ORDER))).
Proof.
  intros Hstart cs remaining tiers.
  destruct (cut_inv_start _ _ Hstart) as [Hinv Hids].
  pose proof (cut_inv_moves ms _ Hinv) as (Hp & Hc & Hs & Hl). fold cs in Hp, Hc, Hs, Hl.
  assert (Hr : rankIds cs = ranking) by (unfold cs; by rewrite rankIds_moves).
  rewrite Hr in Hl.
  assert (Hcat : concat (tier_ids tiers <$> TIER_ORDER) = ranking).
  { unfold tiers, applyButton. rewrite applyCutoffsToTiers_concat. by cbn. }
  split; [unfold remaining; lia|]. split; [|split; [done|split]].
  - unfold remaining. rewrite <- Hr. apply applyCut_count. rewrite Hr. lia.
  - rewrite <- Hcat. rewrite length_concat, list_fmap_compose. done.
  - by rewrite Hcat.
Qed.

Lemma tier_cutoffs_partition_witness :
  let tiers := applyButton 9 (foldl cut_step (CutState ["a"; "b"; "c"; "d"; "e"] 0 ∅ 0)
                                [Next 1; Next 2; Prev; Next 1; Next 0; Next 0; Next 0; Next 1]) in
  startCutoffs ["a"; "b"; "c"; "d"; "e"] = Some (CutState ["a"; "b"; "c"; "d"; "e"] 0 ∅ 0)
  ∧ concat (tier_ids tiers <$> TIER_ORDER) = ["a"; "b"; "c"; "d"; "e"]
  ∧ tier_ids tiers "S" = ["b"] ∧ tier_ids tiers "F" = ["d"; "e"]
  ∧ tier_ids tiers "Unplaced" = [].
Proof.
  cbv zeta. split; [reflexivity|].
  split.
  - apply (tier_cutoffs_partition ["a"; "b"; "c"; "d"; "e"] _
             [Next 1; Next 2; Prev; Next 1; Next 0; Next 0; Next 0; Next 1] 9 eq_refl).
  - split; [|split]; vm_compute; reflexivity.
Defined.

(** ** The undo stacks *)

Lemma bounded_push_length {A} cap (old : list A) x :
  (0 < cap)%nat → (length (bounded_push cap old x) <= cap)%nat.
Proof. intros Hc. unfold bounded_push. rewrite length_drop. lia. Qed.

Lemma pushUndoSnapshot_undo s :
  undo (pushUndoSnapshot s) = bounded_push MAX_UNDO (undo s) (take_snapshot s).
Proof.
  unfold pushUndoSnapshot, bounded_push.
  destruct (Nat.ltb_spec MAX_UNDO (length (undo s ++ [take_snapshot s]))) as [H|H];
    cbn [undo set_shared set_undo]; [done|].
  replace (length _ - MAX_UNDO)%nat with 0%nat by lia. by rewrite drop_0.
Qed.

Lemma pushUndoSnapshot_length s : (length (undo (pushUndoSnapshot s)) <= MAX_UNDO)%nat.
Proof. rewrite pushUndoSnapshot_undo. apply bounded_push_length. unfold MAX_UNDO. lia. Qed.

Lemma removelast_length {A} (l : list A) : length (removelast l) = (length l - 1)%nat.
Proof.
  induction l as [|x [|y l] IH]; [done|done|].
  change (removelast (x :: y :: l)) with (x :: removelast (y :: l)).
  cbn [length] in *. lia.
Qed.

Lemma restoreFromUndo_length s :
  (length (undo (restoreFromUndo s).1) <= length (undo s))%nat.
Proof.
  unfold restoreFromUndo. destruct (_ <? 2)%nat; [done|].
  destruct (last _); cbn [fst undo set_shared set_undo]; rewrite removelast_length; lia.
Qed.

Lemma write_through_length s : length (undo (write_through s)) = length (undo s).
Proof.
  unfold write_through. cbn [undo set_undo].
  destruct (shared_arrays s), (stack s), (shared_maps s);
    by rewrite ?length_alter.
Qed.

Lemma write_through_stack s : stack (write_through s) = stack s.
Proof. done. Qed.

Lemma finish_length a b v s : length (undo (finish a b v s)) = length (undo s).
Proof. destruct v; [|done..]. unfold finish. by rewrite write_through_length. Qed.

Lemma prefer_length a b s os res s' os' :
  prefer a b s os = Some (res, s', os') → length (undo s') = length (undo s).
Proof.
  unfold prefer. destruct (cache s !! keyFor a b); [by intros [= _ <- _]|].
  destruct os; [done|]. intros [= _ <- _]. apply finish_length.
Qed.

Lemma finish_block_length st s : length (undo (finish_block st s)) = length (undo s).
Proof. unfold finish_block, set_fresh_frame. cbn [undo set_shared set_stack]. by rewrite write_through_length. Qed.

Lemma after_prefer_bound st res s os :
  (length (undo s) <= MAX_UNDO)%nat →
  (length (undo (result_state (after_prefer st res s os))) <= MAX_UNDO)%nat.
Proof.
  intros H. unfold after_prefer. destruct res.
  - destruct (0 <=? v); cbn [result_state]; by rewrite write_through_length.
  - case_bool_decide; cbn [result_state]; by rewrite write_through_length.
  - pose proof (restoreFromUndo_length s) as Hr.
    destruct (restoreFromUndo s) as [s1 []]; cbn [fst result_state undo set_stack] in *; lia.
Qed.

Lemma ask_bound st a b s os :
  (length (undo (result_state (ask st a b s os))) <= MAX_UNDO)%nat.
Proof.
  unfold ask. pose proof (pushUndoSnapshot_length (set_stack (Some st) s)) as Hp.
  destruct (prefer _ _ _ _) as [[[res s2] os']|] eqn:Hpref; [|done].
  apply after_prefer_bound. by rewrite (prefer_length _ _ _ _ _ _ _ Hpref).
Qed.

Lemma step_bound N idMap p s os :
  (length (undo s) <= MAX_UNDO)%nat →
  (length (undo (result_state (step N idMap p s os))) <= MAX_UNDO)%nat.
Proof.
  intros H. unfold step. destruct (stack s) as [st|]; [|done]. destruct p.
  - unfold outer_step. destruct (negb _); [done|]. destruct (_ <=? _)%nat; [done|].
    case_bool_decide; cbn -[MAX_UNDO]; case_bool_decide; done.
  - unfold inner_step. destruct (_ && _); [|cbn [result_state]; by rewrite finish_block_length].
    destruct (_ ≫= _) as [a|]; [|done].
    destruct (_ ≫= _) as [b|]; [|done].
    case_bool_decide; [|apply ask_bound].
    destruct (_ <=? _)%nat; [cbn [result_state]; by rewrite finish_block_length|].
    destruct (_ ≫= _) as [b'|]; [apply ask_bound|apply pushUndoSnapshot_length].
Qed.

Lemma run_bound fuel N idMap p s os :
  (length (undo s) <= MAX_UNDO)%nat →
  (length (undo (result_state (run fuel N idMap p s os))) <= MAX_UNDO)%nat.
Proof.
  revert p s os. induction fuel as [|fuel IH]; intros p s os H; [done|].
  cbn [run]. pose proof (step_bound N idMap p s os H) as Hs.
  destruct (step N idMap p s os); try done. by apply IH.
Qed.

Lemma initSort_undo items s s' :
  initSort items s = Some s' → length (undo s') = 1%nat.
Proof.
  unfold initSort. case_bool_decide; [done|]. intros [= <-].
  rewrite pushUndoSnapshot_undo. done.
Qed.

Lemma initElo_undo data seed items s s' :
  initElo data seed items s = Some s' → length (undo s') = 1%nat.
Proof.
  unfold initElo. case_bool_decide; [done|].
  destruct (intensity_settings _) as [m k]. intros [= <-].
  rewrite pushUndoSnapshot_undo. done.
Qed.

(** ** The elimination picker *)

Module PickerFacts.
Import PresidentialPicker.

Section WithRandom.
Variable random : nat → nat.

Lemma swap_perm arr i j : swap arr i j ≡ₚ arr.
Proof.
  unfold swap. destruct (arr !! i) as [x|] eqn:Hi; [|done].
  destruct (arr !! j) as [y|] eqn:Hj; [|done].
  by apply Permutation_insert_swap.
Qed.

Lemma shuffle_from_perm i k arr : (shuffle_from random i k arr).1 ≡ₚ arr.
Proof.
  revert k arr. induction i as [|i IH]; intros k arr; [done|].
  cbn [shuffle_from]. rewrite IH. apply swap_perm.
Qed.

Lemma shuffle_perm k arr : (shuffle random k arr).1 ≡ₚ arr.
Proof. apply shuffle_from_perm. Qed.

(** *** removeFromEliminated *)

Lemma unlock_fold_perm fav el :
  let r := foldr (unlock_entry fav) ([], []) el in
  (e_id <$> r.1) ++ r.2 ≡ₚ e_id <$> el.
Proof.
  induction el as [|e el IH]; [done|]. cbn [foldr] in *.
  destruct (foldr (unlock_entry fav) ([], []) el) as [kept restored].
  cbn [fst snd] in IH. unfold unlock_entry. cbn [fst snd].
  case_bool_decide; [case_bool_decide|]; cbn [fst snd fmap list_fmap e_id].
  - rewrite <- IH. by rewrite (comm (++) _ [e_id e]), (assoc (++)), (comm (++) _ [e_id e]).
  - rewrite <- IH. done.
  - rewrite <- IH. done.
Qed.

Lemma removeFromEliminated_pool fav p :
  let p' := removeFromEliminated fav p in
  survived p' ++ (e_id <$> eliminated p') ≡ₚ survived p ++ (e_id <$> eliminated p)
  ∧ current p' = current p ∧ evaluating p' = evaluating p ∧ favorites p' = favorites p
  ∧ history p' = history p ∧ historyIndex p' = historyIndex p.
Proof.
  unfold removeFromEliminated.
  pose proof (unlock_fold_perm fav (eliminated p)) as Hf. cbn zeta in Hf.
  destruct (foldr _ _ _) as [kept restored]. cbn [fst snd] in Hf.
  case_bool_decide; cbn; (split; [|done]).
  - rewrite <- Hf, app_nil_r. rewrite <- (assoc (++)). f_equiv. apply (comm (++)).
  - rewrite <- Hf. rewrite <- (assoc (++)). f_equiv. apply (comm (++)).
Qed.

(** After [removeFromEliminated] with nothing in play, either something
    survives or nothing is left eliminated. *)
Lemma removeFromEliminated_not_stuck fav p :
  current p = [] → survived (removeFromEliminated fav p) = [] →
  eliminated (removeFromEliminated fav p) = [].
Proof.
  unfold removeFromEliminated. intros Hc.
  destruct (foldr _ _ _) as [kept restored].
  case_bool_decide as Hb; cbn.
  - done.
  - intros Hsv. destruct kept; [done|]. exfalso. apply Hb.
    apply app_eq_nil in Hsv as [Hs Hr]. rewrite Hs, Hr. done.
Qed.

(** *** nextRound and nextBatch *)

Lemma calculateBatchSize_ge n : (2 <= calculateBatchSize n)%nat.
Proof. unfold calculateBatchSize, MIN_BATCH_SIZE. lia. Qed.

Lemma addToFavorites_pool x p :
  x ∉ favorites p →
  let p' := addToFavorites x p in
  survived p' ++ (e_id <$> eliminated p') ≡ₚ survived p ++ (e_id <$> eliminated p)
  ∧ current p' = current p ∧ evaluating p' = evaluating p
  ∧ favorites p' = favorites p ++ [x]
  ∧ history p' = history p ∧ historyIndex p' = historyIndex p.
Proof.
  intros Hx. unfold addToFavorites. rewrite bool_decide_eq_false_2 by done.
  match goal with |- context [removeFromEliminated x ?q] =>
    destruct (removeFromEliminated_pool x q) as (H1 & H2 & H3 & H4 & H5 & H6) end.
  cbn zeta. rewrite H1, H2, H3, H4, H5, H6. done.
Qed.

Lemma nextRound_prepare_pool p :
  NoDup (pool p) →
  let p' := nextRound_prepare random p in
  pool p' ≡ₚ pool p ∧ evaluating p' = evaluating p ∧ survived p' = []
  ∧ history p' = history p ∧ historyIndex p' = historyIndex p
  ∧ (2 <= batchSize p')%nat.
Proof.
  intros Hnd. unfold nextRound_prepare.
  set (p1 := match current p, survived p with
             | [], [newFavorite] => _
             | _, _ => p end).
  assert (H1 : pool p1 ≡ₚ pool p ∧ evaluating p1 = evaluating p
               ∧ history p1 = history p ∧ historyIndex p1 = historyIndex p).
  { subst p1. destruct (current p) as [|c cs] eqn:Hc; [|done].
    destruct (survived p) as [|x [|y sv]] eqn:Hs; [done| |done].
    cbv beta iota.
    assert (Hx : x ∉ favorites p).
    { unfold pool in Hnd. rewrite Hc, Hs in Hnd. cbn in Hnd.
      apply NoDup_cons in Hnd as [Hx _]. set_solver. }
    pose proof (addToFavorites_pool x (set_lists (eliminated p) [] [] (evaluating p) (favorites p) p) Hx) as HH.
    cbn zeta in HH. destruct HH as (E1 & E2 & E3 & E4 & E5 & E6).
    cbn [survived eliminated current evaluating favorites history
         historyIndex set_lists] in E1, E2, E3, E4, E5, E6.
    split; [|by rewrite E3, E5, E6]. unfold pool. rewrite E2, E3, E4, Hc, Hs. cbn [app].
    set (S' := survived (addToFavorites _ _)) in *.
    set (D' := e_id <$> eliminated (addToFavorites _ _)) in *.
    clearbody S' D'.
    transitivity ((S' ++ D') ++ evaluating p ++ favorites p ++ [x]); [solve_Permutation|].
    rewrite E1. solve_Permutation. }
  destruct H1 as (Hp1 & He1 & Hh1 & Hi1).
  pose proof (shuffle_perm (calls p1) (survived p1)) as Hsh.
  destruct (shuffle random (calls p1) (survived p1)) as [sv k]. cbn [fst] in Hsh.
  cbn. split; [|by auto using calculateBatchSize_ge].
  rewrite <- Hp1. unfold pool. cbn. rewrite Hsh. solve_Permutation.
Qed.

Lemma shuffle_nil k arr : (shuffle random k arr).1 = [] → arr = [].
Proof.
  intros H. pose proof (shuffle_perm k arr) as Hp. rewrite H in Hp.
  symmetry in Hp. by apply Permutation_nil_r in Hp.
Qed.

(** A round that leaves nothing in [current] leaves nothing eliminated, so
    the batch that follows does not have to restore anything. *)
Lemma nextRound_prepare_not_stuck p :
  (0 < length (survived p))%nat →
  current (nextRound_prepare random p) = [] →
  eliminated (nextRound_prepare random p) = [].
Proof.
  intros Hsv. unfold nextRound_prepare.
  set (p1 := match current p, survived p with
             | [], [newFavorite] => _
             | _, _ => p end).
  pose proof (shuffle_nil (calls p1) (survived p1)) as Hnil.
  destruct (shuffle random (calls p1) (survived p1)) as [sv k]. cbn [fst] in Hnil.
  cbn. intros Hcu. apply app_eq_nil in Hcu as [Hc1 Hs1].
  specialize (Hnil Hs1). subst p1.
  destruct (current p) as [|c cs] eqn:Hc; [|cbn in *; congruence].
  destruct (survived p) as [|x [|y svp]] eqn:Hs;
    [cbn in Hsv; lia| |cbn in *; congruence].
  cbv beta iota in *. unfold addToFavorites in *.
  apply removeFromEliminated_not_stuck; [|done].
  by case_bool_decide.
Qed.

Lemma nextBatch_pool fuel p p' :
  NoDup (pool p) → evaluating p = [] →
  nextBatch random fuel p = Some p' →
  pool p' ≡ₚ pool p ∧ history p' = history p ∧ historyIndex p' = historyIndex p.
Proof.
  revert p. induction fuel as [|fuel IH]; intros p Hnd Hev; [done|].
  cbn [nextBatch].
  set (p1 := if bool_decide _ then _ else p).
  assert (H1 : pool p1 ≡ₚ pool p ∧ evaluating p1 = [] ∧ history p1 = history p
               ∧ historyIndex p1 = historyIndex p).
  { subst p1. case_bool_decide as Hb; [|done].
    destruct Hb as (Hc & Hs & _). unfold pool. cbn. rewrite Hc, Hs, Hev. cbn.
    split; [solve_Permutation|done]. }
  destruct H1 as (Hp1 & He1 & Hh1 & Hi1).
  assert (Hnd1 : NoDup (pool p1)) by by rewrite Hp1.
  destruct (_ && _).
  - intros Hnb.
    destruct (nextRound_prepare_pool p1 Hnd1) as (Hq & Heq & _ & Hhq & Hiq & _).
    apply IH in Hnb as (Hp' & Hh' & Hi').
    + rewrite Hp', Hq, Hp1, Hh', Hhq, Hi', Hiq. done.
    + by rewrite Hq.
    + by rewrite Heq.
  - intros [= <-]. cbn. split; [|done]. rewrite <- Hp1. unfold pool. cbn.
    rewrite He1. cbn.
    rewrite <- (take_drop (batchSize p1) (current p1)) at 3. solve_Permutation.
Qed.

Lemma nextBatch_total p : is_Some (nextBatch random DEPTH p).
Proof.
  unfold DEPTH. cbn [nextBatch].
  set (p1 := if bool_decide _ then _ else p).
  destruct (_ && _) eqn:Hcond; [|done].
  apply andb_prop in Hcond as [_ Hsv]. apply Nat.ltb_lt in Hsv.
  set (q := nextRound_prepare random p1).
  pose proof (nextRound_prepare_not_stuck p1 Hsv) as Hq. fold q in Hq.
  assert (Hsq : survived q = []).
  { subst q. unfold nextRound_prepare. by destruct (shuffle _ _ _). }
  rewrite bool_decide_eq_false_2.
  - rewrite Hsq. cbn. by rewrite andb_false_r.
  - intros (Hc & _ & He). by apply He, Hq.
Qed.

(** *** The history *)

Lemma pushHistory_lists p :
  current (pushHistory p) = current p ∧ survived (pushHistory p) = survived p
  ∧ evaluating (pushHistory p) = evaluating p ∧ eliminated (pushHistory p) = eliminated p
  ∧ favorites (pushHistory p) = favorites p.
Proof. unfold pushHistory. by destruct (_ <? _)%nat. Qed.

Lemma pushHistory_pool p : pool (pushHistory p) = pool p.
Proof.
  destruct (pushHistory_lists p) as (H1 & H2 & H3 & H4 & H5).
  unfold pool. by rewrite H1, H2, H3, H4, H5.
Qed.

Lemma snapshot_pool_get p : snapshot_pool (getStateSnapshot p) = pool p.
Proof. done. Qed.

Lemma pushHistory_partitioned items p :
  partitioned items p → history_partitioned items p →
  history_partitioned items (pushHistory p).
Proof.
  unfold history_partitioned, partitioned, pushHistory. intros Hp Hh.
  set (h0 := if _ <? _ then _ else _).
  assert (H0 : Forall (λ s, snapshot_pool s ≡ₚ id <$> items) h0).
  { subst h0. destruct (_ <? _); [|done]. unfold slice. rewrite drop_0.
    by apply Forall_take. }
  assert (H1 : Forall (λ s, snapshot_pool s ≡ₚ id <$> items) (h0 ++ [getStateSnapshot p])).
  { apply Forall_app. split; [done|]. by apply Forall_singleton. }
  destruct (_ <? _)%nat; cbn; [by apply Forall_drop|done].
Qed.

Lemma pushHistory_ok p :
  history_ok p →
  history_ok (pushHistory p) ∧ (length (history (pushHistory p)) <= HISTORY_LIMIT)%nat.
Proof.
  unfold history_ok, pushHistory, HISTORY_LIMIT. intros (Hi & Hl & Hn).
  set (h0 := if _ <? _ then _ else _).
  assert (H0 : Z.of_nat (length h0) = historyIndex p + 1).
  { subst h0. destruct (Z.ltb_spec (historyIndex p) (Z.of_nat (length (history p)) - 1)).
    - unfold slice. rewrite drop_0, length_take. lia.
    - lia. }
  rewrite length_app. cbn [length].
  destruct (Nat.ltb_spec 50 (length h0 + 1)); cbn; rewrite ?length_drop, ?length_app;
    cbn [length]; lia.
Qed.

(** *** pick, pass and undo *)

(** The ids picked and the ids not picked make up the batch. *)
Lemma picked_notPicked (pickedIds ev : list string) :
  NoDup pickedIds → NoDup ev → pickedIds ⊆ ev →
  pickedIds ++ filter (λ x, x ∉ pickedIds) ev ≡ₚ ev.
Proof.
  intros Hp He Hsub.
  rewrite <- (filter_app_complement (λ x, x ∈ pickedIds) ev) at 2.
  f_equiv. apply NoDup_Permutation; [done|by apply NoDup_filter|].
  intros x. rewrite list_elem_of_filter. split; [|by intros []].
  intros Hx. split; [done|by apply Hsub].
Qed.

Lemma pool_NoDup_evaluating p : NoDup (pool p) → NoDup (evaluating p).
Proof.
  unfold pool. intros H.
  apply NoDup_app in H as (_ & _ & H). apply NoDup_app in H as (_ & _ & H).
  by apply NoDup_app in H as (H & _ & _).
Qed.

Lemma option_list_head_singleton (l : list string) :
  length l = 1%nat → option_list (head l) = l.
Proof. by destruct l as [|x [|y l]]. Qed.

Lemma pick_pool pickedIds p p' :
  NoDup (pool p) → NoDup pickedIds → pickedIds ⊆ evaluating p →
  pick random pickedIds p = Some p' →
  pool p' ≡ₚ pool p
  ∧ history p' = history (pushHistory p) ∧ historyIndex p' = historyIndex (pushHistory p).
Proof.
  intros Hnd Hpk Hsub. unfold pick.
  destruct (pushHistory_lists p) as (H1 & H2 & H3 & H4 & H5).
  cbn [current survived evaluating eliminated favorites history historyIndex].
  rewrite H1, H2, H3, H4, H5.
  pose proof (picked_notPicked pickedIds (evaluating p) Hpk
                (pool_NoDup_evaluating p Hnd) Hsub) as Hsplit.
  set (notPicked := filter (λ x, x ∉ pickedIds) (evaluating p)) in *.
  clearbody notPicked.
  case_bool_decide as Hfinal.
  - intros [= <-]. cbn. split; [|done].
    destruct Hfinal as (Htot & Hev & Hlen).
    assert (Hn : length notPicked = 1%nat).
    { apply Permutation_length in Hsplit. rewrite length_app in Hsplit. lia. }
    rewrite (option_list_head_singleton pickedIds Hlen),
            (option_list_head_singleton notPicked Hn).
    unfold pool. cbn.
    destruct (current p); [|cbn in Htot; lia].
    destruct (survived p); [|cbn in Htot; lia].
    destruct (eliminated p); [|cbn in Htot; lia].
    cbn. rewrite <- Hsplit. solve_Permutation.
  - intros Hnb.
    apply nextBatch_pool in Hnb as (Hp' & Hh' & Hi').
    + split; [|done]. rewrite Hp'. unfold pool. cbn.
      rewrite fmap_app, <- list_fmap_compose. cbn.
      change (e_id ∘ _) with (λ x : string, x). rewrite list_fmap_id.
      rewrite <- Hsplit. solve_Permutation.
    + unfold pool. cbn. rewrite fmap_app, <- list_fmap_compose. cbn.
      change (e_id ∘ _) with (λ x : string, x). rewrite list_fmap_id.
      revert Hnd. unfold pool. rewrite <- Hsplit at 1.
      intros Hnd. eapply NoDup_Permutation_proper; [|exact Hnd]. solve_Permutation.
    + done.
Qed.

Lemma pass_pool p p' :
  NoDup (pool p) → pass random p = Some p' →
  pool p' ≡ₚ pool p
  ∧ history p' = history (pushHistory p) ∧ historyIndex p' = historyIndex (pushHistory p).
Proof.
  intros Hnd. unfold pass.
  destruct (pushHistory_lists p) as (H1 & H2 & H3 & H4 & H5).
  rewrite H1, H2, H3, H4, H5. intros Hnb.
  apply nextBatch_pool in Hnb as (Hp' & Hh' & Hi').
  - split; [|done]. rewrite Hp'. unfold pool. cbn. solve_Permutation.
  - eapply NoDup_Permutation_proper; [|exact Hnd]. unfold pool. cbn. solve_Permutation.
  - done.
Qed.

Section Invariant.
Variable items : list person.
Hypothesis items_distinct : NoDup (id <$> items).

Lemma inv_NoDup p : picker_inv items p → NoDup (pool p).
Proof. intros (Hp & _). unfold partitioned in Hp. by rewrite Hp. Qed.

Lemma inv_initialize p : initialize random (create items) = Some p → picker_inv items p.
Proof.
  unfold initialize. cbn [calls allItems create].
  pose proof (shuffle_perm 0 (id <$> items)) as Hsh.
  destruct (shuffle random 0 (id <$> items)) as [ids k]. cbn [fst] in Hsh.
  intros Hnb. apply nextBatch_pool in Hnb as (Hp & Hh & Hi).
  - unfold picker_inv, partitioned, history_partitioned, history_ok.
    rewrite Hp, Hh, Hi. unfold pool, HISTORY_LIMIT. cbn.
    rewrite !app_nil_r. split; [done|]. split; [done|lia].
  - unfold pool. cbn. rewrite !app_nil_r, Hsh. done.
  - done.
Qed.

Lemma inv_pick pickedIds p p' :
  picker_inv items p → NoDup pickedIds → pickedIds ⊆ evaluating p →
  pick random pickedIds p = Some p' → picker_inv items p'.
Proof.
  intros Hinv Hpk Hsub Hpick. pose proof (inv_NoDup p Hinv) as Hnd.
  destruct Hinv as (Hp & Hh & Hok).
  destruct (pick_pool _ _ _ Hnd Hpk Hsub Hpick) as (Hp' & Hh' & Hi').
  pose proof (pushHistory_partitioned items p Hp Hh) as Hhp.
  destruct (pushHistory_ok p Hok) as [Hok' _].
  unfold picker_inv, partitioned, history_partitioned, history_ok in *.
  rewrite Hp', Hh', Hi'. done.
Qed.

Lemma inv_pass p p' :
  picker_inv items p → pass random p = Some p' → picker_inv items p'.
Proof.
  intros Hinv Hpass. pose proof (inv_NoDup p Hinv) as Hnd.
  destruct Hinv as (Hp & Hh & Hok).
  destruct (pass_pool _ _ Hnd Hpass) as (Hp' & Hh' & Hi').
  pose proof (pushHistory_partitioned items p Hp Hh) as Hhp.
  destruct (pushHistory_ok p Hok) as [Hok' _].
  unfold picker_inv, partitioned, history_partitioned, history_ok in *.
  rewrite Hp', Hh', Hi'. done.
Qed.

Lemma inv_undo p p' : picker_inv items p → undo p = Some p' → picker_inv items p'.
Proof.
  intros Hinv. unfold undo.
  destruct (Z.leb_spec 0 (historyIndex p)) as [Hge|Hlt]; cbn [negb];
    [|by intros [= <-]].
  destruct Hinv as (Hp & Hh & Hi & Hl & Hn).
  set (h := if _ =? _ then _ else _).
  assert (Hh' : Forall (λ s, snapshot_pool s ≡ₚ id <$> items) h).
  { subst h. destruct (_ =? _); [|done]. apply Forall_app. split; [done|].
    by apply Forall_singleton. }
  assert (Hlen : (length (history p) <= length h <= HISTORY_LIMIT + 1)%nat).
  { subst h. unfold HISTORY_LIMIT in *.
    destruct (Z.eqb_spec (historyIndex p) (Z.of_nat (length (history p)) - 1));
      rewrite ?length_app; cbn [length]; lia. }
  clearbody h.
  destruct (h !! Z.to_nat (historyIndex p)) as [s|] eqn:Hs; [|done].
  intros [= <-]. unfold picker_inv, partitioned, history_partitioned, history_ok.
  cbn -[HISTORY_LIMIT]. split; [|split; [done|unfold HISTORY_LIMIT in *; lia]].
  change (snapshot_pool s ≡ₚ id <$> items).
  exact (Forall_lookup_1 _ _ _ _ Hh' Hs).
Qed.

Lemma reachable_inv p : reachable random items p → picker_inv items p.
Proof.
  induction 1 as [p Hinit|p ids p' _ IH Hnd Hsub Hpick|p p' _ IH Hpass|p p' _ IH Hundo].
  - by apply inv_initialize.
  - by apply (inv_pick ids p p').
  - by apply (inv_pass p p').
  - by apply (inv_undo p p').
Qed.

(** No operation of a run fails: the call depth of [nextBatch] suffices and
    [undo] finds its snapshot. *)
Lemma operations_total p :
  picker_inv items p →
  is_Some (pass random p) ∧ is_Some (undo p)
  ∧ ∀ pickedIds, is_Some (pick random pickedIds p).
Proof.
  intros (Hp & Hh & Hi & Hl & Hn). split; [|split].
  - apply nextBatch_total.
  - unfold undo. destruct (Z.leb_spec 0 (historyIndex p)); cbn [negb]; [|done].
    set (h := if _ =? _ then _ else _).
    assert (Hlen : (length (history p) <= length h)%nat).
    { subst h. destruct (_ =? _); rewrite ?length_app; lia. }
    destruct (lookup_lt_is_Some_2 h (Z.to_nat (historyIndex p)) ltac:(lia)) as [s ->].
    done.
  - intros ids. unfold pick. case_bool_decide; [done|apply nextBatch_total].
Qed.

End Invariant.

(** The history alone, whatever the candidates. *)
Lemma nextBatch_history fuel p p' :
  nextBatch random fuel p = Some p' →
  history p' = history p ∧ historyIndex p' = historyIndex p.
Proof.
  revert p. induction fuel as [|fuel IH]; intros p; [done|].
  cbn [nextBatch].
  set (p1 := if bool_decide _ then _ else p).
  assert (H1 : history p1 = history p ∧ historyIndex p1 = historyIndex p)
    by (subst p1; by case_bool_decide).
  destruct H1 as [Hh1 Hi1].
  destruct (_ && _); [|intros [= <-]; by cbn].
  intros Hnb. apply IH in Hnb as [-> ->]. rewrite <- Hh1, <- Hi1.
  unfold nextRound_prepare.
  set (p2 := match current p1, survived p1 with
             | [], [newFavorite] => _
             | _, _ => p1 end).
  assert (H2 : history p2 = history p1 ∧ historyIndex p2 = historyIndex p1).
  { subst p2. destruct (current p1); [|done]. destruct (survived p1) as [|x [|]]; try done.
    unfold addToFavorites.
    match goal with |- context [removeFromEliminated x ?q] =>
      destruct (removeFromEliminated_pool x q) as (_ & _ & _ & _ & -> & ->) end.
    by case_bool_decide. }
  destruct (shuffle _ _ _). by cbn.
Qed.

Lemma pick_history pickedIds p p' :
  pick random pickedIds p = Some p' →
  history p' = history (pushHistory p) ∧ historyIndex p' = historyIndex (pushHistory p).
Proof.
  unfold pick. case_bool_decide.
  - intros [= <-]. split; reflexivity.
  - intros Hnb. apply nextBatch_history in Hnb as [-> ->]. split; reflexivity.
Qed.

Lemma pass_history p p' :
  pass random p = Some p' →
  history p' = history (pushHistory p) ∧ historyIndex p' = historyIndex (pushHistory p).
Proof.
  unfold pass. intros Hnb. apply nextBatch_history in Hnb as [-> ->]. split; reflexivity.
Qed.

Lemma reachable_history_ok items p : reachable random items p → history_ok p.
Proof.
  induction 1 as [p Hinit|p ids p' _ IH Hnd Hsub Hpick|p p' _ IH Hpass|p p' _ IH Hundo].
  - unfold initialize in Hinit. destruct (shuffle _ _ _) as [ids k].
    apply nextBatch_history in Hinit as [Hh Hi].
    unfold history_ok, HISTORY_LIMIT. rewrite Hh, Hi. cbn. lia.
  - destruct (pushHistory_ok p IH) as [Hok _].
    apply pick_history in Hpick as [Hh Hi].
    unfold history_ok. rewrite Hh, Hi. exact Hok.
  - destruct (pushHistory_ok p IH) as [Hok _].
    apply pass_history in Hpass as [Hh Hi].
    unfold history_ok. rewrite Hh, Hi. exact Hok.
  - revert Hundo. unfold undo.
    destruct (Z.leb_spec 0 (historyIndex p)) as [Hge|Hlt]; cbn [negb];
      [|by intros [= <-]].
    destruct IH as (Hi & Hl & Hn).
    destruct (_ !! _) as [s|]; [|done]. intros [= <-].
    unfold history_ok, HISTORY_LIMIT in *. cbn.
    destruct (Z.eqb_spec (historyIndex p) (Z.of_nat (length (history p)) - 1));
      rewrite ?length_app; cbn [length]; lia.
Qed.

(** [pushHistory] keeps the fifty newest entries of the history up to the
    index (what lies beyond the index is the redo history, dropped first). *)
Lemma pushHistory_bounded p :
  history_ok p →
  history (pushHistory p)
  = bounded_push HISTORY_LIMIT (take (Z.to_nat (historyIndex p + 1)) (history p))
      (getStateSnapshot p).
Proof.
  unfold history_ok, pushHistory, bounded_push, HISTORY_LIMIT. intros (Hi & Hl & Hn).
  set (h0 := if _ <? _ then _ else _).
  assert (H0 : h0 = take (Z.to_nat (historyIndex p + 1)) (history p)).
  { subst h0. destruct (Z.ltb_spec (historyIndex p) (Z.of_nat (length (history p)) - 1)).
    - unfold slice. by rewrite drop_0, Nat.sub_0_r.
    - rewrite take_ge; [done|lia]. }
  rewrite <- H0.
  assert (Hlen : (length h0 <= 50)%nat).
  { rewrite H0, length_take. lia. }
  clearbody h0. rewrite length_app. cbn [length].
  destruct (Nat.ltb_spec 50 (length h0 + 1)); cbn.
  - by replace (length h0 + 1 - 50)%nat with 1%nat by lia.
  - replace (length h0 + 1 - 50)%nat with 0%nat by lia. by rewrite drop_0.
Qed.

Lemma pick_pass_history_length items p p' :
  reachable random items p →
  pass random p = Some p' ∨ (∃ pickedIds, pick random pickedIds p = Some p') →
  (length (history p') <= HISTORY_LIMIT)%nat.
Proof.
  intros Hr Hop. pose proof (reachable_history_ok items p Hr) as Hok.
  destruct (pushHistory_ok p Hok) as [_ Hlen].
  destruct Hop as [Hpass|[ids Hpick]].
  - apply pass_history in Hpass as [-> _]. exact Hlen.
  - apply pick_history in Hpick as [-> _]. exact Hlen.
Qed.

Lemma apply_operation_reachable items o p q :
  reachable random items p → apply_operation random o p = Some q →
  reachable random items q.
Proof.
  intros Hr. destruct o as [ids| |].
  - unfold apply_operation. case_bool_decide as Hok; [|intros H; discriminate H].
    destruct Hok as [Hnd Hsub]. intros Hq.
    exact (reach_pick random items p ids q Hr Hnd Hsub Hq).
  - exact (reach_pass random items p q Hr).
  - exact (reach_undo random items p q Hr).
Qed.

Lemma run_operations_reachable items ops p p' :
  reachable random items p → run_operations random ops p = Some p' →
  reachable random items p'.
Proof.
  revert p. induction ops as [|o ops IH]; intros p Hr; cbn [run_operations].
  { intros [= <-]. exact Hr. }
  destruct (apply_operation random o p) as [q|] eqn:Hq; [|intros H; discriminate H].
  change (run_operations random ops q = Some p' → reachable random items p').
  apply IH. exact (apply_operation_reachable items o p q Hr Hq).
Qed.

Lemma play_reachable items ops p :
  play random items ops = Some p → reachable random items p.
Proof.
  unfold play. destruct (initialize _ _) as [p0|] eqn:H0; [|done]. cbn.
  apply run_operations_reachable. by apply reach_initialize.
Qed.

End WithRandom.


(** X16. The operations of such a run never fail: [initialize], [pass],
    [undo] and [pick] (with any ids) return normally in every state reached.
    The calls of [nextBatch] and [nextRound] to each other stop at depth two,
    and [undo] always finds the snapshot it parses. *)
Lemma picker_run_total (random : nat → nat) (items : list person)
    (ops : list operation) (p : picker) :
  NoDup (id <$> items) →
  play random items ops = Some p →
  is_Some (initialize random (create items))
  ∧ is_Some (pass random p) ∧ is_Some (undo p)
  ∧ ∀ pickedIds, is_Some (pick random pickedIds p).
Proof.
  intros Hnd Hplay. split.
  - unfold initialize. destruct (shuffle _ _ _). apply nextBatch_total.
  - apply play_reachable in Hplay.
    apply (operations_total random items). by apply (reachable_inv random items Hnd).
Qed.

End PickerFacts.


(** ** The bound of the undo stacks *)

(** C9 as stated fails for the picker: its history holds at most fifty
    snapshots.  After fifty passes on two candidates the history has fifty
    entries, far below 2000, and the next [pushHistory] discards the oldest. *)
Lemma picker_history_counterexample :
  ∃ p, after_passes 50 = Some p
     ∧ length (PresidentialPicker.history p) = 50%nat
     ∧ PresidentialPicker.historyIndex p = 49
     ∧ length (bounded_push MAX_UNDO (PresidentialPicker.history p)
                 (PresidentialPicker.getStateSnapshot p)) = 51%nat
     ∧ length (PresidentialPicker.history (PresidentialPicker.pushHistory p)) = 50%nat
     ∧ PresidentialPicker.history (PresidentialPicker.pushHistory p)
       ≠ bounded_push MAX_UNDO (PresidentialPicker.history p)
           (PresidentialPicker.getStateSnapshot p).
Proof.
  assert (Hobs : (λ q, (length (PresidentialPicker.history q),
                        PresidentialPicker.historyIndex q,
                        length (PresidentialPicker.history
                                  (PresidentialPicker.pushHistory q))))
                 <$> after_passes 50
                 = Some (50%nat, 49, 50%nat)) by (vm_compute; reflexivity).
  destruct (after_passes 50) as [p|]; [|discriminate Hobs].
  exists p. split; [reflexivity|].
  cbn [fmap option_fmap option_map] in Hobs.
  injection Hobs as Hl Hi Hh.
  assert (Hb : length (bounded_push MAX_UNDO (PresidentialPicker.history p)
                         (PresidentialPicker.getStateSnapshot p)) = 51%nat).
  { unfold bounded_push, MAX_UNDO. rewrite length_drop, length_app, Hl. reflexivity. }
  split; [exact Hl|]. split; [exact Hi|]. split; [exact Hb|]. split; [exact Hh|].
  intros Heq. rewrite Heq, Hb in Hh. discriminate Hh.
Qed.

(** C9, amended. The undo stack of the sorter, which the merge sort and the
    ELO driver share, is bounded at 2000 snapshots and loses its oldest
    entries first: [pushUndoSnapshot] leaves the 2000 newest, [restoreFromUndo]
    never adds one, every state of a merge sort run has at most 2000, and
    [initElo] starts with one.  The history of the elimination picker is
    bounded at 50 snapshots instead: [pushHistory] leaves the 50 newest after
    dropping the redo entries, so after every pick and pass there are at most
    50 (an undo from the newest position appends one more). *)
Theorem undo_stacks_bounded :
  (∀ s, undo (pushUndoSnapshot s) = bounded_push MAX_UNDO (undo s) (take_snapshot s)
        ∧ (length (undo (pushUndoSnapshot s)) <= MAX_UNDO)%nat
        ∧ (length (undo (restoreFromUndo s).1) <= length (undo s))%nat)
  ∧ (∀ fuel items os r,
       mergeSortDriver fuel items os = Some r →
       (length (undo (result_state r)) <= MAX_UNDO)%nat)
  ∧ (∀ data seed items s s',
       initElo data seed items s = Some s' → length (undo s') = 1%nat)
  ∧ (∀ random items p,
       PresidentialPicker.reachable random items p →
       PresidentialPicker.history (PresidentialPicker.pushHistory p)
       = bounded_push PresidentialPicker.HISTORY_LIMIT
           (take (Z.to_nat (PresidentialPicker.historyIndex p + 1))
              (PresidentialPicker.history p))
           (PresidentialPicker.getStateSnapshot p)
       ∧ (length (PresidentialPicker.history p) <= PresidentialPicker.HISTORY_LIMIT + 1)%nat
       ∧ ∀ p', PresidentialPicker.pass random p = Some p'
               ∨ (∃ pickedIds, PresidentialPicker.pick random pickedIds p = Some p') →
               (length (PresidentialPicker.history p') <= PresidentialPicker.HISTORY_LIMIT)%nat)
  ∧ MAX_UNDO = 2000%nat ∧ PresidentialPicker.HISTORY_LIMIT = 50%nat.
Proof.
  split; [|split; [|split; [|split; [|done]]]].
  - intros s. split; [apply pushUndoSnapshot_undo|].
    split; [apply pushUndoSnapshot_length|apply restoreFromUndo_length].
  - intros fuel items os r. unfold mergeSortDriver.
    destruct (initSort items defaultSorter) as [s|] eqn:Hs; [|done].
    cbn. intros [= <-]. unfold continueSort.
    destruct (stack s); [|cbn -[MAX_UNDO]; rewrite (initSort_undo _ _ _ Hs); unfold MAX_UNDO; lia].
    apply run_bound. rewrite (initSort_undo _ _ _ Hs). unfold MAX_UNDO. lia.
  - apply initElo_undo.
  - intros random items p Hr.
    pose proof (PickerFacts.reachable_history_ok _ _ _ Hr) as Hok.
    split; [by apply PickerFacts.pushHistory_bounded|].
    split; [apply Hok|].
    intros p' Hop. by eapply PickerFacts.pick_pass_history_length.
Qed.

(** ** The comparison cache *)

Lemma key_cons c x y : key (String c x) y = String c (key x y).
Proof. reflexivity. Qed.

Lemma key_nil y : key "" y = String "|" y.
Proof. reflexivity. Qed.

(** Keys of ids without ['|'] determine the pair. *)
Lemma key_inj x y x' y' :
  bar_free x → bar_free x' → key x y = key x' y' → x = x' ∧ y = y'.
Proof.
  unfold bar_free. revert x'. induction x as [|c x IH]; intros [|c' x'] Hx Hx'.
  - rewrite !key_nil. by intros [= ->].
  - rewrite key_nil, key_cons. intros [= <- _]. cbn in Hx'. done.
  - rewrite key_nil, key_cons. intros [= -> _]. cbn in Hx. done.
  - rewrite !key_cons. intros [= -> Hk]. cbn in Hx, Hx'.
    apply orb_false_elim in Hx as [_ Hx]. apply orb_false_elim in Hx' as [_ Hx'].
    destruct (IH x' Hx Hx' Hk) as [-> ->]. done.
Qed.

Lemma invert_involutive v : v = 1 ∨ v = 0 ∨ v = -1 → invert (invert v) = v.
Proof. by intros [->|[->| ->]]. Qed.

Lemma invert_range v : invert v = 1 ∨ invert v = 0 ∨ invert v = -1.
Proof.
  unfold invert. destruct (v =? 1); [by right; right|]. destruct (v =? -1); auto.
Qed.

Lemma invert_0 v : v = 1 ∨ v = 0 ∨ v = -1 → invert v = 0 → v = 0.
Proof. by intros [->|[->| ->]]. Qed.

Lemma symmetric_empty : symmetric_cache ∅ ∅.
Proof. intros x y v _ _ H. by rewrite lookup_empty in H. Qed.

(** Recording a judgment on a proper pair keeps the maps symmetric. *)
Lemma symmetric_record (c : gmap string Z) (t : gmap string bool) a b v :
  bar_free a → bar_free b → a ≠ b → v = 1 ∨ v = 0 ∨ v = -1 →
  symmetric_cache c t →
  symmetric_cache (<[key b a := invert v]> (<[key a b := v]> c))
    (if v =? 0 then <[key b a := true]> (<[key a b := true]> t) else t).
Proof.
  intros Ha Hb Hab Hv Hsym x y w Hx Hy.
  assert (Hne : key a b ≠ key b a).
  { intros Hk. by destruct (key_inj _ _ _ _ Ha Hb Hk). }
  assert (Hties : ∀ k, t !! k = Some true →
            (if v =? 0 then <[key b a := true]> (<[key a b := true]> t) else t) !! k
            = Some true).
  { intros k Hk. destruct (v =? 0); [|done].
    rewrite !lookup_insert. repeat case_decide; done. }
  destruct (decide (key x y = key b a)) as [Hba|Hnba].
  - destruct (key_inj _ _ _ _ Hx Hb Hba) as [-> ->].
    rewrite lookup_insert_eq. intros [= <-].
    split; [apply invert_range|]. split.
    + rewrite lookup_insert_ne by done. rewrite lookup_insert_eq.
      by rewrite invert_involutive.
    + intros H0. apply invert_0 in H0; [|done]. subst v. cbn.
      rewrite !lookup_insert. repeat case_decide; done.
  - rewrite lookup_insert_ne by done.
    destruct (decide (key x y = key a b)) as [Hab'|Hnab].
    + destruct (key_inj _ _ _ _ Hx Ha Hab') as [-> ->].
      rewrite lookup_insert_eq. intros [= <-].
      split; [done|]. split; [by rewrite lookup_insert_eq|].
      intros ->. cbn. rewrite !lookup_insert. repeat case_decide; done.
    + rewrite lookup_insert_ne by done. intros Hc.
      destruct (Hsym x y w Hx Hy Hc) as (Hw & Hinv & Ht).
      split; [done|]. split.
      * rewrite !lookup_insert_ne; [done| |].
        -- intros Hk. destruct (key_inj _ _ _ _ Ha Hy Hk) as [-> ->]. done.
        -- intros Hk. destruct (key_inj _ _ _ _ Hb Hy Hk) as [-> ->]. done.
      * intros H0. destruct (Ht H0). split; by apply Hties.
Qed.

Lemma keyFor_key a b : keyFor a b = key (id a) (id b).
Proof. reflexivity. Qed.

Lemma outcome_val_range o v : outcome_val o = PNum v → v = 1 ∨ v = 0 ∨ v = -1.
Proof. destruct o; intros [= <-]; auto. Qed.

Lemma write_through_inv s :
  symmetric_cache (cache s) (ties s) →
  Forall (λ sn, symmetric_cache (snap_cache sn) (snap_ties sn)) (undo s) →
  cache_inv (write_through s).
Proof.
  intros Hlive Hu. split; [done|].
  unfold write_through. cbn [undo set_undo].
  set (u1 := match shared_maps s with Some k => _ | None => undo s end).
  assert (H1 : Forall (λ sn, symmetric_cache (snap_cache sn) (snap_ties sn)) u1).
  { subst u1. destruct (shared_maps s); [|done]. by apply Forall_alter. }
  destruct (shared_arrays s), (stack s); try done.
  apply Forall_alter; [done|]. by intros [].
Qed.

Lemma finish_inv a b o s :
  bar_free (id a) → bar_free (id b) → id a ≠ id b →
  cache_inv s → cache_inv (finish a b (outcome_val o) s).
Proof.
  intros Ha Hb Hab [Hlive Hu]. unfold finish.
  destruct (outcome_val o) as [v| |] eqn:Ho; [|done..].
  apply write_through_inv; [|done]. cbn [cache ties set_maps]. rewrite !keyFor_key.
  apply symmetric_record; try done. by eapply outcome_val_range.
Qed.

Lemma prefer_inv a b s os res s' os' :
  bar_free (id a) → bar_free (id b) → id a ≠ id b →
  prefer a b s os = Some (res, s', os') → cache_inv s → cache_inv s'.
Proof.
  intros Ha Hb Hab. unfold prefer.
  destruct (cache s !! keyFor a b); [by intros [= _ <- _]|].
  destruct os as [|o os]; [done|]. intros [= _ <- _]. by apply finish_inv.
Qed.

Lemma pushUndoSnapshot_inv s : cache_inv s → cache_inv (pushUndoSnapshot s).
Proof.
  intros [Hlive Hu].
  assert (Hall : Forall (λ sn, symmetric_cache (snap_cache sn) (snap_ties sn))
                   (undo s ++ [take_snapshot s])).
  { apply Forall_app. split; [done|]. by apply Forall_singleton. }
  unfold pushUndoSnapshot. destruct (_ <? _)%nat; split; try done.
  cbn [undo set_shared set_undo]. by apply Forall_drop.
Qed.

Lemma removelast_take {A} (l : list A) : removelast l = take (length l - 1) l.
Proof.
  induction l as [|x [|y l] IH]; [done|done|].
  change (removelast (x :: y :: l)) with (x :: removelast (y :: l)).
  rewrite IH. cbn [length]. replace (S (S (length l)) - 1)%nat with (S (S (length l) - 1)) by lia.
  done.
Qed.

Lemma restoreFromUndo_inv s : cache_inv s → cache_inv (restoreFromUndo s).1.
Proof.
  intros [Hlive Hu]. unfold restoreFromUndo. destruct (_ <? 2)%nat; [done|].
  assert (Hr : Forall (λ sn, symmetric_cache (snap_cache sn) (snap_ties sn))
                 (removelast (undo s))).
  { rewrite removelast_take. by apply Forall_take. }
  destruct (last (removelast (undo s))) as [prev|] eqn:Hlast; cbn [fst];
    [|split; [exact Hlive|exact Hr]].
  split; [|exact Hr]. cbn [cache ties].
  rewrite last_lookup in Hlast. exact (Forall_lookup_1 _ _ _ _ Hr Hlast).
Qed.

Lemma cache_step_inv s e : proper_event e → cache_inv s → cache_inv (cache_step s e).
Proof.
  destruct e as [a b o| |]; cbn [proper_event cache_step].
  - intros (Ha & Hb & Hab) Hinv.
    destruct (prefer a b s [o]) as [[[res s'] os']|] eqn:Hp; [|done].
    exact (prefer_inv a b s [o] res s' os' Ha Hb Hab Hp Hinv).
  - intros _. apply pushUndoSnapshot_inv.
  - intros _. apply restoreFromUndo_inv.
Qed.

Lemma cache_steps_inv es s :
  Forall proper_event es → cache_inv s → cache_inv (foldl cache_step s es).
Proof.
  revert s. induction es as [|e es IH]; intros s Hes Hs; [done|].
  apply Forall_cons in Hes as [He Hes]. cbn [foldl].
  apply IH; [done|]. by apply cache_step_inv.
Qed.

Lemma defaultSorter_inv : cache_inv defaultSorter.
Proof. split; [apply symmetric_empty|by apply Forall_nil]. Qed.

(** C6 as stated fails when an id contains ['|']: for the ids x and x|x both
    keys are the string x|x|x, so the second write of [finish] overwrites the
    first and the pair judged Left reads -1 in both directions. *)
Lemma cache_symmetry_counterexample :
  let a := Person "x" "X" in
  let b := Person "x|x" "Y" in
  id a ≠ id b
  ∧ keyFor a b = keyFor b a
  ∧ ∃ s, prefer a b defaultSorter [Left] = Some (PNum 1, s, [])
       ∧ cache s !! keyFor a b = Some (-1)
       ∧ cache s !! keyFor b a = Some (-1)
       ∧ invert (-1) ≠ -1.
Proof.
  cbv zeta. split; [done|]. split; [reflexivity|].
  eexists. split; [reflexivity|]. split; [|split]; [vm_compute; reflexivity..|done].
Qed.

(** C6, amended. Start from a fresh sorter and let the drivers act on the
    cache in any order: judgments on pairs of candidates whose ids are
    distinct and contain no ['|'] (answered Left, Tie, Right, Skip or Back, or
    from the cache), snapshots pushed, snapshots restored.  Then for all ids
    [x], [y] without ['|'] with an entry [cache[x|y] = v]: [v] is 1, 0 or -1,
    [cache[y|x]] is its inverse, and when [v] is 0 both keys are in the tie
    set; the same holds in every snapshot of the undo stack.  And a judgment
    Left, Tie or Right on a pair not yet in the cache is stored as 1, 0 or
    -1 under [a|b] and as the inverse under [b|a]. *)
Theorem cache_symmetry (es : list cache_event) (a b : person) (o : outcome) :
  Forall proper_event es → proper_event (Judge a b o) →
  let s := foldl cache_step defaultSorter es in
  let s' := cache_step s (Judge a b o) in
  symmetric_cache (cache s') (ties s')
  ∧ Forall (λ sn, symmetric_cache (snap_cache sn) (snap_ties sn)) (undo s')
  ∧ (cache s !! keyFor a b = None → ∀ v, outcome_val o = PNum v →
       cache s' !! keyFor a b = Some v
       ∧ cache s' !! keyFor b a = Some (invert v)
       ∧ (v = 0 → ties s' !! keyFor a b = Some true ∧ ties s' !! keyFor b a = Some true)).
Proof.
  intros Hes Hj s s'.
  assert (Hs : cache_inv s) by (apply cache_steps_inv; [done|apply defaultSorter_inv]).
  assert (Hs' : cache_inv s') by (by apply cache_step_inv).
  destruct Hs' as [Hlive Hu]. split; [done|]. split; [done|].
  intros Hnone v Hv.
  assert (Hk : cache s' !! keyFor a b = Some v).
  { subst s'. cbn [cache_step]. unfold prefer. rewrite Hnone, Hv. cbn [finish set_maps].
    change (cache (write_through ?t)) with (cache t). cbn [cache set_maps].
    destruct Hj as (Ha & Hb & Hab).
    rewrite lookup_insert_ne, lookup_insert_eq; [done|].
    rewrite !keyFor_key. intros Hkk. by destruct (key_inj _ _ _ _ Hb Ha Hkk). }
  destruct Hj as (Ha & Hb & Hab). rewrite keyFor_key in Hk.
  destruct (Hlive _ _ _ Ha Hb Hk) as (_ & Hinv & Ht).
  rewrite !keyFor_key. done.
Qed.

Lemma cache_symmetry_witness :
  let es := [Judge pA pB Left; PushSnapshot; Judge pC pD Tie; PushSnapshot;
             Judge pA pC Right; Restore; Judge pB pA Skip] in
  Forall proper_event es ∧ proper_event (Judge pB pD Tie)
  ∧ let s' := cache_step (foldl cache_step defaultSorter es) (Judge pB pD Tie) in
    cache s' !! "B|D" = Some 0 ∧ cache s' !! "D|B" = Some 0
    ∧ ties s' !! "B|D" = Some true ∧ ties s' !! "D|B" = Some true.
Proof.
  cbv zeta.
  assert (Hes : Forall proper_event
                  [Judge pA pB Left; PushSnapshot; Judge pC pD Tie; PushSnapshot;
                   Judge pA pC Right; Restore; Judge pB pA Skip]).
  { repeat (apply Forall_cons_2;
              [first [exact I|split; [reflexivity|split; [reflexivity|intros H; discriminate H]]]|]).
    apply Forall_nil_2. }
  assert (Hj : proper_event (Judge pB pD Tie))
    by (split; [reflexivity|split; [reflexivity|intros H; discriminate H]]).
  split; [exact Hes|]. split; [exact Hj|].
  destruct (cache_symmetry _ pB pD Tie Hes Hj) as (_ & _ & Hrec).
  destruct (Hrec ltac:(vm_compute; reflexivity) 0 eq_refl) as (H1 & H2 & H3).
  destruct (H3 eq_refl) as [H4 H5].
  split; [exact H1|]. split; [exact H2|]. split; [exact H4|exact H5].
Defined.

(** ** The merge sort driver: the ranking is a permutation *)

Lemma filter_truthy_id (l : list string) :
  Forall (λ x, x ≠ "") l → filter_truthy l = l.
Proof.
  unfold filter_truthy. induction 1 as [|x l Hx _ IH]; [done|].
  rewrite filter_cons_True; [by rewrite IH|].
  unfold truthy. by apply bool_decide_eq_true_2.
Qed.

Lemma idMapOf_foldl_other (data : list person) (m : gmap string person) x :
  x ∉ id <$> data → foldl (λ m p, <[id p := p]> m) m data !! x = m !! x.
Proof.
  revert m. induction data as [|q data IH]; intros m Hx; [done|].
  cbn [foldl]. rewrite fmap_cons in Hx. apply not_elem_of_cons in Hx as [Hne Hx].
  rewrite IH by done. by rewrite lookup_insert_ne.
Qed.

Lemma idMapOf_foldl_lookup (data : list person) (m : gmap string person) p :
  NoDup (id <$> data) → p ∈ data →
  foldl (λ m p, <[id p := p]> m) m data !! id p = Some p.
Proof.
  revert m. induction data as [|q data IH]; intros m Hnd Hp; [by apply elem_of_nil in Hp|].
  rewrite fmap_cons in Hnd. apply NoDup_cons in Hnd as [Hq Hnd].
  cbn [foldl]. apply elem_of_cons in Hp as [->|Hp].
  - rewrite idMapOf_foldl_other by done. apply lookup_insert_eq.
  - by apply IH.
Qed.

Section MergeSort.

Variable items : list person.
Hypothesis items_distinct : NoDup (id <$> items).
Hypothesis items_truthy : Forall (λ p, id p ≠ "") items.

Let ids : list string := id <$> items.
Let idMap : gmap string person := idMapOf items.
Let N : nat := length items.

Lemma idMap_lookup x : x ∈ ids → ∃ p, idMap !! x = Some p ∧ id p = x ∧ p ∈ items.
Proof.
  intros Hx. apply list_elem_of_fmap in Hx as (p & -> & Hp).
  exists p. split; [|done]. by apply idMapOf_foldl_lookup.
Qed.

Lemma ids_truthy : Forall (λ x, x ≠ "") ids.
Proof. subst ids. by apply Forall_fmap. Qed.

Lemma objsOf_ids (l : list string) : l ⊆ ids → id <$> objsOf l idMap = l.
Proof.
  unfold objsOf. induction l as [|x l IH]; intros Hl; [done|].
  destruct (idMap_lookup x) as (p & Hp & Hid & _); [apply Hl; left|].
  cbn [omap list_omap]. rewrite Hp. cbn. rewrite Hid. f_equal.
  apply IH. intros y Hy. apply Hl. by right.
Qed.

Lemma objsOf_items : objsOf ids idMap = items.
Proof.
  subst ids idMap. unfold objsOf.
  assert (H : ∀ l, l ⊆ items → omap (λ x, idMapOf items !! x) (id <$> l) = l).
  { induction l as [|p l IH]; intros Hl; [done|].
    cbn. unfold idMapOf. rewrite idMapOf_foldl_lookup; [|done|apply Hl; left].
    f_equal. apply IH. intros y Hy. apply Hl. by right. }
  by apply H.
Qed.

Lemma objsOf_perm (arr : list string) : arr ≡ₚ ids → objsOf arr idMap ≡ₚ items.
Proof. intros Ha. rewrite <- objsOf_items. unfold objsOf. by rewrite Ha. Qed.

Lemma perm_subseteq (arr : list string) : arr ≡ₚ ids → arr ⊆ ids.
Proof. intros Ha x Hx. by rewrite <- Ha. Qed.

(** The slices of [arr] that the driver takes through the candidate objects
    are the slices of [arr] itself. *)
Lemma prepared_slice (arr : list string) a b :
  arr ≡ₚ ids →
  filter_truthy (idsOf (slice a b (objsOf arr idMap))) = slice a b arr.
Proof.
  intros Ha. unfold idsOf, slice.
  rewrite fmap_take, fmap_drop, (objsOf_ids arr (perm_subseteq arr Ha)).
  apply filter_truthy_id.
  apply Forall_take, Forall_drop. rewrite Ha. apply ids_truthy.
Qed.

Lemma frame_inv_length p st : frame_inv ids p st → length (st_arr st) = N.
Proof.
  intros (Ha & _). apply Permutation_length in Ha. rewrite Ha. subst ids N.
  apply length_fmap.
Qed.

Lemma stack_pushUndoSnapshot s : stack (pushUndoSnapshot s) = stack s.
Proof. unfold pushUndoSnapshot. by destruct (_ <? _)%nat. Qed.

Lemma stack_finish a b v s : stack (finish a b v s) = stack s.
Proof. by destruct v. Qed.

Lemma prefer_cases a b s os :
  (prefer a b s os = None ∧ os = [])
  ∨ (∃ v, prefer a b s os = Some (PNum v, s, os))
  ∨ (∃ o os', os = o :: os'
       ∧ prefer a b s os = Some (outcome_val o, finish a b (outcome_val o) s, os')).
Proof.
  unfold prefer. destruct (cache s !! keyFor a b) as [v|]; [right; left; by exists v|].
  destruct os as [|o os']; [by left|]. right; right. by exists o, os'.
Qed.

(** *** The outer loop *)

Lemma outer_step_inv st s os :
  frame_inv ids AtOuter st →
  match outer_step N idMap st s os with
  | Finished s' => ∃ r, result s' = Some r ∧ r ≡ₚ items
  | Continue p' s' os' =>
      os' = os
      ∧ ∃ st', stack s' = Some st' ∧ frame_inv ids p' st'
               ∧ (iterations_left N p' st' < iterations_left N AtOuter st)%nat
  | _ => False
  end.
Proof.
  intros Hinv. pose proof (frame_inv_length _ _ Hinv) as Hlen.
  destruct Hinv as (Harr & Hw & HL & HR & Hout).
  unfold outer_step.
  destruct (Nat.ltb_spec (st_width st) N) as [HwN|HwN]; cbn [negb].
  2: { eexists. split; [reflexivity|]. by apply objsOf_perm. }
  destruct (Nat.leb_spec (length (st_arr st)) (st_i st)) as [Hi|Hi].
  { split; [done|]. eexists. split; [reflexivity|]. split.
    - repeat split; try done. cbn. lia.
    - unfold iterations_left. cbn [st_width st_i].
      assert (N - st_width st * 2 + 1 <= N - st_width st)%nat by lia.
      assert ((N - st_width st * 2 + 1) * (3 * N + 2) <= (N - st_width st) * (3 * N + 2))%nat
        by (by apply Nat.mul_le_mono_r).
      lia. }
  rewrite bool_decide_eq_true_2 by done.
  rewrite !prepared_slice by done.
  cbn [st_R st_L st_i st_arr st_width].
  set (l := slice (st_i st) (st_i st + st_width st) (st_arr st)).
  set (r := slice (st_i st + st_width st) (st_i st + 2 * st_width st) (st_arr st)).
  assert (Hl : length l = Nat.min (st_width st) (N - st_i st)).
  { subst l. unfold slice. rewrite length_take, length_drop. lia. }
  assert (Hr : length r = Nat.min (st_width st) (N - (st_i st + st_width st))).
  { subst r. unfold slice. rewrite length_take, length_drop. lia. }
  case_bool_decide as Hrnil.
  - (* odd tail *)
    split; [done|]. eexists. split; [reflexivity|]. split.
    + split; [|by repeat split]. cbn [st_arr].
      etrans; [|exact Harr]. apply reflexive_eq.
      unfold slice. rewrite drop_0, Nat.sub_0_r.
      assert (Hlr : l = drop (st_i st) (st_arr st)).
      { subst l. unfold slice. rewrite take_ge; [done|].
        rewrite length_drop. rewrite Hrnil in Hr. cbn in Hr. lia. }
      rewrite Hlr, length_drop.
      rewrite (drop_ge (st_arr st) (st_i st + _)) by lia.
      by rewrite app_nil_r, take_drop.
    + unfold iterations_left. cbn [st_width st_i]. lia.
  - split; [done|]. eexists. split; [reflexivity|]. split.
    + split; [done|]. split; [done|]. cbn [st_li st_rj st_L st_R st_out st_arr st_i].
      split; [lia|]. split; [lia|].
      exists (take (st_i st) (st_arr st)), (l ++ r),
             (drop (st_i st + 2 * st_width st) (st_arr st)).
      split; [|split; [|split]].
      * subst l r. unfold slice.
        replace (st_i st + st_width st - st_i st)%nat with (st_width st) by lia.
        replace (st_i st + 2 * st_width st - (st_i st + st_width st))%nat
          with (st_width st) by lia.
        rewrite <- (drop_drop (st_arr st) (st_width st) (st_i st)).
        rewrite take_take_drop.
        rewrite <- (drop_drop (st_arr st) (2 * st_width st) (st_i st)).
        replace (st_width st + st_width st)%nat with (2 * st_width st)%nat by lia.
        by rewrite !take_drop.
      * rewrite length_take. lia.
      * rewrite length_app, Hl, Hr. cbn [st_width].
        replace (length ids) with N; [lia|]. subst N ids. by rewrite length_fmap.
      * by rewrite !drop_0.
    + unfold iterations_left. cbn [st_width st_i st_L st_R st_li st_rj].
      assert (length r ≠ 0%nat) by (by destruct r).
      lia.
Qed.

(** *** The inner loop *)

Lemma rotate_length {A} (l : list A) k : length (rotate k l) = length l.
Proof.
  unfold rotate. destruct (l !! k) as [x|] eqn:Hk; [|reflexivity].
  rewrite length_app, (length_delete l k (ex_intro _ x Hk)). cbn.
  apply lookup_lt_Some in Hk. lia.
Qed.

Lemma rotate_drop {A} (l : list A) k x :
  l !! k = Some x → drop k (rotate k l) = drop (S k) l ++ [x].
Proof.
  intros Hk. unfold rotate. rewrite Hk, delete_take_drop.
  pose proof (lookup_lt_Some _ _ _ Hk) as Hlt.
  rewrite <- (assoc (++)). rewrite drop_app_length'; [done|].
  rewrite length_take. lia.
Qed.

Lemma after_prefer_inv st res s os :
  frame_inv ids AtInner st →
  (st_li st < length (st_L st))%nat → (st_rj st < length (st_R st))%nat →
  res ≠ PBack →
  ∃ s' st',
    after_prefer st res s os = Continue AtInner s' os ∧ stack s' = Some st'
    ∧ frame_inv ids AtInner st'
    ∧ (iterations_left N AtInner st' <= iterations_left N AtInner st)%nat
    ∧ (res ≠ PNull → (iterations_left N AtInner st' < iterations_left N AtInner st)%nat).
Proof.
  intros (Harr & Hw & Hli & Hrj & pre & blk & post & Hsplit & Hpre & Hblen & Hblk) HL HR Hres.
  destruct (lookup_lt_is_Some_2 _ _ HL) as [x Hx].
  destruct (lookup_lt_is_Some_2 _ _ HR) as [y Hy].
  assert (Hleft : (st_out st ++ [x]) ++ drop (S (st_li st)) (st_L st)
                  ++ drop (st_rj st) (st_R st) ≡ₚ blk).
  { rewrite <- Hblk, (drop_S _ _ _ Hx). solve_Permutation. }
  assert (Hright : (st_out st ++ [y]) ++ drop (st_li st) (st_L st)
                   ++ drop (S (st_rj st)) (st_R st) ≡ₚ blk).
  { rewrite <- Hblk, (drop_S _ _ _ Hy). solve_Permutation. }
  assert (Hrot : st_out st ++ drop (st_li st) (rotate (st_li st) (st_L st))
                 ++ drop (st_rj st) (rotate (st_rj st) (st_R st)) ≡ₚ blk).
  { rewrite <- Hblk, (rotate_drop _ _ _ Hx), (rotate_drop _ _ _ Hy),
            (drop_S _ _ _ Hx), (drop_S _ _ _ Hy).
    solve_Permutation. }
  unfold after_prefer. destruct res as [v| |]; [| |done].
  - destruct (0 <=? v); eexists _, _; (split; [reflexivity|]); (split; [reflexivity|]);
      rewrite ?Hx, ?Hy; cbn [option_list]; (split; [|unfold iterations_left; cbn; lia]).
    + split; [done|]. split; [done|]. cbn. split; [lia|]. split; [lia|].
      by exists pre, blk, post.
    + split; [done|]. split; [done|]. cbn. split; [lia|]. split; [lia|].
      by exists pre, blk, post.
  - case_bool_decide; eexists _, _; (split; [reflexivity|]); (split; [reflexivity|]);
      rewrite ?Hx, ?Hy; cbn [option_list].
    + split; [|unfold iterations_left; cbn; lia].
      split; [done|]. split; [done|]. cbn. split; [lia|]. split; [lia|].
      by exists pre, blk, post.
    + split; [|unfold iterations_left; cbn; rewrite !rotate_length; split; [lia|done]].
      split; [done|]. split; [done|]. cbn. rewrite !rotate_length.
      split; [lia|]. split; [lia|]. by exists pre, blk, post.
Qed.

Lemma finish_block_inv st s :
  frame_inv ids AtInner st →
  ∃ st', stack (finish_block st s) = Some st' ∧ frame_inv ids AtOuter st'
         ∧ (iterations_left N AtOuter st' < iterations_left N AtInner st)%nat.
Proof.
  intros (Harr & Hw & Hli & Hrj & pre & blk & post & Hsplit & Hpre & Hblen & Hblk).
  eexists. split; [reflexivity|]. split.
  - split; [|by repeat split]. cbn [st_arr]. rewrite <- Harr.
    assert (Htake : take (st_i st) (st_arr st) = pre)
      by (rewrite Hsplit; by apply take_app_length').
    assert (Hdrop : drop (st_i st + length blk) (st_arr st) = post).
    { rewrite Hsplit, (assoc (++)). apply drop_app_length'. rewrite length_app. lia. }
    rewrite !Nat.max_r by lia. rewrite !Nat.sub_diag, !Nat.add_0_r.
    rewrite <- (assoc (++) (st_out st)).
    rewrite (Permutation_length Hblk).
    unfold slice. rewrite drop_0, Nat.sub_0_r, Htake, Hdrop.
    by rewrite Hblk, Hsplit.
  - unfold iterations_left. cbn. lia.
Qed.

Lemma inner_step_inv st s os :
  frame_inv ids AtInner st →
  (∀ o os', os = o :: os' → o ≠ Back) →
  match inner_step idMap st s os with
  | Continue p' s' os' =>
      ∃ st', stack s' = Some st' ∧ frame_inv ids p' st'
        ∧ (iterations_left N p' st' <= iterations_left N AtInner st)%nat
        ∧ ((os' = os ∧ (iterations_left N p' st' < iterations_left N AtInner st)%nat)
           ∨ ∃ o, os = o :: os'
                ∧ (o ≠ Skip → (iterations_left N p' st' < iterations_left N AtInner st)%nat))
  | Waiting s' a b =>
      os = [] ∧ stack s' = Some st ∧ a ∈ items ∧ b ∈ items ∧ id a ≠ id b
  | _ => False
  end.
Proof.
  intros Hinv Hos. unfold inner_step.
  destruct (Nat.ltb_spec (st_li st) (length (st_L st))) as [HL|HL]; cbn [andb].
  2: { destruct (finish_block_inv st s Hinv) as (st' & Hst & Hinv' & Hlt).
       exists st'. split; [done|]. split; [done|]. split; [lia|]. left. by split. }
  destruct (Nat.ltb_spec (st_rj st) (length (st_R st))) as [HR|HR].
  2: { destruct (finish_block_inv st s Hinv) as (st' & Hst & Hinv' & Hlt).
       exists st'. split; [done|]. split; [done|]. split; [lia|]. left. by split. }
  pose proof Hinv as (Harr & Hw & Hli & Hrj & pre & blk & post & Hsplit & Hpre & Hblen & Hblk).
  destruct (lookup_lt_is_Some_2 _ _ HL) as [x Hx].
  destruct (lookup_lt_is_Some_2 _ _ HR) as [y Hy].
  assert (Hblk_in : ∀ z, z ∈ blk → z ∈ ids).
  { intros z Hz. rewrite <- Harr, Hsplit. set_solver. }
  assert (Hnd : NoDup (st_out st ++ drop (st_li st) (st_L st) ++ drop (st_rj st) (st_R st))).
  { rewrite Hblk. assert (Hnda : NoDup (st_arr st)) by (rewrite Harr; exact items_distinct).
    rewrite Hsplit in Hnda. apply NoDup_app in Hnda as (_ & _ & Hnda).
    by apply NoDup_app in Hnda as (Hnda & _ & _). }
  rewrite (drop_S _ _ _ Hx), (drop_S _ _ _ Hy) in Hnd.
  assert (Hxy : x ≠ y).
  { apply NoDup_app in Hnd as (_ & _ & Hnd). apply NoDup_app in Hnd as (_ & Hdis & _).
    intros ->. apply (Hdis y); left. }
  destruct (idMap_lookup x) as (a & Ha & Hida & Hain).
  { apply Hblk_in. rewrite <- Hblk, (drop_S _ _ _ Hx). set_solver. }
  destruct (idMap_lookup y) as (b & Hb & Hidb & Hbin).
  { apply Hblk_in. rewrite <- Hblk, (drop_S _ _ _ Hy). set_solver. }
  rewrite Hx, Hy. cbn [mbind option_bind]. rewrite Ha, Hb.
  rewrite bool_decide_eq_false_2 by congruence.
  unfold ask.
  set (s1 := pushUndoSnapshot (set_stack (Some st) s)).
  destruct (prefer_cases a b s1 os) as [[-> ->]|[[v ->]|(o & os' & -> & ->)]].
  - split; [done|]. split; [by subst s1; rewrite stack_pushUndoSnapshot|].
    split; [done|]. split; [done|]. congruence.
  - destruct (after_prefer_inv st (PNum v) s1 os Hinv HL HR ltac:(done))
      as (s' & st' & -> & Hst & Hinv' & Hle & Hlt).
    exists st'. split; [done|]. split; [done|]. split; [done|]. left. split; [done|].
    by apply Hlt.
  - assert (Ho : o ≠ Back) by (by eapply Hos).
    destruct (after_prefer_inv st (outcome_val o) (finish a b (outcome_val o) s1) os' Hinv
                HL HR ltac:(by destruct o))
      as (s' & st' & -> & Hst & Hinv' & Hle & Hlt).
    exists st'. split; [done|]. split; [done|]. split; [done|]. right.
    exists o. split; [done|]. intros Hskip. apply Hlt. by destruct o.
Qed.

(** *** The loop *)

Lemma iterations_left_pos p st : (1 <= iterations_left N p st)%nat.
Proof.
  unfold iterations_left. generalize ((N - st_width st) * (3 * N + 2))%nat.
  destruct p; lia.
Qed.

Lemma judgments_cons o os :
  judgments (o :: os) = if decide (o = Skip) then judgments os else o :: judgments os.
Proof.
  unfold judgments. destruct (decide (o = Skip)) as [->|Ho].
  - by rewrite filter_cons_False by (intros H; by apply H).
  - by rewrite filter_cons_True.
Qed.

Lemma step_inv p s os st :
  stack s = Some st → frame_inv ids p st → Forall (λ o, o ≠ Back) os →
  match step N idMap p s os with
  | Finished s' => ∃ r, result s' = Some r ∧ r ≡ₚ items
  | Waiting s' a b =>
      os = [] ∧ p = AtInner ∧ stack s' = Some st ∧ a ∈ items ∧ b ∈ items ∧ id a ≠ id b
  | Continue p' s' os' =>
      ∃ st', stack s' = Some st' ∧ frame_inv ids p' st' ∧ Forall (λ o, o ≠ Back) os'
        ∧ (iterations_left N p' st' + length os' < iterations_left N p st + length os)%nat
        ∧ ((iterations_left N p st <= length (judgments os))%nat →
           (iterations_left N p' st' <= length (judgments os'))%nat)
  | _ => False
  end.
Proof.
  intros Hst Hinv Hos. unfold step. rewrite Hst. destruct p.
  - pose proof (outer_step_inv st s os Hinv) as H.
    destruct (outer_step N idMap st s os) as [p' s' os'| | | |]; try done.
    destruct H as (-> & st' & Hst' & Hinv' & Hlt).
    exists st'. split; [done|]. split; [done|]. split; [done|]. split; lia.
  - assert (Hos' : ∀ o os', os = o :: os' → o ≠ Back).
    { intros o os' ->. by apply Forall_cons in Hos as [? _]. }
    pose proof (inner_step_inv st s os Hinv Hos') as H.
    destruct (inner_step idMap st s os) as [p' s' os'| |s' a b| |]; try done.
    + destruct H as (st' & Hst' & Hinv' & Hle & Hcase).
      exists st'. split; [done|]. split; [done|].
      destruct Hcase as [[-> Hlt]|(o & -> & Hlt)].
      * split; [done|]. split; lia.
      * apply Forall_cons in Hos as [Ho Hos]. split; [done|]. split; [cbn; lia|].
        rewrite judgments_cons. destruct (decide (o = Skip)) as [->|Hne]; [lia|].
        specialize (Hlt Hne). cbn. lia.
    + destruct H as (-> & ? & ? & ? & ?). done.
Qed.

Lemma run_inv fuel : ∀ p s os st,
  stack s = Some st → frame_inv ids p st → Forall (λ o, o ≠ Back) os →
  match run fuel N idMap p s os with
  | Finished s' => ∃ r, result s' = Some r ∧ r ≡ₚ items
  | Waiting s' a b =>
      (∃ st', stack s' = Some st' ∧ frame_inv ids AtInner st')
      ∧ a ∈ items ∧ b ∈ items ∧ id a ≠ id b
      ∧ (length (judgments os) < iterations_left N p st)%nat
  | Continue p' s' os' => (fuel < iterations_left N p st + length os)%nat
  | _ => False
  end.
Proof.
  induction fuel as [|fuel IH]; intros p s os st Hst Hinv Hos.
  { cbn. pose proof (iterations_left_pos p st). lia. }
  cbn [run]. pose proof (step_inv p s os st Hst Hinv Hos) as H.
  destruct (step N idMap p s os) as [p' s' os'| |s' a b| |]; try done.
  - destruct H as (st' & Hst' & Hinv' & Hos' & Hlt & Hj).
    specialize (IH p' s' os' st' Hst' Hinv' Hos').
    destruct (run fuel N idMap p' s' os') as [p2 s2 os2| |s2 a b| |]; try done; [lia|].
    destruct IH as (? & ? & ? & ? & Hlt2). repeat split; try done. lia.
  - destruct H as (-> & -> & Hst' & ? & ? & ?).
    split; [by exists st|]. repeat split; try done.
    cbn. pose proof (iterations_left_pos AtInner st). lia.
Qed.

(** The provisional ranking at the head of the inner loop. *)
Lemma provisional_perm s st :
  stack s = Some st → frame_inv ids AtInner st →
  computeProvisionalRanking items s ≡ₚ items.
Proof.
  intros Hst Hinv. pose proof (frame_inv_length _ _ Hinv) as Hlen.
  destruct Hinv as (Harr & Hw & Hli & Hrj & pre & blk & post & Hsplit & Hpre & Hblen & Hblk).
  unfold computeProvisionalRanking. rewrite Hst. apply objsOf_perm.
  rewrite <- Harr. unfold slice. rewrite drop_0, Nat.sub_0_r.
  assert (Htake : take (st_i st) (st_arr st) = pre)
    by (rewrite Hsplit; by apply take_app_length').
  assert (HN : length ids = N) by (subst ids N; apply length_fmap).
  assert (Hpb : (st_i st + length blk <= N)%nat).
  { rewrite <- Hlen, Hsplit, !length_app. lia. }
  assert (Hdrop : drop (length (st_arr st) `min` (st_i st + 2 * st_width st)) (st_arr st)
                  = post).
  { replace (length (st_arr st) `min` (st_i st + 2 * st_width st))%nat
      with (st_i st + length blk)%nat by lia.
    rewrite Hsplit, (assoc (++)). apply drop_app_length'. rewrite length_app. lia. }
  rewrite Htake, Hdrop, Hblk. by rewrite Hsplit.
Qed.

(** *** The driver *)

Lemma driver_inv fuel os :
  items ≠ [] → Forall (λ o, o ≠ Back) os →
  match mergeSortDriver fuel items os with
  | Some (Finished s') => ∃ r, result s' = Some r ∧ r ≡ₚ items
  | Some (Waiting s' a b) =>
      computeProvisionalRanking items s' ≡ₚ items
      ∧ a ∈ items ∧ b ∈ items ∧ id a ≠ id b
      ∧ (length (judgments os) < enough_judgments N)%nat
  | Some (Continue p' s' os') => (fuel < enough_judgments N + length os)%nat
  | _ => False
  end.
Proof.
  intros Hne Hos. unfold mergeSortDriver, initSort.
  rewrite bool_decide_eq_false_2 by done. cbn [mbind option_bind].
  unfold idsOf. fold ids. rewrite (filter_truthy_id ids ids_truthy).
  set (st0 := Frame 1 0 ids [] [] [] 0 0).
  set (s0 := pushUndoSnapshot _).
  assert (Hst : stack s0 = Some st0) by (subst s0; by rewrite stack_pushUndoSnapshot).
  assert (Hinv : frame_inv ids AtOuter st0) by (by repeat split).
  assert (HN : length ids = N) by (subst ids N; apply length_fmap).
  unfold continueSort. rewrite Hst. cbn [st_arr st0]. rewrite HN. fold idMap.
  pose proof (run_inv fuel AtOuter s0 os st0 Hst Hinv Hos) as H.
  assert (Hit : (iterations_left N AtOuter st0 < enough_judgments N)%nat).
  { assert (HN1 : (1 <= N)%nat) by (subst N; destruct items; [done|cbn; lia]).
    unfold iterations_left, enough_judgments. subst st0. cbn [st_width st_i].
    destruct N as [|M]; [lia|]. replace (S M - 1)%nat with M by lia. nia. }
  destruct (run fuel N idMap AtOuter s0 os) as [p' s' os'| |s' a b| |]; try done; [lia|].
  destruct H as ((st' & Hst' & Hinv') & ? & ? & ? & ?).
  split; [by eapply provisional_perm|]. repeat split; try done. lia.
Qed.

End MergeSort.

(** X1. Run from a fresh start on candidates with distinct non-empty ids,
    with any answers of Left, Tie, Right and Skip, the merge sort driver that
    finishes leaves in [result] a permutation of the candidates, without a
    duplicate; it never throws and never returns early, and [initSort]
    refuses the empty list only. *)
Theorem mergeSort_ranking_permutation (items : list person) (os : list outcome)
    (fuel : nat) :
  NoDup (id <$> items) → Forall (λ p, id p ≠ "") items →
  Forall (λ o, o ≠ Back) os →
  match mergeSortDriver fuel items os with
  | Some (Finished s) => ∃ r, result s = Some r ∧ r ≡ₚ items ∧ NoDup (id <$> r)
  | Some (Threw _) | Some (Returned _) => False
  | None => items = []
  | _ => True
  end.
Proof.
  intros Hnd Htr Hos. destruct (decide (items = [])) as [->|Hne]; [done|].
  pose proof (driver_inv items Hnd Htr fuel os Hne Hos) as H.
  destruct (mergeSortDriver fuel items os) as [[| | | |]|]; try done.
  destruct H as (r & Hr & Hperm). exists r. split; [done|]. split; [done|].
  by rewrite Hperm.
Qed.

Lemma mergeSort_ranking_permutation_witness :
  NoDup (id <$> abcde) ∧ Forall (λ p, id p ≠ "") abcde
  ∧ Forall (λ o, o ≠ Back) [Left; Skip; Right; Tie; Skip; Left; Right; Right; Left; Left]
  ∧ match mergeSortDriver 60 abcde
            [Left; Skip; Right; Tie; Skip; Left; Right; Right; Left; Left] with
    | Some (Finished s) => ∃ r, result s = Some r ∧ r ≡ₚ abcde ∧ NoDup (id <$> r)
    | Some (Threw _) | Some (Returned _) => False
    | None => abcde = []
    | _ => True
    end.
Proof.
  assert (Hnd : NoDup (id <$> abcde)) by (apply (bool_decide_unpack _); by vm_compute).
  assert (Htr : Forall (λ p, id p ≠ "") abcde)
    by (repeat (apply Forall_cons_2; [intros H; discriminate H|]); apply Forall_nil_2).
  assert (Hos : Forall (λ o, o ≠ Back)
                  [Left; Skip; Right; Tie; Skip; Left; Right; Right; Left; Left])
    by (repeat (apply Forall_cons_2; [intros H; discriminate H|]); apply Forall_nil_2).
  split; [exact Hnd|]. split; [exact Htr|]. split; [exact Hos|].
  exact (mergeSort_ranking_permutation abcde _ 60 Hnd Htr Hos).
Defined.

(** X2. On a non-empty list of [n] candidates with distinct non-empty ids the
    loop of the driver stops within [3 n^2 + 2 n] iterations plus one for
    each answer: it has finished, or it waits for a judgment; and it can only
    be waiting when fewer than [3 n^2 + 2 n] answers other than Skip were
    given. *)
Theorem mergeSort_stops (items : list person) (os : list outcome) (fuel : nat) :
  items ≠ [] → NoDup (id <$> items) → Forall (λ p, id p ≠ "") items →
  Forall (λ o, o ≠ Back) os →
  (enough_judgments (length items) + length os <= fuel)%nat →
  match mergeSortDriver fuel items os with
  | Some (Finished s) => True
  | Some (Waiting s a b) =>
      (length (judgments os) < enough_judgments (length items))%nat
  | _ => False
  end.
Proof.
  intros Hne Hnd Htr Hos Hfuel.
  pose proof (driver_inv items Hnd Htr fuel os Hne Hos) as H.
  destruct (mergeSortDriver fuel items os) as [[| | | |]|]; try done; [lia|].
  by destruct H as (_ & _ & _ & _ & H).
Qed.

Lemma mergeSort_stops_witness :
  abcd ≠ [] ∧ NoDup (id <$> abcd) ∧ Forall (λ p, id p ≠ "") abcd
  ∧ Forall (λ o, o ≠ Back) [Left; Skip; Right]
  ∧ (enough_judgments (length abcd) + length [Left; Skip; Right] <= 59)%nat
  ∧ match mergeSortDriver 59 abcd [Left; Skip; Right] with
    | Some (Finished s) => True
    | Some (Waiting s a b) =>
        (length (judgments [Left; Skip; Right]) < enough_judgments (length abcd))%nat
    | _ => False
    end.
Proof.
  assert (Hne : abcd ≠ []) by (intros H; discriminate H).
  assert (Hnd : NoDup (id <$> abcd)) by (apply (bool_decide_unpack _); by vm_compute).
  assert (Htr : Forall (λ p, id p ≠ "") abcd)
    by (repeat (apply Forall_cons_2; [intros H; discriminate H|]); apply Forall_nil_2).
  assert (Hos : Forall (λ o, o ≠ Back) [Left; Skip; Right])
    by (repeat (apply Forall_cons_2; [intros H; discriminate H|]); apply Forall_nil_2).
  assert (Hfuel : (enough_judgments (length abcd) + length [Left; Skip; Right] <= 59)%nat)
    by (vm_compute; lia).
  split; [exact Hne|]. split; [exact Hnd|]. split; [exact Htr|]. split; [exact Hos|].
  split; [exact Hfuel|].
  exact (mergeSort_stops abcd _ 59 Hne Hnd Htr Hos Hfuel).
Defined.

(** X3. The pair for which the driver asks a judgment consists of two of the
    candidates, with different ids: the guard against a self-match in the
    inner loop never fires on candidates with distinct non-empty ids. *)
Theorem mergeSort_asks_two_candidates (items : list person) (os : list outcome)
    (fuel : nat) :
  NoDup (id <$> items) → Forall (λ p, id p ≠ "") items →
  Forall (λ o, o ≠ Back) os →
  match mergeSortDriver fuel items os with
  | Some (Waiting s a b) => a ∈ items ∧ b ∈ items ∧ id a ≠ id b
  | _ => True
  end.
Proof.
  intros Hnd Htr Hos. destruct (decide (items = [])) as [->|Hne]; [done|].
  pose proof (driver_inv items Hnd Htr fuel os Hne Hos) as H.
  destruct (mergeSortDriver fuel items os) as [[| | | |]|]; try done.
  by destruct H as (_ & ? & ? & ? & _).
Qed.

Lemma mergeSort_asks_two_candidates_witness :
  NoDup (id <$> abcd) ∧ Forall (λ p, id p ≠ "") abcd
  ∧ Forall (λ o, o ≠ Back) [Left; Skip; Right]
  ∧ match mergeSortDriver 40 abcd [Left; Skip; Right] with
    | Some (Waiting s a b) => a ∈ abcd ∧ b ∈ abcd ∧ id a ≠ id b
    | _ => True
    end.
Proof.
  assert (Hnd : NoDup (id <$> abcd)) by (apply (bool_decide_unpack _); by vm_compute).
  assert (Htr : Forall (λ p, id p ≠ "") abcd)
    by (repeat (apply Forall_cons_2; [intros H; discriminate H|]); apply Forall_nil_2).
  assert (Hos : Forall (λ o, o ≠ Back) [Left; Skip; Right])
    by (repeat (apply Forall_cons_2; [intros H; discriminate H|]); apply Forall_nil_2).
  split; [exact Hnd|]. split; [exact Htr|]. split; [exact Hos|].
  exact (mergeSort_asks_two_candidates abcd _ 40 Hnd Htr Hos).
Defined.

(** X4. While the driver waits for a judgment, the ranking that
    [computeProvisionalRanking] reads off the frame (the part of [arr] before
    the open block, the merged output, what is left of [L] and of [R], the
    part of [arr] after the block) is a permutation of the candidates. *)
Theorem provisional_ranking_permutation (items : list person) (os : list outcome)
    (fuel : nat) :
  NoDup (id <$> items) → Forall (λ p, id p ≠ "") items →
  Forall (λ o, o ≠ Back) os →
  match mergeSortDriver fuel items os with
  | Some (Waiting s a b) => computeProvisionalRanking items s ≡ₚ items
  | _ => True
  end.
Proof.
  intros Hnd Htr Hos. destruct (decide (items = [])) as [->|Hne]; [done|].
  pose proof (driver_inv items Hnd Htr fuel os Hne Hos) as H.
  destruct (mergeSortDriver fuel items os) as [[| | | |]|]; try done.
  by destruct H as (? & _).
Qed.

Lemma provisional_ranking_permutation_witness :
  NoDup (id <$> abcde) ∧ Forall (λ p, id p ≠ "") abcde
  ∧ Forall (λ o, o ≠ Back) [Left; Skip; Right; Tie; Right]
  ∧ match mergeSortDriver 40 abcde [Left; Skip; Right; Tie; Right] with
    | Some (Waiting s a b) => computeProvisionalRanking abcde s ≡ₚ abcde
    | _ => True
    end.
Proof.
  assert (Hnd : NoDup (id <$> abcde)) by (apply (bool_decide_unpack _); by vm_compute).
  assert (Htr : Forall (λ p, id p ≠ "") abcde)
    by (repeat (apply Forall_cons_2; [intros H; discriminate H|]); apply Forall_nil_2).
  assert (Hos : Forall (λ o, o ≠ Back) [Left; Skip; Right; Tie; Right])
    by (repeat (apply Forall_cons_2; [intros H; discriminate H|]); apply Forall_nil_2).
  split; [exact Hnd|]. split; [exact Htr|]. split; [exact Hos|].
  exact (provisional_ranking_permutation abcde _ 40 Hnd Htr Hos).
Defined.

(** ** The snapshot manager: what Back restores *)

Lemma bounded_push_snoc {A} cap (old : list A) x :
  (1 <= cap)%nat → ∃ l, bounded_push cap old x = l ++ [x] ∧ l `suffix_of` old.
Proof.
  intros Hc. unfold bounded_push. rewrite length_app. cbn [length].
  exists (drop (length old + 1 - cap) old). split.
  - rewrite drop_app_le by lia. done.
  - apply suffix_drop.
Qed.

Lemma bounded_push_last2 {A} cap (old : list A) y x :
  (2 <= cap)%nat → last old = Some y →
  ∃ l, bounded_push cap old x = l ++ [y; x].
Proof.
  intros Hc Hy. apply last_Some in Hy as [l' ->].
  unfold bounded_push. rewrite !length_app. cbn [length].
  exists (drop (length l' + 1 + 1 - cap) l').
  rewrite <- (assoc (++) l'). rewrite drop_app_le by lia. done.
Qed.

Lemma restoreFromUndo_snoc2 s l y x :
  undo s = l ++ [y; x] →
  restoreFromUndo s
  = (Sorter (if truthy (snap_mode y) then snap_mode y else mode s)
       (snap_active y) (snap_cache y) (snap_ties y) (snap_stack y) (result s)
       (l ++ [y]) (snap_totalComparisons y) (snap_elo y) (eloIntensity s)
       (Some (length l))
       (if snap_stack y is Some _ then Some (length l)
        else clip_index (length l + 1) (shared_arrays s)), true).
Proof.
  intros Hu. unfold restoreFromUndo. rewrite Hu.
  replace (l ++ [y; x]) with ((l ++ [y]) ++ [x]) by (by rewrite <- (assoc (++))).
  rewrite removelast_last, last_snoc, !length_app. cbn [length].
  replace (length l + 1 + 1 <? 2)%nat with false by (symmetry; apply Nat.ltb_ge; lia).
  replace (length l + 1 - 1)%nat with (length l) by lia. done.
Qed.

(** X5. [restoreFromUndo] returns [false], changing nothing, exactly when
    the undo stack holds fewer than two snapshots (the test [!prev] after the
    pop never fires); otherwise it pops one snapshot, so the oldest snapshot
    is never removed. *)
Theorem restoreFromUndo_keeps_oldest (s : sorter) :
  let s' := (restoreFromUndo s).1 in
  let ok := (restoreFromUndo s).2 in
  (ok = true ↔ (2 <= length (undo s))%nat)
  ∧ (ok = false → s' = s)
  ∧ (ok = true → (length (undo s') = length (undo s) - 1)%nat
                 ∧ head (undo s') = head (undo s)).
Proof.
  cbv zeta. unfold restoreFromUndo.
  destruct (Nat.ltb_spec (length (undo s)) 2) as [Hlt|Hge]; cbn [fst snd].
  { split; [split; [done|lia]|]. split; [done|done]. }
  destruct (undo s) as [|x [|y u]] eqn:Hu; [cbn in Hge; lia..|].
  assert (Hlast : ∃ l z w, x :: y :: u = l ++ [z; w] ∧ l ++ [z] = removelast (x :: y :: u)).
  { destruct (last_is_Some (y :: u)) as [_ [w Hw]]; [done|].
    apply last_Some in Hw as [l' Hl'].
    destruct (decide (l' = [])) as [->|Hne].
    - exists [], x, w. cbn in Hl'. rewrite Hl'. done.
    - destruct (last_is_Some l') as [_ [z Hz]]; [done|].
      apply last_Some in Hz as [l'' ->].
      exists (x :: l''), z, w. rewrite Hl'. rewrite <- (assoc (++) l'').
      split; [done|].
      change (x :: l'' ++ [z] ++ [w]) with ((x :: l'') ++ [z] ++ [w]).
      rewrite (assoc (++) (x :: l'')). by rewrite removelast_last. }
  destruct Hlast as (l & z & w & Heq & Hrl).
  rewrite <- Hrl, last_snoc. cbn [fst snd undo].
  split; [split; [cbn; lia|done]|]. split; [done|]. intros _.
  split.
  - rewrite Heq, !length_app. cbn. lia.
  - rewrite Heq. by destruct l.
Qed.

(** X6. Back returns to the previous request.  If a snapshot of [s] was
    pushed, the driver went on to a state [s2] without the stack of snapshots
    being touched, and a second snapshot was pushed, then [restoreFromUndo]
    succeeds and installs the frame, the cache, the ties, the counters and
    the ELO state that [s] had; the snapshot of [s] stays on top of the undo
    stack. *)
Theorem back_restores_previous_request (s s2 : sorter) :
  undo s2 = undo (pushUndoSnapshot s) →
  let r := (restoreFromUndo (pushUndoSnapshot s2)).1 in
  (restoreFromUndo (pushUndoSnapshot s2)).2 = true
  ∧ driver_state r = driver_state s
  ∧ totalComparisons r = totalComparisons s ∧ active r = active s ∧ elo r = elo s
  ∧ last (undo r) = Some (take_snapshot s).
Proof.
  intros Hu. cbv zeta.
  destruct (bounded_push_snoc MAX_UNDO (undo s) (take_snapshot s)) as (l & Hl & _);
    [unfold MAX_UNDO; lia|].
  destruct (bounded_push_last2 MAX_UNDO (undo s2) (take_snapshot s) (take_snapshot s2))
    as (l2 & Hl2); [unfold MAX_UNDO; lia| |].
  { rewrite Hu, pushUndoSnapshot_undo, Hl. apply last_snoc. }
  rewrite (restoreFromUndo_snoc2 _ l2 (take_snapshot s) (take_snapshot s2))
    by (by rewrite pushUndoSnapshot_undo).
  cbn [fst snd]. split; [done|]. split; [done|]. split; [done|]. split; [done|].
  split; [done|]. cbn [undo]. apply last_snoc.
Qed.

Lemma back_restores_previous_request_witness :
  let s := set_stack (Some (Frame 1 0 ["A"; "B"] ["A"] ["B"] [] 0 0)) defaultSorter in
  let s2 := finish pA pB (PNum 1)
              (set_stack (Some (Frame 1 0 ["A"; "B"] ["A"] ["B"] ["A"] 1 0))
                 (pushUndoSnapshot s)) in
  undo s2 = undo (pushUndoSnapshot s)
  ∧ cache s2 !! "A|B" = Some 1
  ∧ driver_state (restoreFromUndo (pushUndoSnapshot s2)).1 = driver_state s.
Proof.
  cbv zeta.
  assert (Hu : undo (finish pA pB (PNum 1)
                       (set_stack (Some (Frame 1 0 ["A"; "B"] ["A"] ["B"] ["A"] 1 0))
                          (pushUndoSnapshot
                             (set_stack (Some (Frame 1 0 ["A"; "B"] ["A"] ["B"] [] 0 0))
                                defaultSorter))))
               = undo (pushUndoSnapshot
                         (set_stack (Some (Frame 1 0 ["A"; "B"] ["A"] ["B"] [] 0 0))
                            defaultSorter)))
    by (vm_compute; reflexivity).
  split; [exact Hu|]. split; [vm_compute; reflexivity|].
  exact (proj1 (proj2 (back_restores_previous_request _ _ Hu))).
Defined.

(** X7. Back pressed again changes nothing.  In the state [s1] that a
    successful [restoreFromUndo] leaves, the driver asks again (pushing a
    snapshot of [s1]); when the answer is Back once more, the snapshot
    restored is the one [s1] came from, and the driver is in [s1] again: it
    never goes back by more than one request. *)
Theorem back_again_changes_nothing (s : sorter) (st1 : frame) (a b : person)
    (os : list outcome) :
  let s1 := (restoreFromUndo s).1 in
  (2 <= length (undo s) <= MAX_UNDO)%nat →
  stack s1 = Some st1 → cache s1 !! keyFor a b = None →
  ask st1 a b s1 (Back :: os) = Continue AtInner s1 os.
Proof.
  cbv zeta. intros [Hge Hle].
  destruct (undo s) as [|x0 u0] eqn:Hu; [cbn in Hge; lia|].
  destruct (last_is_Some (x0 :: u0)) as [_ [x Hx]]; [done|].
  apply last_Some in Hx as [l1 Hl1].
  destruct (last_is_Some l1) as [_ [y Hy]].
  { intros ->. rewrite Hl1 in Hge. cbn in Hge. lia. }
  apply last_Some in Hy as [l ->].
  rewrite <- (assoc (++) l) in Hl1. rewrite Hl1 in *. clear Hl1.
  rewrite (restoreFromUndo_snoc2 s l y x Hu). cbn [fst].
  set (s1 := Sorter _ _ _ _ _ _ _ _ _ _ _ _).
  intros Hst Hc. unfold ask.
  assert (Hset : set_stack (Some st1) s1 = s1).
  { subst s1. cbn [stack] in Hst. unfold set_stack. cbn. by rewrite Hst. }
  rewrite Hset.
  assert (Hlen : (length l + 2 <= MAX_UNDO)%nat).
  { rewrite !length_app in Hle. cbn [length] in Hle. lia. }
  assert (Hpush : undo (pushUndoSnapshot s1) = l ++ [y; take_snapshot s1]).
  { rewrite pushUndoSnapshot_undo. unfold bounded_push. subst s1. cbn [undo].
    rewrite !length_app. cbn [length].
    replace (length l + 1 + 1 - MAX_UNDO)%nat with 0%nat by lia.
    rewrite drop_0. by rewrite <- (assoc (++) l). }
  assert (Hcp : cache (pushUndoSnapshot s1) = cache s1)
    by (unfold pushUndoSnapshot; by destruct (_ <? _)%nat).
  unfold prefer. rewrite Hcp, Hc. cbn [outcome_val finish after_prefer].
  rewrite (restoreFromUndo_snoc2 _ l y (take_snapshot s1) Hpush).
  assert (Hfields : mode (pushUndoSnapshot s1) = mode s1
                    ∧ result (pushUndoSnapshot s1) = result s1
                    ∧ eloIntensity (pushUndoSnapshot s1) = eloIntensity s1
                    ∧ (snap_stack y = None →
                       clip_index (length l + 1) (shared_arrays (pushUndoSnapshot s1))
                       = shared_arrays s1)).
  { unfold pushUndoSnapshot. subst s1. cbn [undo]. rewrite !length_app. cbn [length].
    replace (MAX_UNDO <? length l + 1 + 1)%nat with false
      by (symmetry; apply Nat.ltb_ge; lia).
    cbn. split; [done|]. split; [done|]. split; [done|]. intros ->.
    unfold clip_index. destruct (shared_arrays s) as [j|]; [|done].
    destruct (Nat.ltb_spec j (length l + 1)) as [Hj|Hj]; [|done].
    by rewrite (proj2 (Nat.ltb_lt _ _) Hj). }
  destruct Hfields as (Hm & Hr & He & Hsa).
  rewrite Hm, Hr, He.
  subst s1. cbn [stack mode result eloIntensity shared_arrays] in *.
  destruct (snap_stack y) as [f|] eqn:Hsy.
  - injection Hst as ->. unfold set_stack. cbn.
    by destruct (truthy (snap_mode y)).
  - done.
Qed.

Lemma back_again_changes_nothing_witness :
  let s := pushUndoSnapshot
             (finish pA pB (PNum 1)
                (pushUndoSnapshot
                   (set_stack (Some (Frame 1 0 ["A"; "B"; "C"] ["A"] ["B"] [] 0 0))
                      defaultSorter))) in
  (2 <= length (undo s) <= MAX_UNDO)%nat
  ∧ ask (Frame 1 0 ["A"; "B"; "C"] ["A"] ["B"] [] 0 0) pA pB (restoreFromUndo s).1
      [Back; Left]
    = Continue AtInner (restoreFromUndo s).1 [Left].
Proof.
  cbv zeta.
  assert (Hlen : (2 <= length (undo (pushUndoSnapshot
             (finish pA pB (PNum 1)
                (pushUndoSnapshot
                   (set_stack (Some (Frame 1 0 ["A"; "B"; "C"] ["A"] ["B"] [] 0 0))
                      defaultSorter))))) <= MAX_UNDO)%nat)
    by (vm_compute; lia).
  split; [exact Hlen|].
  apply (back_again_changes_nothing _ _ pA pB [Left] Hlen); vm_compute; reflexivity.
Defined.

(** X8. The snapshot left on top of the undo stack by [restoreFromUndo] is
    not a copy: its [cache] and [ties] are the objects installed as the live
    ones.  A judgment recorded by [finish] after the restore is therefore
    found in that snapshot as well. *)
Theorem restored_snapshot_shares_cache (s : sorter) (a b : person) (v : Z) :
  (2 <= length (undo s))%nat →
  let s2 := finish a b (PNum v) (restoreFromUndo s).1 in
  snap_cache <$> last (undo s2) = Some (cache s2)
  ∧ snap_ties <$> last (undo s2) = Some (ties s2)
  ∧ cache s2 !! keyFor b a = Some (invert v).
Proof.
  intros Hge. cbv zeta.
  destruct (undo s) as [|x0 u0] eqn:Hu; [cbn in Hge; lia|].
  destruct (last_is_Some (x0 :: u0)) as [_ [x Hx]]; [done|].
  apply last_Some in Hx as [l1 Hl1].
  destruct (last_is_Some l1) as [_ [y Hy]].
  { intros ->. rewrite Hl1 in Hge. cbn in Hge. lia. }
  apply last_Some in Hy as [l ->].
  rewrite <- (assoc (++) l) in Hl1. rewrite Hl1 in *. clear Hl1.
  rewrite (restoreFromUndo_snoc2 s l y x Hu). cbn [fst].
  unfold finish, write_through.
  cbn [shared_maps shared_arrays set_maps stack undo cache ties set_undo].
  assert (Hmaps : ∀ c t,
            alter (snap_set_maps c t) (length l) (l ++ [y]) = l ++ [snap_set_maps c t y]).
  { intros c t. rewrite alter_app_r_alt by done. by rewrite Nat.sub_diag. }
  rewrite Hmaps.
  split; [|split].
  - destruct (snap_stack y) as [f|];
      [rewrite alter_app_r_alt by done; rewrite Nat.sub_diag; cbn [alter list_alter]
      |destruct (clip_index _ _)];
      by rewrite last_snoc.
  - destruct (snap_stack y) as [f|];
      [rewrite alter_app_r_alt by done; rewrite Nat.sub_diag; cbn [alter list_alter]
      |destruct (clip_index _ _)];
      by rewrite last_snoc.
  - apply lookup_insert_eq.
Qed.

Lemma restored_snapshot_shares_cache_witness :
  let s := pushUndoSnapshot
             (pushUndoSnapshot
                (set_stack (Some (Frame 1 0 ["A"; "B"] ["A"] ["B"] [] 0 0)) defaultSorter)) in
  let s2 := finish pA pB (PNum 1) (restoreFromUndo s).1 in
  (2 <= length (undo s))%nat
  ∧ snap_cache <$> last (undo s) = Some ∅
  ∧ snap_cache <$> last (undo s2) = Some (cache s2)
  ∧ cache s2 !! "B|A" = Some (-1).
Proof.
  cbv zeta.
  assert (Hlen : (2 <= length (undo (pushUndoSnapshot
             (pushUndoSnapshot
                (set_stack (Some (Frame 1 0 ["A"; "B"] ["A"] ["B"] [] 0 0))
                   defaultSorter)))))%nat)
    by (vm_compute; lia).
  split; [exact Hlen|]. split; [vm_compute; reflexivity|].
  destruct (restored_snapshot_shares_cache _ pA pB 1 Hlen) as (H1 & _ & H3).
  split; [exact H1|exact H3].
Defined.

(** ** The elimination picker: undo, redo, favorites, batches, completion *)

Module PickerMore.
Import PresidentialPicker.

Section WithRandom.
Variable random : nat → nat.

(** *** The history around an operation *)

Lemma pushHistory_last p :
  ∃ l, history (pushHistory p) = l ++ [getStateSnapshot p]
       ∧ historyIndex (pushHistory p) = Z.of_nat (length l).
Proof.
  unfold pushHistory. set (h0 := if _ <? _ then _ else _). clearbody h0.
  rewrite length_app. cbn [length].
  destruct (Nat.ltb_spec HISTORY_LIMIT (length h0 + 1)) as [Hlt|Hge].
  - destruct h0 as [|x h0]; [unfold HISTORY_LIMIT in Hlt; cbn in Hlt; lia|].
    exists h0. cbn. split; [done|]. lia.
  - exists h0. cbn. split; [done|]. lia.
Qed.

Lemma operation_history p p' :
  pass random p = Some p' ∨ (∃ pickedIds, pick random pickedIds p = Some p') →
  ∃ l, history p' = l ++ [getStateSnapshot p] ∧ historyIndex p' = Z.of_nat (length l).
Proof.
  intros Hop. destruct (pushHistory_last p) as (l & Hl & Hi). exists l.
  destruct Hop as [Hpass|[ids Hpick]].
  - apply (PickerFacts.pass_history random) in Hpass as [-> ->]. done.
  - apply (PickerFacts.pick_history random) in Hpick as [-> ->]. done.
Qed.

Lemma undo_at_end p l s :
  history p = l ++ [s] → historyIndex p = Z.of_nat (length l) →
  undo p = Some (set_history (l ++ [s; getStateSnapshot p]) (Z.of_nat (length l) - 1)
                   (restoreSnapshot s p)).
Proof.
  intros Hh Hi. unfold undo. rewrite Hh, Hi, length_app. cbn [length].
  replace (0 <=? Z.of_nat (length l)) with true by (symmetry; apply Z.leb_le; lia).
  replace (Z.of_nat (length l) =? Z.of_nat (length l + 1) - 1) with true
    by (symmetry; apply Z.eqb_eq; lia).
  cbn [negb]. rewrite Nat2Z.id, <- (assoc (++) l). cbn [app].
  rewrite list_lookup_middle by done. by rewrite <- (assoc (++) l).
Qed.

Lemma restoreSnapshot_get s p : getStateSnapshot (restoreSnapshot s p) = s.
Proof. by destruct s. Qed.

Lemma operation_undo_redo p p' :
  pass random p = Some p' ∨ (∃ pickedIds, pick random pickedIds p = Some p') →
  ∃ q r, undo p' = Some q ∧ getStateSnapshot q = getStateSnapshot p
         ∧ canRedo q = true
         ∧ redo q = Some r ∧ getStateSnapshot r = getStateSnapshot p'
         ∧ canRedo r = true ∧ redo r = None.
Proof.
  intros Hop. destruct (operation_history p p' Hop) as (l & Hh & Hi).
  rewrite (undo_at_end p' l _ Hh Hi).
  set (q := set_history _ _ _).
  assert (Hcq : canRedo q = true).
  { unfold canRedo. subst q. cbn [history historyIndex set_history restoreSnapshot].
    rewrite length_app. cbn [length]. apply Z.ltb_lt. lia. }
  assert (Hrq : redo q
                = Some (set_history (l ++ [getStateSnapshot p; getStateSnapshot p'])
                          (Z.of_nat (length l))
                          (restoreSnapshot (getStateSnapshot p') q))).
  { unfold redo. rewrite Hcq. cbn [negb]. subst q.
    cbn [history historyIndex set_history restoreSnapshot].
    replace (Z.of_nat (length l) - 1 + 1) with (Z.of_nat (length l)) by lia.
    replace (0 <=? Z.of_nat (length l) + 1) with true by (symmetry; apply Z.leb_le; lia).
    replace (Z.to_nat (Z.of_nat (length l) + 1)) with (length (l ++ [getStateSnapshot p]))
      by (rewrite length_app; cbn [length]; lia).
    replace (l ++ [getStateSnapshot p; getStateSnapshot p'])
      with ((l ++ [getStateSnapshot p]) ++ [getStateSnapshot p'])
      by (by rewrite <- (assoc (++) l)).
    by rewrite list_lookup_middle. }
  eexists q, _. split; [done|]. split; [apply restoreSnapshot_get|]. split; [done|].
  split; [exact Hrq|]. split; [apply restoreSnapshot_get|].
  set (r := set_history _ _ (restoreSnapshot (getStateSnapshot p') q)).
  assert (Hcr : canRedo r = true).
  { unfold canRedo. subst r. cbn [history historyIndex set_history restoreSnapshot].
    rewrite length_app. cbn [length]. apply Z.ltb_lt. lia. }
  split; [done|]. unfold redo. rewrite Hcr. cbn [negb]. subst r.
  cbn [history historyIndex set_history restoreSnapshot].
  replace (0 <=? Z.of_nat (length l) + 1 + 1) with true by (symmetry; apply Z.leb_le; lia).
  rewrite lookup_ge_None_2; [done|]. rewrite length_app. cbn [length]. lia.
Qed.

(** *** The favorites only grow *)

Lemma favorites_set_lists el sv cu ev fa p : favorites (set_lists el sv cu ev fa p) = fa.
Proof. done. Qed.

Lemma addToFavorites_prefix x p :
  favorites p `prefix_of` favorites (addToFavorites x p).
Proof.
  unfold addToFavorites.
  match goal with |- context [removeFromEliminated x ?q] =>
    destruct (PickerFacts.removeFromEliminated_pool x q) as (_ & _ & _ & -> & _) end.
  case_bool_decide; [done|]. cbn. by apply prefix_app_r.
Qed.

Lemma nextRound_prepare_prefix p :
  favorites p `prefix_of` favorites (nextRound_prepare random p).
Proof.
  unfold nextRound_prepare.
  set (p1 := match current p, survived p with
             | [], [newFavorite] => _
             | _, _ => p end).
  assert (H1 : favorites p `prefix_of` favorites p1).
  { subst p1. destruct (current p); [|done]. destruct (survived p) as [|x [|]]; try done.
    etrans; [|apply addToFavorites_prefix]. done. }
  destruct (shuffle _ _ _). by cbn.
Qed.

Lemma nextBatch_prefix fuel p p' :
  nextBatch random fuel p = Some p' → favorites p `prefix_of` favorites p'.
Proof.
  revert p. induction fuel as [|fuel IH]; intros p; [done|].
  cbn [nextBatch].
  set (p1 := if bool_decide _ then _ else p).
  assert (H1 : favorites p1 = favorites p) by (subst p1; by case_bool_decide).
  destruct (_ && _); [|intros [= <-]; cbn; by rewrite H1].
  intros Hnb. apply IH in Hnb. rewrite <- H1.
  etrans; [apply nextRound_prepare_prefix|done].
Qed.

(** *** The size of a batch *)

Lemma calculateBatchSize_range n : (2 <= calculateBatchSize n <= 6)%nat.
Proof. unfold calculateBatchSize, MIN_BATCH_SIZE, MAX_BATCH_SIZE. lia. Qed.

Lemma nextRound_prepare_batchSize p :
  (2 <= batchSize (nextRound_prepare random p) <= 6)%nat.
Proof.
  unfold nextRound_prepare. destruct (shuffle _ _ _). cbn [batchSize].
  apply calculateBatchSize_range.
Qed.

Lemma nextBatch_batch fuel p p' :
  (2 <= batchSize p <= 6)%nat → nextBatch random fuel p = Some p' →
  (length (evaluating p') <= batchSize p')%nat ∧ (2 <= batchSize p' <= 6)%nat.
Proof.
  revert p. induction fuel as [|fuel IH]; intros p Hb; [done|].
  cbn [nextBatch].
  set (p1 := if bool_decide _ then _ else p).
  assert (H1 : batchSize p1 = batchSize p) by (subst p1; by case_bool_decide).
  destruct (_ && _).
  - apply IH. apply nextRound_prepare_batchSize.
  - intros [= <-]. cbn. rewrite length_take, H1. lia.
Qed.

Lemma pushHistory_batch (P : state_snapshot → Prop) p :
  P (getStateSnapshot p) → Forall P (history p) → Forall P (history (pushHistory p)).
Proof.
  intros Hp Hh. unfold pushHistory.
  set (h0 := if _ <? _ then _ else _).
  assert (H0 : Forall P h0).
  { subst h0. destruct (_ <? _); [|done]. unfold slice. rewrite drop_0.
    by apply Forall_take. }
  assert (H1 : Forall P (h0 ++ [getStateSnapshot p])).
  { apply Forall_app. split; [done|]. by apply Forall_singleton. }
  destruct (_ <? _)%nat; cbn; [by apply Forall_drop|done].
Qed.

Lemma pushHistory_batchSize p : batchSize (pushHistory p) = batchSize p.
Proof. unfold pushHistory. by destruct (_ <? _)%nat. Qed.

Lemma reachable_batch items p :
  reachable random items p →
  ((length (evaluating p) <= batchSize p)%nat ∧ (2 <= batchSize p <= 6)%nat)
  ∧ Forall (λ s, (length (s_evaluating s) <= s_batchSize s)%nat
                 ∧ (2 <= s_batchSize s <= 6)%nat) (history p).
Proof.
  induction 1 as [p Hinit|p ids p' _ IH Hnd Hsub Hpick|p p' _ IH Hpass|p p' _ IH Hundo].
  - unfold initialize in Hinit. destruct (shuffle _ _ _) as [l k].
    pose proof (PickerFacts.nextBatch_history random _ _ _ Hinit) as [Hh _].
    apply nextBatch_batch in Hinit; [|apply calculateBatchSize_range].
    split; [done|]. rewrite Hh. cbn. apply Forall_nil_2.
  - destruct IH as [IH1 IH2].
    pose proof (PickerFacts.pick_history random _ _ _ Hpick) as [Hh _].
    split; [|rewrite Hh; by apply pushHistory_batch].
    revert Hpick. unfold pick. case_bool_decide.
    + intros [= <-]. cbn. rewrite pushHistory_batchSize. lia.
    + intros Hnb. apply nextBatch_batch in Hnb; [done|].
      cbn. rewrite pushHistory_batchSize. lia.
  - destruct IH as [IH1 IH2].
    pose proof (PickerFacts.pass_history random _ _ Hpass) as [Hh _].
    split; [|rewrite Hh; by apply pushHistory_batch].
    revert Hpass. unfold pass. intros Hnb. apply nextBatch_batch in Hnb; [done|].
    cbn. rewrite pushHistory_batchSize. lia.
  - destruct IH as [IH1 IH2]. revert Hundo. unfold undo.
    destruct (negb _); [by intros [= <-]|].
    set (h := if _ =? _ then _ else _).
    assert (Hh : Forall (λ s, (length (s_evaluating s) <= s_batchSize s)%nat
                              ∧ (2 <= s_batchSize s <= 6)%nat) h).
    { subst h. destruct (_ =? _); [|done]. apply Forall_app. split; [done|].
      by apply Forall_singleton. }
    destruct (h !! _) as [s|] eqn:Hs; [|done]. intros [= <-]. cbn.
    split; [|done]. by apply (Forall_lookup_1 _ _ _ _ Hh Hs).
Qed.

(** *** Completion *)






End WithRandom.

(** X9. Undo after a pick or a pass gives back what was there before it:
    the five collections, the batch size and the pick counter are those
    [getStateSnapshot] recorded, whatever the state of the picker was; and
    Redo is then available. *)
Theorem picker_undo_round_trip (random : nat → nat) (p p' : picker) :
  pass random p = Some p' ∨ (∃ pickedIds, pick random pickedIds p = Some p') →
  ∃ q, undo p' = Some q ∧ getStateSnapshot q = getStateSnapshot p ∧ canRedo q = true.
Proof.
  intros Hop. destruct (operation_undo_redo random p p' Hop) as (q & r & H1 & H2 & H3 & _).
  by exists q.
Qed.

(** X10. Redo after that Undo gives back the collections, the batch size
    and the pick counter as they were after the pick or pass. *)
Theorem picker_redo_round_trip (random : nat → nat) (p p' : picker) :
  pass random p = Some p' ∨ (∃ pickedIds, pick random pickedIds p = Some p') →
  ∃ q r, undo p' = Some q ∧ redo q = Some r
         ∧ getStateSnapshot r = getStateSnapshot p'.
Proof.
  intros Hop.
  destruct (operation_undo_redo random p p' Hop) as (q & r & H1 & _ & _ & H4 & H5 & _).
  by exists q, r.
Qed.

(** X11. After an Undo followed by a Redo nothing is left to redo, yet
    [canRedo] still answers [true], and [redo] then reads the history one
    entry past its end: [JSON.parse(undefined)] throws. *)
Theorem picker_redo_past_end (random : nat → nat) (p p' : picker) :
  pass random p = Some p' ∨ (∃ pickedIds, pick random pickedIds p = Some p') →
  ∃ q r, undo p' = Some q ∧ redo q = Some r ∧ canRedo r = true ∧ redo r = None.
Proof.
  intros Hop.
  destruct (operation_undo_redo random p p' Hop)
    as (q & r & H1 & _ & _ & H4 & _ & H6 & H7).
  by exists q, r.
Qed.

(** X12. A pick or a pass only appends to [favorites]: the list before is a
    prefix of the list after, through [nextBatch], [nextRound],
    [addToFavorites] and [removeFromEliminated]. *)
Theorem picker_favorites_append_only (random : nat → nat) (p p' : picker) :
  pass random p = Some p' ∨ (∃ pickedIds, pick random pickedIds p = Some p') →
  favorites p `prefix_of` favorites p'.
Proof.
  destruct (PickerFacts.pushHistory_lists p) as (H1 & H2 & H3 & H4 & H5).
  intros [Hpass|[ids Hpick]].
  - revert Hpass. unfold pass. intros Hpass. apply nextBatch_prefix in Hpass.
    rewrite favorites_set_lists, H5 in Hpass. exact Hpass.
  - revert Hpick. unfold pick.
    cbn [current survived evaluating eliminated favorites history historyIndex].
    rewrite H1, H2, H3, H4, H5.
    set (notPicked := filter (λ x, x ∉ ids) (evaluating p)). clearbody notPicked.
    case_bool_decide.
    + intros [= <-]. cbn [favorites set_lists]. by apply prefix_app_r.
    + intros Hnb. apply nextBatch_prefix in Hnb.
      cbn [favorites set_lists] in Hnb. exact Hnb.
Qed.

(** X13. In every state of a run ([initialize], then picks, passes and
    undos) the batch shown has at most [batchSize] candidates, and
    [batchSize] lies between 2 and 6. *)
Theorem picker_batch_size (random : nat → nat) (items : list person)
    (ops : list operation) (p : picker) :
  play random items ops = Some p →
  (length (evaluating p) <= batchSize p)%nat ∧ (2 <= batchSize p <= 6)%nat.
Proof.
  intros Hplay. apply PickerFacts.play_reachable in Hplay.
  by destruct (reachable_batch random items p Hplay) as [H _].
Qed.


(** X15. [reorderFavorites] with an order that is a rearrangement of the
    favorites installs exactly that order and touches nothing else, so the
    five collections still hold the same ids. *)
Theorem picker_reorderFavorites (newOrder : list string) (p : picker) :
  newOrder ≡ₚ favorites p →
  favorites (reorderFavorites newOrder p) = newOrder
  ∧ pool (reorderFavorites newOrder p) ≡ₚ pool p
  ∧ getRemainingCount (reorderFavorites newOrder p) = getRemainingCount p.
Proof.
  intros Hperm.
  assert (Hf : filter (λ x, x ∈ favorites p) newOrder = newOrder).
  { assert (Hall : Forall (λ x, x ∈ favorites p) newOrder).
    { apply Forall_forall. intros x Hx. by rewrite <- Hperm. }
    clear Hperm. induction Hall as [|x l Hx _ IH]; [done|].
    by rewrite filter_cons_True, IH. }
  unfold reorderFavorites. cbn. rewrite Hf. split; [done|]. split; [|done].
  unfold pool. cbn. by rewrite Hperm.
Qed.

End PickerMore.

Lemma picker_undo_round_trip_witness :
  ∃ p p', PresidentialPicker.play demo_random demo_items [] = Some p
    ∧ PresidentialPicker.pick demo_random ["a"] p = Some p'
    ∧ ∃ q, PresidentialPicker.undo p' = Some q
         ∧ PresidentialPicker.getStateSnapshot q = PresidentialPicker.getStateSnapshot p
         ∧ PresidentialPicker.canRedo q = true.
Proof.
  assert (H : { p & { p' | PresidentialPicker.play demo_random demo_items [] = Some p
                           ∧ PresidentialPicker.pick demo_random ["a"] p = Some p' } })
    by (eexists _, _; split; [vm_compute; reflexivity|vm_compute; reflexivity]).
  destruct H as (p & p' & Hp & Hop).
  exists p, p'. split; [exact Hp|]. split; [exact Hop|].
  apply (PickerMore.picker_undo_round_trip demo_random p p').
  right. exists ["a"]. exact Hop.
Defined.

Lemma picker_redo_round_trip_witness :
  ∃ p p', PresidentialPicker.play demo_random demo_items [PresidentialPicker.Pick ["a"]]
          = Some p
    ∧ PresidentialPicker.pass demo_random p = Some p'
    ∧ ∃ q r, PresidentialPicker.undo p' = Some q ∧ PresidentialPicker.redo q = Some r
         ∧ PresidentialPicker.getStateSnapshot r = PresidentialPicker.getStateSnapshot p'.
Proof.
  assert (H : { p & { p' | PresidentialPicker.play demo_random demo_items
                             [PresidentialPicker.Pick ["a"]] = Some p
                           ∧ PresidentialPicker.pass demo_random p = Some p' } })
    by (eexists _, _; split; [vm_compute; reflexivity|vm_compute; reflexivity]).
  destruct H as (p & p' & Hp & Hop).
  exists p, p'. split; [exact Hp|]. split; [exact Hop|].
  apply (PickerMore.picker_redo_round_trip demo_random p p').
  left. exact Hop.
Defined.

Lemma picker_redo_past_end_witness :
  ∃ p p', PresidentialPicker.play demo_random two_items [] = Some p
    ∧ PresidentialPicker.pass demo_random p = Some p'
    ∧ ∃ q r, PresidentialPicker.undo p' = Some q ∧ PresidentialPicker.redo q = Some r
         ∧ PresidentialPicker.canRedo r = true ∧ PresidentialPicker.redo r = None.
Proof.
  assert (H : { p & { p' | PresidentialPicker.play demo_random two_items [] = Some p
                           ∧ PresidentialPicker.pass demo_random p = Some p' } })
    by (eexists _, _; split; [vm_compute; reflexivity|vm_compute; reflexivity]).
  destruct H as (p & p' & Hp & Hop).
  exists p, p'. split; [exact Hp|]. split; [exact Hop|].
  apply (PickerMore.picker_redo_past_end demo_random p p').
  left. exact Hop.
Defined.

Lemma picker_favorites_append_only_witness :
  ∃ p p', PresidentialPicker.play demo_random two_items [] = Some p
    ∧ PresidentialPicker.pick demo_random ["a"] p = Some p'
    ∧ PresidentialPicker.favorites p' = ["a"; "b"]
    ∧ PresidentialPicker.favorites p `prefix_of` PresidentialPicker.favorites p'.
Proof.
  assert (H : { p & { p' | PresidentialPicker.play demo_random two_items [] = Some p
                           ∧ PresidentialPicker.pick demo_random ["a"] p = Some p'
                           ∧ PresidentialPicker.favorites p' = ["a"; "b"] } })
    by (eexists _, _; split; [vm_compute; reflexivity|split; [vm_compute; reflexivity|vm_compute; reflexivity]]).
  destruct H as (p & p' & Hp & Hop & Hf).
  exists p, p'. split; [exact Hp|]. split; [exact Hop|]. split; [exact Hf|].
  apply (PickerMore.picker_favorites_append_only demo_random p p').
  right. exists ["a"]. exact Hop.
Defined.

Lemma picker_batch_size_witness :
  ∃ p, PresidentialPicker.play demo_random demo_items
         [PresidentialPicker.Pick ["a"]; PresidentialPicker.Pass; PresidentialPicker.Undo]
       = Some p
     ∧ (length (PresidentialPicker.evaluating p) <= PresidentialPicker.batchSize p)%nat
     ∧ (2 <= PresidentialPicker.batchSize p <= 6)%nat.
Proof.
  eexists. split; [vm_compute; reflexivity|].
  apply (PickerMore.picker_batch_size demo_random demo_items
           [PresidentialPicker.Pick ["a"]; PresidentialPicker.Pass; PresidentialPicker.Undo]).
  vm_compute; reflexivity.
Defined.


Lemma picker_reorderFavorites_witness :
  ∃ p, PresidentialPicker.play demo_random two_items [PresidentialPicker.Pick ["a"]] = Some p
     ∧ ["b"; "a"] ≡ₚ PresidentialPicker.favorites p
     ∧ PresidentialPicker.favorites (PresidentialPicker.reorderFavorites ["b"; "a"] p)
       = ["b"; "a"].
Proof.
  assert (H : { p | PresidentialPicker.play demo_random two_items
                      [PresidentialPicker.Pick ["a"]] = Some p
                    ∧ PresidentialPicker.favorites p = ["a"; "b"] })
    by (eexists; split; [vm_compute; reflexivity|vm_compute; reflexivity]).
  destruct H as (p & Hp & Hf). exists p. split; [exact Hp|].
  assert (Hperm : ["b"; "a"] ≡ₚ PresidentialPicker.favorites p)
    by (rewrite Hf; apply perm_swap).
  split; [exact Hperm|].
  exact (proj1 (PickerMore.picker_reorderFavorites ["b"; "a"] p Hperm)).
Defined.

Lemma picker_run_total_witness :
  ∃ p, NoDup (id <$> demo_items)
     ∧ PresidentialPicker.play demo_random demo_items
         [PresidentialPicker.Pick ["a"]; PresidentialPicker.Pass; PresidentialPicker.Undo]
       = Some p
     ∧ is_Some (PresidentialPicker.pass demo_random p)
     ∧ is_Some (PresidentialPicker.undo p)
     ∧ is_Some (PresidentialPicker.pick demo_random ["c"] p).
Proof.
  assert (Hnd : NoDup (id <$> demo_items)) by (apply (bool_decide_unpack _); by vm_compute).
  assert (H : { p | PresidentialPicker.play demo_random demo_items
                      [PresidentialPicker.Pick ["a"]; PresidentialPicker.Pass;
                       PresidentialPicker.Undo] = Some p })
    by (eexists; vm_compute; reflexivity).
  destruct H as (p & Hp). exists p. split; [exact Hnd|]. split; [exact Hp|].
  destruct (PickerFacts.picker_run_total demo_random demo_items _ p Hnd Hp)
    as (_ & H1 & H2 & H3).
  split; [exact H1|]. split; [exact H2|]. exact (H3 ["c"]).
Defined.

(** ** The seeded shuffle keeps the candidates *)

Lemma swap_guarded_perm {A} (a : list A) i j : swap_guarded a i j ≡ₚ a.
Proof.
  unfold swap_guarded. destruct (0 <=? j); [|done].
  destruct (a !! i) as [x|] eqn:Hi; [|done].
  destruct (a !! Z.to_nat j) as [y|] eqn:Hj; [|done].
  by apply Permutation_insert_swap.
Qed.

Lemma shuffle_pass_perm {A} i state (a : list A) : (shuffle_pass i state a).2 ≡ₚ a.
Proof.
  revert state a. induction i as [|i IH]; intros state a; [done|].
  cbn [shuffle_pass]. destruct (rand_next state) as [state' r].
  rewrite IH. apply swap_guarded_perm.
Qed.

Lemma shuffle_rounds_perm {A} k n state (a : list A) : shuffle_rounds k n state a ≡ₚ a.
Proof.
  revert n state a. induction k as [|k IH]; intros n state a; [done|].
  cbn [shuffle_rounds]. destruct (rand_next state) as [state' r].
  destruct (n <? 2 + floor_scaled r 3); [|done].
  pose proof (shuffle_pass_perm (length a - 1) state' a) as Hp.
  destruct (shuffle_pass (length a - 1) state' a) as [state'' a']. cbn [snd] in Hp.
  by rewrite IH.
Qed.

(** X17. [seededShuffle] returns a rearrangement of the entries of the
    array that have a non-empty id: none is lost or repeated, and the
    entries with an empty id are dropped. *)
Theorem seededShuffle_permutation (array : list person) (seed : Z) :
  seededShuffle array seed ≡ₚ filter (λ v, truthy (id v) = true) array
  ∧ (Forall (λ v, id v ≠ "") array → seededShuffle array seed ≡ₚ array).
Proof.
  assert (H : seededShuffle array seed ≡ₚ filter (λ v, truthy (id v) = true) array)
    by apply shuffle_rounds_perm.
  split; [exact H|]. intros Hall. rewrite H. clear H.
  apply reflexive_eq. induction Hall as [|x l Hx _ IH]; [done|].
  rewrite filter_cons_True; [by rewrite IH|].
  unfold truthy. by apply bool_decide_eq_true_2.
Qed.

(** ** ELO mode: the seeded queue *)




Lemma adjacent_pairs_length (l : list string) :
  length (adjacent_pairs l) = (length l - 1)%nat.
Proof.
  induction l as [|a [|b l] IH]; [done|done|].
  cbn [adjacent_pairs length] in *. lia.
Qed.



(** ** Ids and candidates *)

Lemma idMapOf_foldl_id (data : list person) (m : gmap string person) x :
  (∀ k p, m !! k = Some p → id p = k) →
  x ∈ id <$> data ∨ is_Some (m !! x) →
  ∃ p, foldl (λ m p, <[id p := p]> m) m data !! x = Some p ∧ id p = x.
Proof.
  revert m. induction data as [|q data IH]; intros m Hm Hx; cbn [foldl].
  - destruct Hx as [Hx|[p Hp]]; [by apply elem_of_nil in Hx|].
    exists p. split; [done|]. by apply Hm.
  - apply IH.
    + intros k p. destruct (decide (k = id q)) as [->|Hne].
      * rewrite lookup_insert_eq. by intros [= ->].
      * rewrite lookup_insert_ne by done. apply Hm.
    + rewrite fmap_cons, elem_of_cons in Hx.
      destruct (decide (x = id q)) as [->|Hne].
      * right. rewrite lookup_insert_eq. by eexists.
      * rewrite lookup_insert_ne by done.
        destruct Hx as [[Hx|Hx]|Hx]; [done|by left|by right].
Qed.

(** X19. Ids to candidates and back.  [objsOf(idsOf(items), idMap)] with the
    map built from [items] gives [items] again when the ids are distinct;
    whatever the ids, it gives candidates with the same ids in the same
    order (for an id that occurs twice, the last candidate carrying it). *)
Theorem objsOf_idsOf_round_trip (items : list person) :
  idsOf (objsOf (idsOf items) (idMapOf items)) = idsOf items
  ∧ (NoDup (idsOf items) → objsOf (idsOf items) (idMapOf items) = items).
Proof.
  split; [|intros Hnd; by apply objsOf_items].
  unfold idsOf, objsOf.
  assert (H : ∀ l, l ⊆ id <$> items → id <$> omap (λ x, idMapOf items !! x) l = l).
  { induction l as [|x l IH]; intros Hl; [done|].
    destruct (idMapOf_foldl_id items ∅ x) as (p & Hp & Hid).
    - intros k p Hk. by rewrite lookup_empty in Hk.
    - left. apply Hl. left.
    - cbn [omap list_omap]. unfold idMapOf. rewrite Hp. cbn. rewrite Hid. f_equal.
      apply IH. intros y Hy. apply Hl. by right. }
  by apply H.
Qed.

(** ** The tier wizard: Previous undoes Next, and the tiers get the counts *)

(** X20. Before the last tier, Previous after Next is back at the same tier
    with the same cursor; the count typed in for the tier stays recorded. *)
Theorem prevCut_undoes_nextCut (v : Z) (cs : cut_state) :
  (pos cs < length CUTOFF_TIERS - 1)%nat →
  let cs' := prevCut (nextCut v cs) in
  pos cs' = pos cs ∧ cursor cs' = cursor cs ∧ rankIds cs' = rankIds cs
  ∧ chosen cs' = chosen (applyCut v cs).
Proof.
  intros Hp. cbv zeta. unfold prevCut, nextCut.
  cbn [pos chosen cursor rankIds applyCut].
  rewrite (proj2 (Nat.ltb_lt _ _) Hp).
  rewrite bool_decide_eq_false_2 by done. cbn [pos chosen cursor rankIds].
  replace (S (pos cs) - 1)%nat with (pos cs) by lia.
  split; [done|]. split; [lia|]. done.
Qed.

Lemma prevCut_undoes_nextCut_witness :
  let cs := nextCut 2 (CutState ["a"; "b"; "c"; "d"; "e"] 0 ∅ 0) in
  (pos cs < length CUTOFF_TIERS - 1)%nat
  ∧ pos (prevCut (nextCut 9 cs)) = 1%nat ∧ cursor (prevCut (nextCut 9 cs)) = 2.
Proof.
  cbv zeta.
  assert (Hp : (pos (nextCut 2 (CutState ["a"; "b"; "c"; "d"; "e"] 0 ∅ 0))
                < length CUTOFF_TIERS - 1)%nat) by (vm_compute; lia).
  split; [exact Hp|].
  destruct (prevCut_undoes_nextCut 9 _ Hp) as (H1 & H2 & _).
  split; [exact H1|exact H2].
Defined.

Lemma cut_exact_nextCut v cs :
  (pos cs < length CUTOFF_TIERS - 1)%nat → cut_exact cs → cut_exact (nextCut v cs).
Proof.
  unfold cut_exact, nextCut, applyCut. cbn [pos chosen cursor rankIds].
  intros Hp Hs. rewrite (proj2 (Nat.ltb_lt _ _) Hp).
  rewrite chosen_or_0_insert, decide_True by done. rewrite Hs. clear Hs.
  remember (pos cs) as p. clear Heqp.
  each_pos p; cbn; rewrite ?chosen_or_0_insert; repeat case_decide; try done; lia.
Qed.

Lemma cut_exact_prevCut cs :
  (pos cs < length CUTOFF_TIERS)%nat → cut_exact cs → cut_exact (prevCut cs).
Proof.
  unfold cut_exact, prevCut. intros Hp Hs. case_bool_decide; [done|].
  cbn [pos chosen cursor rankIds]. rewrite Hs. clear Hs.
  remember (pos cs) as p. clear Heqp.
  each_pos p; cbn; try done; unfold tier_at; cbn; lia.
Qed.

Lemma cut_exact_moves ms cs :
  moves_enabled cs ms = true → cut_inv cs → cut_exact cs →
  cut_exact (foldl cut_step cs ms).
Proof.
  revert cs. induction ms as [|m ms IH]; intros cs Hen Hinv Hex; [done|].
  cbn [foldl]. cbn [moves_enabled] in Hen. apply andb_prop in Hen as [Hm Hen].
  apply IH; [done| |].
  - destruct m; [by apply cut_inv_nextCut|by apply cut_inv_prevCut].
  - destruct m.
    + apply cut_exact_nextCut; [|done]. by apply Nat.ltb_lt.
    + apply cut_exact_prevCut; [|done]. by destruct Hinv.
Qed.

Lemma fill_tiers_exact ids c ts cur tiers tiers' cur' :
  NoDup ts → (∀ t, 0 <= chosen_or_0 c t) →
  Z.of_nat cur + chosen_sum c ts <= Z.of_nat (length ids) →
  fill_tiers ids c ts cur tiers = (tiers', cur') →
  Z.of_nat cur' = Z.of_nat cur + chosen_sum c ts
  ∧ (∀ t, t ∈ ts → Z.of_nat (length (tier_ids tiers' t)) = chosen_or_0 c t).
Proof.
  revert cur tiers. induction ts as [|t ts IH]; intros cur tiers Hnd Hc Hsum Hfill.
  - cbn in Hfill. injection Hfill as <- <-. cbn. split; [lia|].
    intros t Ht. by apply elem_of_nil in Ht.
  - cbn [fill_tiers] in Hfill. cbn [chosen_sum] in Hsum |- *.
    apply NoDup_cons in Hnd as [Hnin Hnd].
    pose proof (Hc t) as Ht0.
    assert (Hrest : 0 <= chosen_sum c ts).
    { clear -Hc. induction ts as [|t' ts IH]; cbn; [lia|]. pose proof (Hc t'). lia. }
    set (n := Z.to_nat (Z.max 0 (Z.min (Z.of_nat (length ids) - Z.of_nat cur)
                                   (chosen_or_0 c t)))) in *.
    assert (Hn : Z.of_nat n = chosen_or_0 c t) by (unfold n; lia).
    assert (Hsum' : Z.of_nat (cur + n) + chosen_sum c ts <= Z.of_nat (length ids)) by lia.
    destruct (IH _ _ Hnd Hc Hsum' Hfill) as (Hcur' & Hlen).
    split; [lia|]. intros t' [->|Ht']%elem_of_cons.
    + assert (Hcurn : (cur + n <= length ids)%nat) by lia.
      destruct (fill_tiers_spec _ _ _ _ _ _ _ Hnd Hcurn Hfill) as (_ & _ & Hout).
      unfold tier_ids. rewrite (Hout t Hnin), lookup_insert_eq. cbn [default].
      unfold Datatypes.id, slice. rewrite length_take, length_drop. lia.
    + by apply Hlen.
Qed.

(** X21. When the wizard is driven as its buttons allow (Next only before
    the last tier) and Apply is pressed on the last tier, every tier from SS
    to F receives exactly the count recorded for it, and Unplaced the rest:
    the second clamp, in [applyCutoffsToTiers], never cuts anything. *)
Theorem tier_counts_as_chosen (ranking : list string) (cs0 : cut_state)
    (ms : list cut_move) (v : Z) :
  startCutoffs ranking = Some cs0 →
  moves_enabled cs0 ms = true →
  let cs := foldl cut_step cs0 ms in
  pos cs = (length CUTOFF_TIERS - 1)%nat →
  let c := chosen (applyCut v cs) in
  let tiers := applyButton v cs in
  (∀ t, t ∈ CUTOFF_TIERS → Z.of_nat (length (tier_ids tiers t)) = chosen_or_0 c t)
  ∧ Z.of_nat (length (tier_ids tiers "Unplaced"))
    = Z.of_nat (length ranking) - chosen_sum c CUTOFF_TIERS.
Proof.
  intros Hstart Hen cs Hpos c tiers.
  destruct (cut_inv_start _ _ Hstart) as [Hinv0 Hids].
  assert (Hex0 : cut_exact cs0).
  { revert Hstart. unfold startCutoffs. case_bool_decide; [done|]. by intros [= <-]. }
  pose proof (cut_inv_moves ms _ Hinv0) as Hinv. fold cs in Hinv.
  pose proof (cut_exact_moves ms _ Hen Hinv0 Hex0) as Hex. fold cs in Hex.
  assert (Hr : rankIds cs = ranking) by (unfold cs; by rewrite rankIds_moves).
  pose proof (cut_inv_applyCut v cs Hinv) as (_ & Hc & _ & _). fold c in Hc.
  assert (Hsum : chosen_sum c CUTOFF_TIERS <= Z.of_nat (length ranking)).
  { destruct Hinv as (_ & Hc0 & _ & Hl). rewrite Hr in Hl.
    pose proof (applyCut_count v cs ltac:(rewrite Hr; lia)) as Hcount. fold c in Hcount.
    rewrite Hr in Hcount. unfold cut_exact in Hex. rewrite Hpos in Hex, Hcount.
    subst c. unfold applyCut in *. cbn [chosen] in *. rewrite Hpos in *.
    cbn in Hex, Hcount |- *. rewrite !chosen_or_0_insert in *.
    repeat case_decide; try done. lia. }
  subst tiers. unfold applyButton, applyCutoffsToTiers.
  change (chosen (applyCut v cs)) with c.
  change (rankIds (applyCut v cs)) with (rankIds cs). rewrite Hr.
  destruct (fill_tiers _ _ _ _ _) as [tiers cur] eqn:Hfill.
  assert (Hnd : NoDup CUTOFF_TIERS) by (apply (bool_decide_unpack _); by vm_compute).
  assert (Hsum0 : Z.of_nat 0 + chosen_sum c CUTOFF_TIERS <= Z.of_nat (length ranking))
    by (cbn [Z.of_nat]; lia).
  destruct (fill_tiers_exact _ _ _ _ _ _ _ Hnd Hc Hsum0 Hfill) as (Hcur & Hlen).
  split.
  - intros t Ht. unfold tier_ids. rewrite lookup_insert_ne.
    + by apply Hlen.
    + intros <-. revert Ht. apply (bool_decide_unpack _). by vm_compute.
  - unfold tier_ids. rewrite lookup_insert_eq. cbn [default]. unfold Datatypes.id.
    rewrite length_drop. lia.
Qed.

Lemma tier_counts_as_chosen_witness :
  let ms := [Next 1; Next 2; Prev; Next 1; Next 0; Next 0; Next 0; Next 1] in
  let cs0 := CutState ["a"; "b"; "c"; "d"; "e"] 0 ∅ 0 in
  let tiers := applyButton 9 (foldl cut_step cs0 ms) in
  startCutoffs ["a"; "b"; "c"; "d"; "e"] = Some cs0
  ∧ moves_enabled cs0 ms = true
  ∧ pos (foldl cut_step cs0 ms) = (length CUTOFF_TIERS - 1)%nat
  ∧ Z.of_nat (length (tier_ids tiers "F"))
    = chosen_or_0 (chosen (applyCut 9 (foldl cut_step cs0 ms))) "F"
  ∧ length (tier_ids tiers "F") = 2%nat.
Proof.
  cbv zeta.
  assert (Hen : moves_enabled (CutState ["a"; "b"; "c"; "d"; "e"] 0 ∅ 0)
                  [Next 1; Next 2; Prev; Next 1; Next 0; Next 0; Next 0; Next 1] = true)
    by (vm_compute; reflexivity).
  assert (Hpos : pos (foldl cut_step (CutState ["a"; "b"; "c"; "d"; "e"] 0 ∅ 0)
                        [Next 1; Next 2; Prev; Next 1; Next 0; Next 0; Next 0; Next 1])
                 = (length CUTOFF_TIERS - 1)%nat)
    by (vm_compute; reflexivity).
  split; [reflexivity|]. split; [exact Hen|]. split; [exact Hpos|].
  split; [|vm_compute; reflexivity].
  apply (proj1 (tier_counts_as_chosen ["a"; "b"; "c"; "d"; "e"] _ _ 9 eq_refl Hen Hpos)).
  apply (bool_decide_unpack _). by vm_compute.
Defined.

(** ** Starting a sort: shuffle, then merge sort *)

Lemma filter_truthy_Forall (l : list person) :
  Forall (λ p, id p ≠ "") (filter (λ p, truthy (id p) = true) l).
Proof.
  apply Forall_forall. intros p Hp. apply list_elem_of_filter in Hp as [Hp _].
  unfold truthy in Hp. by apply bool_decide_eq_true_1 in Hp.
Qed.

Lemma filter_truthy_fixed (l : list person) :
  Forall (λ p, id p ≠ "") l → filter (λ p, truthy (id p) = true) l = l.
Proof.
  induction 1 as [|x l Hx _ IH]; [done|].
  rewrite filter_cons_True; [by rewrite IH|].
  unfold truthy. by apply bool_decide_eq_true_2.
Qed.

(** X22. [startSorting] as a whole: the candidates with an id are shuffled
    by [seededShuffle] and sorted by the merge sort driver with the id map
    of the unshuffled data.  With distinct ids and answers of Left, Tie,
    Right and Skip, a run that finishes leaves in [result] a permutation of
    the candidates that have an id; it throws only when there is none. *)
Theorem startSorting_ranking_permutation (fresh : list person) (seed : Z)
    (os : list outcome) (fuel : nat) :
  NoDup (id <$> fresh) → Forall (λ o, o ≠ Back) os →
  let source := filter (λ p, truthy (id p) = true) fresh in
  match startSorting fuel fresh seed os with
  | Some (Finished s) => ∃ r, result s = Some r ∧ r ≡ₚ source
  | Some (Waiting s a b) => a ∈ source ∧ b ∈ source ∧ id a ≠ id b
  | Some (Threw _) | Some (Returned _) => False
  | Some (Continue _ _ _) => (fuel < enough_judgments (length source) + length os)%nat
  | None => source = []
  end.
Proof.
  intros Hnd Hos source. unfold startSorting. fold source.
  case_bool_decide as Hne; [done|].
  assert (Htr : Forall (λ p, id p ≠ "") source) by apply filter_truthy_Forall.
  assert (Hnds : NoDup (id <$> source)).
  { apply (sublist_NoDup _ (id <$> fresh)); [done|]. apply fmap_sublist, sublist_filter. }
  assert (Hperm : seededShuffle source seed ≡ₚ source).
  { unfold seededShuffle. rewrite shuffle_rounds_perm. by rewrite filter_truthy_fixed. }
  set (items := seededShuffle source seed) in *.
  assert (Hine : items ≠ []).
  { intros Hnil. rewrite Hnil in Hperm. by apply Permutation_nil_l in Hperm. }
  unfold initSort. rewrite bool_decide_eq_false_2 by done. cbn [mbind option_bind].
  assert (Harr : filter_truthy (idsOf items) = id <$> items).
  { apply filter_truthy_id. apply Forall_fmap. rewrite Hperm. exact Htr. }
  rewrite Harr.
  set (st0 := Frame 1 0 (id <$> items) [] [] [] 0 0).
  set (s0 := pushUndoSnapshot _).
  assert (Hst : stack s0 = Some st0) by (subst s0; by rewrite stack_pushUndoSnapshot).
  assert (Hinv : frame_inv (id <$> source) AtOuter st0).
  { split; [|by repeat split]. cbn [st_arr st0]. by rewrite Hperm. }
  assert (HN : length (id <$> items) = length source).
  { rewrite length_fmap. by apply Permutation_length. }
  unfold continueSort. rewrite Hst. cbn [st_arr st0]. rewrite HN.
  pose proof (run_inv source Hnds Htr fuel AtOuter s0 os st0 Hst Hinv Hos) as H.
  assert (Hit : (iterations_left (length source) AtOuter st0
                 < enough_judgments (length source))%nat).
  { assert (HN1 : length source ≠ 0%nat) by (intros E; by apply Hne, nil_length_inv).
    unfold iterations_left, enough_judgments. subst st0. cbn [st_width st_i].
    generalize dependent (length source). intros M _ _ HM.
    destruct M as [|M]; [done|]. replace (S M - 1)%nat with M by lia. nia. }
  clearbody s0 st0 items source.
  destruct (run fuel (length source) (idMapOf source) AtOuter s0 os)
    as [p' s' os'| |s' a b| |].
  - lia.
  - exact H.
  - destruct H as (_ & Ha & Hb & Hab & _). split; [exact Ha|]. split; [exact Hb|exact Hab].
  - exact H.
  - exact H.
Qed.

Lemma startSorting_ranking_permutation_witness :
  NoDup (id <$> (Person "" "nobody" :: abcde))
  ∧ Forall (λ o, o ≠ Back) [Left; Skip; Right; Tie; Skip; Left; Right; Right; Left; Left]
  ∧ match startSorting 60 (Person "" "nobody" :: abcde) 7
            [Left; Skip; Right; Tie; Skip; Left; Right; Right; Left; Left] with
    | Some (Finished s) =>
        ∃ r, result s = Some r
             ∧ r ≡ₚ filter (λ p, truthy (id p) = true) (Person "" "nobody" :: abcde)
    | Some (Waiting s a b) =>
        a ∈ filter (λ p, truthy (id p) = true) (Person "" "nobody" :: abcde)
        ∧ b ∈ filter (λ p, truthy (id p) = true) (Person "" "nobody" :: abcde)
        ∧ id a ≠ id b
    | Some (Threw _) | Some (Returned _) => False
    | Some (Continue _ _ _) =>
        (60 < enough_judgments
                (length (filter (λ p, truthy (id p) = true) (Person "" "nobody" :: abcde)))
              + length [Left; Skip; Right; Tie; Skip; Left; Right; Right; Left; Left])%nat
    | None => filter (λ p, truthy (id p) = true) (Person "" "nobody" :: abcde) = []
    end.
Proof.
  assert (Hnd : NoDup (id <$> (Person "" "nobody" :: abcde)))
    by (apply (bool_decide_unpack _); by vm_compute).
  assert (Hos : Forall (λ o, o ≠ Back)
                  [Left; Skip; Right; Tie; Skip; Left; Right; Right; Left; Left])
    by (repeat (apply Forall_cons_2; [intros H; discriminate H|]); apply Forall_nil_2).
  split; [exact Hnd|]. split; [exact Hos|].
  exact (startSorting_ranking_permutation _ 7 _ 60 Hnd Hos).
Defined.

(** ** Loading a saved frame *)

Lemma to_int32_small x : 0 <= x < 2147483648 → to_int32 x = x.
Proof. intros Hx. unfold to_int32, two32. rewrite Z.mod_small; lia. Qed.

Lemma filter_known_fixed (ids l : list string) :
  Forall (λ x, x ∈ ids) l → filter (λ x, x ∈ ids) l = l.
Proof.
  induction 1 as [|x l Hx _ IH]; [done|]. by rewrite filter_cons_True, IH.
Qed.

Lemma filter_known_Forall (ids l : list string) :
  Forall (λ x, x ∈ ids) (filter (λ x, x ∈ ids) l).
Proof.
  apply Forall_forall. intros x Hx. by apply list_elem_of_filter in Hx as [Hx _].
Qed.

(** X23. Whatever frame is read from storage, [sanitizeState] (which
    repairs the frame when there are candidates) leaves one whose cursors
    lie inside their arrays ([li <= |L|], [rj <= |R|], [i <= |arr|]), whose
    width is at least 1, and whose four arrays hold ids of the loaded
    candidates only. *)
Theorem sanitizeStack_bounds (data : list person) (f : saved_frame) :
  data ≠ [] →
  let st := sanitizeStack data f in
  (st_li st <= length (st_L st))%nat ∧ (st_rj st <= length (st_R st))%nat
  ∧ (st_i st <= length (st_arr st))%nat ∧ (1 <= st_width st)%nat
  ∧ Forall (λ x, x ∈ id <$> data) (st_arr st)
  ∧ Forall (λ x, x ∈ id <$> data) (st_L st)
  ∧ Forall (λ x, x ∈ id <$> data) (st_R st)
  ∧ Forall (λ x, x ∈ id <$> data) (st_out st).
Proof.
  intros _. cbv zeta. unfold sanitizeStack.
  cbn [st_li st_rj st_i st_width st_L st_R st_arr st_out].
  split; [lia|]. split; [lia|]. split; [lia|]. split; [lia|].
  repeat split; apply filter_known_Forall.
Qed.

Lemma sanitizeStack_bounds_witness :
  abcd ≠ []
  ∧ sanitizeStack abcd (SavedFrame 0 (-3) ["A"; "x"; "B"] ["A"; "A"] ["Z"] [] 7 4294967297)
    = Frame 1 0 ["A"; "B"] ["A"; "A"] [] [] 2 0
  ∧ (st_li (sanitizeStack abcd
              (SavedFrame 0 (-3) ["A"; "x"; "B"] ["A"; "A"] ["Z"] [] 7 4294967297))
     <= length (st_L (sanitizeStack abcd
              (SavedFrame 0 (-3) ["A"; "x"; "B"] ["A"; "A"] ["Z"] [] 7 4294967297))))%nat.
Proof.
  assert (Hne : abcd ≠ []) by (intros H; discriminate H).
  split; [exact Hne|]. split; [vm_compute; reflexivity|].
  exact (proj1 (sanitizeStack_bounds abcd
                  (SavedFrame 0 (-3) ["A"; "x"; "B"] ["A"; "A"] ["Z"] [] 7 4294967297) Hne)).
Defined.

(** X24. A frame that is in order (known ids, cursors inside their arrays,
    a positive width, everything below 2^31) is read back by [sanitizeState]
    exactly as [saveState] wrote it. *)
Theorem sanitizeStack_saved (data : list person) (st : frame) :
  Forall (λ x, x ∈ id <$> data) (st_arr st) → Forall (λ x, x ∈ id <$> data) (st_L st) →
  Forall (λ x, x ∈ id <$> data) (st_R st) → Forall (λ x, x ∈ id <$> data) (st_out st) →
  (st_li st <= length (st_L st))%nat → (st_rj st <= length (st_R st))%nat →
  (st_i st <= length (st_arr st))%nat →
  1 <= Z.of_nat (st_width st) < 2147483648 →
  Z.of_nat (length (st_arr st)) < 2147483648 →
  Z.of_nat (length (st_L st)) < 2147483648 → Z.of_nat (length (st_R st)) < 2147483648 →
  sanitizeStack data (saved st) = st.
Proof.
  intros Harr HL HR Hout Hli Hrj Hi Hw Hna HnL HnR.
  unfold sanitizeStack, saved.
  cbn [sv_width sv_i sv_arr sv_L sv_R sv_out sv_li sv_rj].
  rewrite !filter_known_fixed by done.
  rewrite !to_int32_small by lia.
  destruct (Z.eqb_spec (Z.of_nat (st_width st)) 0) as [H0|H0]; [lia|].
  destruct st as [w i arr L R out li rj]. cbn [st_width st_i st_arr st_L st_R st_li st_rj] in *.
  f_equal; lia.
Qed.

Lemma sanitizeStack_saved_witness :
  sanitizeStack abcd (saved (Frame 2 0 ["A"; "B"; "C"; "D"] ["A"; "B"] ["C"; "D"] ["A"] 1 0))
  = Frame 2 0 ["A"; "B"; "C"; "D"] ["A"; "B"] ["C"; "D"] ["A"] 1 0.
Proof.
  apply sanitizeStack_saved; cbn [st_arr st_L st_R st_out st_li st_rj st_i st_width length];
    try lia;
    repeat (apply Forall_cons_2; [apply (bool_decide_unpack _); by vm_compute|]);
    apply Forall_nil_2.
Defined.

(** ** The rank numbers shown beside a ranking *)

Lemma rank_from_length ties prev rank i l :
  length (rank_from ties prev rank i l) = length l.
Proof.
  revert prev rank i. induction l as [|p l IH]; intros prev rank i; [done|].
  cbn [rank_from length]. by rewrite IH.
Qed.

Lemma rank_from_step ties prev rank i l k p q r r' :
  (prev :: l) !! k = Some p → (prev :: l) !! S k = Some q →
  (rank :: rank_from ties prev rank i l) !! k = Some r →
  (rank :: rank_from ties prev rank i l) !! S k = Some r' →
  r' = if isTie ties p q then r else (i + k + 1)%nat.
Proof.
  revert prev rank i k. induction l as [|x l IH]; intros prev rank i k Hp Hq Hr Hr'.
  { destruct k; cbn in Hq; discriminate Hq. }
  destruct k as [|k].
  - cbn in Hp, Hq, Hr, Hr'. injection Hp as <-. injection Hq as <-.
    injection Hr as <-. injection Hr' as <-.
    by rewrite Nat.add_0_r.
  - cbn [rank_from] in Hr, Hr'.
    change ((prev :: x :: l) !! S k) with ((x :: l) !! k) in Hp.
    change ((prev :: x :: l) !! S (S k)) with ((x :: l) !! S k) in Hq.
    rewrite lookup_cons_ne_0 in Hr by done. rewrite lookup_cons_ne_0 in Hr' by done.
    cbn [Nat.pred] in Hr, Hr'.
    rewrite (IH x _ (S i) k Hp Hq Hr Hr').
    replace (S i + k + 1)%nat with (i + S k + 1)%nat by lia. done.
Qed.

(** X25. The numbers [renderResults] and [renderLiveRanking] print: one per
    entry, the first is 1; an entry tied with the one before (in either
    direction of the tie key) repeats its number, any other entry gets its
    position; so the numbers never decrease and never exceed the position. *)
Theorem rankNumbers_spec (ties : gmap string bool) (l : list person) :
  length (rankNumbers ties l) = length l
  ∧ (∀ p, head l = Some p → head (rankNumbers ties l) = Some 1%nat)
  ∧ (∀ k p q r r',
       l !! k = Some p → l !! S k = Some q →
       rankNumbers ties l !! k = Some r → rankNumbers ties l !! S k = Some r' →
       r' = if isTie ties p q then r else (k + 2)%nat)
  ∧ (∀ k r, rankNumbers ties l !! k = Some r → (1 <= r <= k + 1)%nat)
  ∧ (∀ k r r', rankNumbers ties l !! k = Some r → rankNumbers ties l !! S k = Some r' →
       (r <= r')%nat).
Proof.
  assert (Hlen : length (rankNumbers ties l) = length l).
  { destruct l as [|p l]; [done|]. cbn. by rewrite rank_from_length. }
  assert (Hstep : ∀ k p q r r',
            l !! k = Some p → l !! S k = Some q →
            rankNumbers ties l !! k = Some r → rankNumbers ties l !! S k = Some r' →
            r' = if isTie ties p q then r else (k + 2)%nat).
  { destruct l as [|p0 l]; [intros k p q r r' Hp; destruct k; discriminate Hp|].
    intros k p q r r' Hp Hq Hr Hr'. unfold rankNumbers in Hr, Hr'.
    rewrite (rank_from_step ties p0 1 1 l k p q r r' Hp Hq Hr Hr').
    replace (1 + k + 1)%nat with (k + 2)%nat by lia. done. }
  assert (Hbound : ∀ k r, rankNumbers ties l !! k = Some r → (1 <= r <= k + 1)%nat).
  { induction k as [|k IH]; intros r Hr.
    - destruct l as [|p0 l]; [discriminate Hr|]. cbn in Hr. injection Hr as <-. lia.
    - assert (Hk : (S k < length l)%nat).
      { rewrite <- Hlen. by eapply lookup_lt_Some. }
      destruct (lookup_lt_is_Some_2 l k ltac:(lia)) as [p Hp].
      destruct (lookup_lt_is_Some_2 l (S k) Hk) as [q Hq].
      destruct (lookup_lt_is_Some_2 (rankNumbers ties l) k ltac:(lia)) as [r0 Hr0].
      rewrite (Hstep k p q r0 r Hp Hq Hr0 Hr).
      specialize (IH r0 Hr0). destruct (isTie ties p q); lia. }
  split; [done|]. split; [|split; [done|split; [done|]]].
  - intros p Hp. destruct l; [discriminate Hp|]. done.
  - intros k r r' Hr Hr'.
    assert (Hk : (S k < length l)%nat).
    { rewrite <- Hlen. by eapply lookup_lt_Some. }
    destruct (lookup_lt_is_Some_2 l k ltac:(lia)) as [p Hp].
    destruct (lookup_lt_is_Some_2 l (S k) Hk) as [q Hq].
    rewrite (Hstep k p q r r' Hp Hq Hr Hr').
    specialize (Hbound k r Hr). destruct (isTie ties p q); lia.
Qed.

(** ** Answers from the cache *)

(** X26. A recorded judgment is not asked for again.  After [finish] stored
    the answer [v] for the pair [(a, b)], whose two keys differ, [prefer]
    answers [v] for [(a, b)] and the inverse for [(b, a)] from the cache: the
    comparator is not consulted and the state does not change. *)
Theorem prefer_answers_from_cache (a b : person) (v : Z) (s : sorter)
    (os : list outcome) :
  keyFor a b ≠ keyFor b a →
  let s' := finish a b (PNum v) s in
  prefer a b s' os = Some (PNum v, s', os)
  ∧ prefer b a s' os = Some (PNum (invert v), s', os).
Proof.
  intros Hk. cbv zeta. unfold prefer.
  assert (Hc : cache (finish a b (PNum v) s)
               = <[keyFor b a := invert v]> (<[keyFor a b := v]> (cache s))) by done.
  rewrite Hc. rewrite lookup_insert_ne by done. rewrite !lookup_insert_eq. done.
Qed.

Lemma prefer_answers_from_cache_witness :
  keyFor pA pB ≠ keyFor pB pA
  ∧ prefer pB pA (finish pA pB (PNum 1) defaultSorter) [Right]
    = Some (PNum (-1), finish pA pB (PNum 1) defaultSorter, [Right]).
Proof.
  assert (Hk : keyFor pA pB ≠ keyFor pB pA) by (intros H; discriminate H).
  split; [exact Hk|].
  exact (proj2 (prefer_answers_from_cache pA pB 1 defaultSorter [Right] Hk)).
Defined.

(** ** The comparison budget *)


(** ** Counting the judged pairs *)

Lemma rev_app_rev_app (x cur acc : string) :
  String.rev_app (String.rev_app x cur) acc = String.rev_app cur (x +:+ acc).
Proof.
  revert cur acc. induction x as [|c x IH]; intros cur acc; [done|].
  cbn [String.rev_app]. by rewrite IH.
Qed.

Lemma append_empty_r (x : string) : x +:+ "" = x.
Proof.
  induction x as [|c x IH]; [done|].
  change (String c (x +:+ "") = String c x). by rewrite IH.
Qed.

Lemma rev_rev_app (x : string) : String.rev (String.rev_app x "") = x.
Proof.
  unfold String.rev. rewrite rev_app_rev_app. cbn [String.rev_app]. apply append_empty_r.
Qed.

Lemma split_bar_free cur x :
  bar_free x → split_bar cur x = [String.rev (String.rev_app x cur)].
Proof.
  unfold bar_free. revert cur. induction x as [|c x IH]; intros cur Hx; [done|].
  cbn in Hx. apply orb_false_elim in Hx as [Hc Hx].
  cbn [split_bar String.rev_app]. rewrite Hc. by apply IH.
Qed.

Lemma split_bar_key cur x y :
  bar_free x →
  split_bar cur (key x y) = String.rev (String.rev_app x cur) :: split_bar "" y.
Proof.
  unfold bar_free. revert cur. induction x as [|c x IH]; intros cur Hx.
  - rewrite key_nil. done.
  - cbn in Hx. apply orb_false_elim in Hx as [Hc Hx].
    rewrite key_cons. cbn [split_bar String.rev_app]. rewrite Hc. by apply IH.
Qed.

Lemma split_bar_nonempty cur k : split_bar cur k ≠ [].
Proof.
  revert cur. induction k as [|c k IH]; intros cur; [done|].
  cbn [split_bar]. destruct (Ascii.eqb c "|"); [done|apply IH].
Qed.

Lemma split_bar_one cur k w : split_bar cur k = [w] → bar_free k.
Proof.
  unfold bar_free. revert cur. induction k as [|c k IH]; intros cur; [done|].
  cbn [split_bar has_bar]. destruct (Ascii.eqb c "|").
  - intros [= _ H]. by apply split_bar_nonempty in H.
  - intros H. by apply IH in H.
Qed.

Lemma split_bar_two cur k u w :
  split_bar cur k = [u; w] → ∃ x y, k = key x y ∧ bar_free x ∧ bar_free y.
Proof.
  revert cur. induction k as [|c k IH]; intros cur; [done|].
  cbn [split_bar]. destruct (Ascii.eqb c "|") eqn:Hc.
  - intros [= _ H]. apply Ascii.eqb_eq in Hc as ->.
    exists "", k. split; [done|]. split; [done|]. by eapply split_bar_one.
  - intros H. destruct (IH _ H) as (x & y & -> & Hx & Hy).
    exists (String c x), y. split; [done|]. split; [|done].
    unfold bar_free in *. cbn. by rewrite Hc, Hx.
Qed.

Lemma canonical_key x y :
  bar_free x → bar_free y →
  canonical_pair (key x y) = Some (if String.ltb x y then key x y else key y x).
Proof.
  intros Hx Hy. unfold canonical_pair.
  rewrite (split_bar_key _ _ _ Hx), (split_bar_free _ _ Hy), !rev_rev_app. done.
Qed.

Lemma canonical_inv k c :
  canonical_pair k = Some c →
  ∃ x y, bar_free x ∧ bar_free y ∧ k = key x y
         ∧ c = if String.ltb x y then key x y else key y x.
Proof.
  intros Hk. assert (H2 : ∃ u w, split_bar "" k = [u; w]).
  { unfold canonical_pair in Hk.
    destruct (split_bar "" k) as [|u [|w [|? ?]]]; try discriminate Hk. by exists u, w. }
  destruct H2 as (u & w & H2).
  destruct (split_bar_two _ _ _ _ H2) as (x & y & -> & Hx & Hy).
  exists x, y. rewrite (canonical_key x y Hx Hy) in Hk. injection Hk as <-. done.
Qed.

Lemma ltb_swap (x y : string) : x ≠ y → String.ltb y x = negb (String.ltb x y).
Proof.
  intros Hne. unfold String.ltb. rewrite (String.compare_antisym x y).
  destruct (String.compare y x) eqn:E; cbn; try done.
  apply String.compare_eq_iff in E. by subst.
Qed.

Lemma canonical_swap x y :
  bar_free x → bar_free y → x ≠ y → canonical_pair (key y x) = canonical_pair (key x y).
Proof.
  intros Hx Hy Hne. rewrite (canonical_key x y Hx Hy), (canonical_key y x Hy Hx).
  rewrite (ltb_swap x y Hne). by destruct (String.ltb x y).
Qed.

(** The pairs counted, as a set. *)
Lemma elem_of_seen (c : gmap string Z) (p : string) :
  p ∈ (list_to_set (omap canonical_pair (elements (dom c))) : gset string)
  ↔ ∃ k, is_Some (c !! k) ∧ canonical_pair k = Some p.
Proof.
  rewrite elem_of_list_to_set, list_elem_of_omap. split.
  - intros (k & Hk & Hp). exists k. split; [|done].
    apply elem_of_elements in Hk. by apply elem_of_dom in Hk.
  - intros (k & Hk & Hp). exists k. split; [|done].
    apply elem_of_elements. by apply elem_of_dom.
Qed.

Lemma seen_pair (c : gmap string Z) x y :
  bar_free x → bar_free y → x ≠ y →
  (∃ k, is_Some (c !! k) ∧ canonical_pair k = canonical_pair (key x y))
  ↔ is_Some (c !! key x y) ∨ is_Some (c !! key y x).
Proof.
  intros Hx Hy Hne. split.
  - intros (k & Hk & Hp). rewrite (canonical_key x y Hx Hy) in Hp.
    destruct (canonical_inv _ _ Hp) as (x' & y' & Hx' & Hy' & -> & Heq).
    destruct (String.ltb x y), (String.ltb x' y').
    + destruct (key_inj _ _ _ _ Hx Hx' Heq) as [-> ->]. by left.
    + destruct (key_inj _ _ _ _ Hx Hy' Heq) as [-> ->]. by right.
    + destruct (key_inj _ _ _ _ Hy Hx' Heq) as [-> ->]. by right.
    + destruct (key_inj _ _ _ _ Hy Hy' Heq) as [-> ->]. by left.
  - intros [H|H]; [by exists (key x y)|].
    exists (key y x). split; [done|]. by apply canonical_swap.
Qed.

(** X28. [countUniqueCachePairs] counts a judged pair once.  For two
    different ids without ['|'], the two entries that [finish] writes raise
    the count by one when the pair was in the cache in neither direction, and
    leave it unchanged otherwise; the empty cache counts 0. *)
Theorem countUniqueCachePairs_finish (a b : person) (v : Z) (s : sorter) :
  bar_free (id a) → bar_free (id b) → id a ≠ id b →
  countUniqueCachePairs ∅ = 0%nat
  ∧ countUniqueCachePairs (cache (finish a b (PNum v) s))
    = (countUniqueCachePairs (cache s)
       + if bool_decide (cache s !! keyFor a b = None ∧ cache s !! keyFor b a = None)
         then 1 else 0)%nat.
Proof.
  intros Ha Hb Hne. split; [done|].
  assert (Hc : cache (finish a b (PNum v) s)
               = <[keyFor b a := invert v]> (<[keyFor a b := v]> (cache s))) by done.
  rewrite Hc, !keyFor_key. clear Hc.
  set (x := id a) in *. set (y := id b) in *. set (c := cache s).
  unfold countUniqueCachePairs.
  set (seen := list_to_set (omap canonical_pair (elements (dom c))) : gset string).
  set (seen' := list_to_set (omap canonical_pair
                  (elements (dom (<[key y x := invert v]> (<[key x y := v]> c)))))
                : gset string).
  destruct (canonical_pair (key x y)) as [p0|] eqn:Hp0;
    [|by rewrite (canonical_key x y Ha Hb) in Hp0].
  assert (Hseen' : seen' = {[p0]} ∪ seen).
  { apply set_eq. intros p. rewrite elem_of_union, elem_of_singleton.
    unfold seen', seen. rewrite !elem_of_seen. split.
    - intros (k & Hk & Hp).
      destruct (decide (k = key y x)) as [->|Hk1].
      { left. rewrite (canonical_swap x y Ha Hb Hne), Hp0 in Hp. by injection Hp. }
      rewrite lookup_insert_ne in Hk by done.
      destruct (decide (k = key x y)) as [->|Hk2].
      { left. rewrite Hp0 in Hp. by injection Hp. }
      rewrite lookup_insert_ne in Hk by done. right. by exists k.
    - intros [->|(k & Hk & Hp)].
      + exists (key x y). split; [|done].
        destruct (decide (key x y = key y x)) as [Heq|Hneq].
        * rewrite Heq, lookup_insert_eq. by eexists.
        * rewrite lookup_insert_ne, lookup_insert_eq by done. by eexists.
      + exists k. split; [|done].
        destruct (decide (k = key y x)) as [->|Hk1]; [rewrite lookup_insert_eq; by eexists|].
        rewrite lookup_insert_ne by done.
        destruct (decide (k = key x y)) as [->|Hk2]; [rewrite lookup_insert_eq; by eexists|].
        by rewrite lookup_insert_ne. }
  rewrite Hseen'.
  assert (Hin : p0 ∈ seen ↔ is_Some (c !! key x y) ∨ is_Some (c !! key y x)).
  { unfold seen. rewrite elem_of_seen, <- (seen_pair c x y Ha Hb Hne), Hp0. done. }
  case_bool_decide as Hfresh.
  - destruct Hfresh as [H1 H2].
    assert (Hnin : p0 ∉ seen).
    { rewrite Hin. intros [[? H]|[? H]]; congruence. }
    rewrite size_union by (by apply disjoint_singleton_l). rewrite size_singleton. lia.
  - assert (Hp : p0 ∈ seen).
    { apply Hin. destruct (c !! key x y) eqn:E1; [left; by eexists|].
      destruct (c !! key y x) eqn:E2; [right; by eexists|]. by destruct Hfresh. }
    rewrite (subseteq_union_1_L {[p0]} seen) by (by apply singleton_subseteq_l). lia.
Qed.

Lemma countUniqueCachePairs_finish_witness :
  bar_free (id pA) ∧ bar_free (id pB) ∧ id pA ≠ id pB
  ∧ countUniqueCachePairs (cache (finish pA pB (PNum 1) defaultSorter)) = 1%nat
  ∧ countUniqueCachePairs
      (cache (finish pB pA (PNum 0) (finish pA pB (PNum 1) defaultSorter))) = 1%nat.
Proof.
  assert (Ha : bar_free (id pA)) by reflexivity.
  assert (Hb : bar_free (id pB)) by reflexivity.
  assert (Hne : id pA ≠ id pB) by (intros H; discriminate H).
  assert (Hne' : id pB ≠ id pA) by (intros H; discriminate H).
  split; [exact Ha|]. split; [exact Hb|]. split; [exact Hne|].
  destruct (countUniqueCachePairs_finish pA pB 1 defaultSorter Ha Hb Hne) as [H0 H1].
  assert (E1 : countUniqueCachePairs (cache (finish pA pB (PNum 1) defaultSorter)) = 1%nat).
  { rewrite H1. change (cache defaultSorter) with (∅ : gmap string Z). rewrite H0.
    rewrite bool_decide_eq_true_2; [reflexivity|].
    rewrite !lookup_empty. split; reflexivity. }
  split; [exact E1|].
  destruct (countUniqueCachePairs_finish pB pA 0 (finish pA pB (PNum 1) defaultSorter)
              Hb Ha Hne') as [_ H2].
  rewrite H2, E1. rewrite bool_decide_eq_false_2; [reflexivity|].
  intros [H _]. revert H. clear. vm_compute. intros H. discriminate H.
Defined.
